(** * canaly: bit extraction and schema-driven decoding of CAN payloads

    A shallow embedding of [bits.py] and of the decoding core of
    [canaly.py], followed by the properties established about them.

    Conventions of the embedding:
    - Python [int] is [Z]; [bytes] is [list byte]; [str] is [string]
      (ASCII text); JSON numbers are [num] (an [int] or a [float]);
      Python [float] is the binary64 type [PrimFloat.float].
    - A computation that may raise is an [outcome]: [Ok v], or [Raise e]
      with the Python exception class, or [Diverge] when a loop of the
      model exhausts its iteration budget ([split_bits_terminates] shows
      that this never happens).
    - Python dictionaries keyed by integers are [gmap Z _]. *)

From Stdlib Require Import ZArith Lia Floats Strings.Byte Ascii String.
From stdpp Require Import base option list gmap strings sorting pretty.

Local Open Scope Z_scope.

(** ** Python outcomes *)

Inductive exn : Set :=
  | IndexError
  | KeyError
  | ValueError
  | OverflowError.

Inductive outcome (A : Type) : Type :=
  | Ok (a : A)
  | Raise (e : exn)
  | Diverge.

Arguments Ok {A} a.
Arguments Raise {A} e.
Arguments Diverge {A}.

#[global] Instance outcome_ret : MRet outcome := fun A a => Ok a.

#[global] Instance outcome_bind : MBind outcome := fun A B f m =>
  match m with
  | Ok a => f a
  | Raise e => Raise e
  | Diverge => Diverge
  end.

(** [l[i]] on a Python sequence: negative indices count from the end,
    anything outside [-len, len) raises [IndexError]. *)
Definition py_getitem {A : Type} (l : list A) (i : Z) : outcome A :=
  let n := Z.of_nat (length l) in
  let j := if i <? 0 then i + n else i in
  if (j <? 0) || (n <=? j) then Raise IndexError
  else match l !! Z.to_nat j with
       | Some x => Ok x
       | None => Raise IndexError
       end.

(** [a << n] on Python integers: a negative shift count is a
    [ValueError]. *)
Definition py_lshift (a n : Z) : outcome Z :=
  if n <? 0 then Raise ValueError else Ok (Z.shiftl a n).

(** The integer value of one element of a [bytes] object. *)
Definition byte_val (b : byte) : Z := Z.of_N (Byte.to_N b).

Module Bits.

(** *** [split_bits] *)

(** The variables of the inner [while] loop of [split_bits]. *)
Record cursor : Set := Cursor {
  pos : Z;
  rem_len : Z;
  b_index : Z;
  bits : Z
}.

(** One pass through the body of the inner loop (lines 29-51). *)
Definition byte_step (bs : list byte) (c : cursor) : outcome cursor :=
  b ← py_getitem bs (b_index c);
  let b := byte_val b in
  let max_pos := Z.shiftl (b_index c + 1) 3 in
  let to_pos := Z.min (pos c + rem_len c) max_pos in
  let len := to_pos - pos c in
  let b := Z.land b (Z.shiftr 255 (pos c mod 8)) in
  let b := Z.shiftr b (max_pos - to_pos) in
  shifted ← py_lshift (bits c) len;
  let bits' := shifted + b in
  let rem_len' := rem_len c - len in
  let pos' := pos c + len in
  let b_index' := if max_pos <=? pos' then b_index c + 1 else b_index c in
  Ok (Cursor pos' rem_len' b_index' bits').

(** [while pos < next_pos: ...] *)
Fixpoint inner_loop (fuel : nat) (bs : list byte) (next_pos : Z)
    (c : cursor) : outcome cursor :=
  if pos c <? next_pos then
    match fuel with
    | O => Diverge
    | S fuel' => c' ← byte_step bs c; inner_loop fuel' bs next_pos c'
    end
  else Ok c.

(** [min(end_pos, ss[s_index + 1]) if (s_index + 1) < len(ss) else end_pos] *)
Definition next_boundary (ss : list Z) (s_index : nat) (end_pos : Z) : Z :=
  match ss !! S s_index with
  | Some s => Z.min end_pos s
  | None => end_pos
  end.

(** [while pos < end_pos: ...] (lines 24-61).  Every round of the inner
    loop consumes at least one bit, so [next_pos - pos] rounds are
    enough for it. *)
Fixpoint outer_loop (fuel : nat) (bs : list byte) (ss : list Z)
    (end_pos pos0 b_index0 : Z) (s_index : nat) (next_pos : Z)
    (bits_list : list Z) : outcome (list Z) :=
  if pos0 <? end_pos then
    match fuel with
    | O => Diverge
    | S fuel' =>
        let rem_len0 := next_pos - pos0 in
        c ← inner_loop (Z.to_nat rem_len0) bs next_pos
              (Cursor pos0 rem_len0 b_index0 0);
        let bits_list' := bits_list ++ [bits c] in
        let s_index' := S s_index in
        let next_pos' := next_boundary ss s_index' end_pos in
        outer_loop fuel' bs ss end_pos (pos c) (b_index c) s_index'
                   next_pos' bits_list'
    end
  else Ok bits_list.

(** [split_bits(bs, ss, end)]; the default [end=-1] is passed
    explicitly.  The outer loop runs at most once per offset. *)
Definition split_bits (bs : list byte) (ss : list Z) (end_ : Z)
    : outcome (list Z) :=
  pos0 ← py_getitem ss 0;
  let end_pos := if end_ <? 0 then Z.shiftl (Z.of_nat (length bs)) 3 else end_ in
  let next_pos := next_boundary ss 0 end_pos in
  let b_index0 := Z.shiftr pos0 3 in
  outer_loop (S (length ss)) bs ss end_pos pos0 b_index0 0 next_pos [].

(** *** [extract_bits]

    [None] is Python's [None], returned when the split is empty. *)
Definition extract_bits (bs : list byte) (s l : Z) : outcome (option Z) :=
  bits_list ← split_bits bs [s] (s + l);
  Ok (match bits_list with
      | x :: _ => Some x
      | [] => None
      end).

(** *** [hexstr_to_bytes] *)

(** [Py_ISSPACE]: tab, line feed, vertical tab, form feed, carriage
    return and space. *)
Definition is_space (c : ascii) : bool :=
  let n := Z.of_N (N_of_ascii c) in
  ((9 <=? n) && (n <=? 13)) || (n =? 32).

(** The value of a base-16 digit: [0-9], [a-f], [A-F]. *)
Definition digit_value (c : ascii) : option Z :=
  let n := Z.of_N (N_of_ascii c) in
  if (48 <=? n) && (n <=? 57) then Some (n - 48)
  else if (97 <=? n) && (n <=? 102) then Some (n - 87)
  else if (65 <=? n) && (n <=? 70) then Some (n - 55)
  else None.

Fixpoint lstrip (s : string) : string :=
  match s with
  | String c r => if is_space c then lstrip r else s
  | EmptyString => s
  end.

(** The digit scan of [int(_, 16)]: digits separated by single
    underscores; two underscores in a row or a trailing underscore are a
    syntax error ([None]).  Returns the value, the number of digits read
    and the unread rest. *)
Fixpoint scan_digits (s : string) (prev_underscore : bool) (acc : Z)
    (digits : nat) : option (Z * nat * string) :=
  match s with
  | String c r =>
      if Ascii.eqb c "_" then
        if prev_underscore then None else scan_digits r true acc digits
      else
        match digit_value c with
        | Some d => scan_digits r false (16 * acc + d) (S digits)
        | None => if prev_underscore then None else Some (acc, digits, s)
        end
  | EmptyString => if prev_underscore then None else Some (acc, digits, s)
  end.

(** [int(s, 16)] on ASCII text: surrounding whitespace, an optional
    sign, an optional [0x]/[0X] prefix (which may be followed by one
    underscore), then at least one digit.  Characters outside ASCII are
    not modelled: they count as any other character that is neither a
    digit nor whitespace.  (The payload text handed over by [analyze]
    matches [[A-Za-z0-9]+].) *)
Definition int16 (s : string) : outcome Z :=
  let s := lstrip s in
  let '(negative, s) :=
    match s with
    | String "+" r => (false, r)
    | String "-" r => (true, r)
    | _ => (false, s)
    end in
  let s :=
    match s with
    | String "0" (String c r) =>
        if Ascii.eqb c "x" || Ascii.eqb c "X" then
          match r with
          | String "_" r' => r'
          | _ => r
          end
        else s
    | _ => s
    end in
  match s with
  | String "_" _ => Raise ValueError
  | _ =>
      match scan_digits s false 0 0 with
      | None => Raise ValueError
      | Some (v, digits, rest) =>
          if Nat.eqb digits 0 then Raise ValueError
          else match lstrip rest with
               | EmptyString => Ok (if negative then - v else v)
               | String _ _ => Raise ValueError
               end
      end
  end.

(** [hex_string[i:i+2] for i in range(0, len(hex_string), 2)] *)
Fixpoint slices (hex_string : string) : list string :=
  match hex_string with
  | String a (String b r) => String a (String b EmptyString) :: slices r
  | String a EmptyString => [String a EmptyString]
  | EmptyString => []
  end.

(** The [for] loop of [hexstr_to_bytes] (lines 88-89). *)
Fixpoint parse_slices (chunks : list string) (int_array : list Z)
    : outcome (list Z) :=
  match chunks with
  | [] => Ok int_array
  | c :: rest => n ← int16 c; parse_slices rest (int_array ++ [n])
  end.

(** [bytes(int_array)]: every element must be in [range(0, 256)]. *)
Fixpoint py_bytes (int_array : list Z) : outcome (list byte) :=
  match int_array with
  | [] => Ok []
  | n :: rest =>
      if (0 <=? n) && (n <? 256) then
        match Byte.of_N (Z.to_N n) with
        | Some b => bs ← py_bytes rest; Ok (b :: bs)
        | None => Raise ValueError
        end
      else Raise ValueError
  end.

Definition hexstr_to_bytes (hex_string : string) : outcome (list byte) :=
  let hex_string :=
    if Nat.eqb (String.length hex_string mod 2) 0 then hex_string
    else String "0" hex_string in
  int_array ← parse_slices (slices hex_string) [];
  py_bytes int_array.

End Bits.

Module Canaly.

Import Bits.

(** ** Schema data *)

(** A JSON number. *)
Inductive num : Set :=
  | NInt (z : Z)
  | NFloat (f : float).

(** One entry of a record's ["values"] list.  [resolution] and
    [minimum] may be absent from the JSON object. *)
Record field_def : Set := FieldDef {
  d_name : string;
  d_start : Z;
  d_length : Z;
  d_type : string;
  d_resolution : option num;
  d_minimum : option num;
  d_unit : string;
  d_desc : string;
  d_mode_signal : Z;
  d_mode_dependent : string
}.

(** One element of the JSON list read by [load_stbl]. *)
Record record : Set := Record_ {
  r_id : string;
  r_name : string;
  r_values : list field_def
}.

(** An entry of the signal table: the dictionary built at lines 48-54
    when ["multi_mode"] is true, the one of lines 56-61 otherwise. *)
Inductive schema : Type :=
  | Simple (id : Z) (name : string) (values : list field_def)
  | MultiMode (id : Z) (name : string) (mode : field_def)
      (mode_dependent_values : gmap Z (list field_def)).

(** ** [load_stbl] *)

(** The loop over [r["values"]] (lines 36-45).  [multi_mode] and [mode]
    are always assigned together, so the pair is one [option]. *)
Fixpoint scan_values (vs : list field_def) (mode : option field_def)
    (mode_dependent_values : gmap Z (list field_def))
    : outcome (option field_def * gmap Z (list field_def)) :=
  match vs with
  | [] => Ok (mode, mode_dependent_values)
  | v :: rest =>
      let mode := if d_mode_signal v =? 1 then Some v else mode in
      if String.eqb (d_mode_dependent v) EmptyString then
        scan_values rest mode mode_dependent_values
      else
        mode_dependent_signal ← int16 (d_mode_dependent v);
        let filed := default [] (mode_dependent_values !! mode_dependent_signal) in
        scan_values rest mode
          (<[mode_dependent_signal := filed ++ [v]]> mode_dependent_values)
  end.

(** The table entry for one record (lines 32-61). *)
Definition make_entry (canid : Z) (r : record) : outcome schema :=
  '(mode, mode_dependent_values) ← scan_values (r_values r) None ∅;
  Ok (match mode with
      | Some m => MultiMode canid (r_name r) m mode_dependent_values
      | None => Simple canid (r_name r) (r_values r)
      end).

(** The loop over the records (lines 21-61). *)
Fixpoint load_records (json_list : list record) (stbl : gmap Z schema)
    : outcome (gmap Z schema) :=
  match json_list with
  | [] => Ok stbl
  | r :: rest =>
      canid ← int16 (r_id r);
      match stbl !! canid with
      | Some _ => load_records rest stbl
      | None =>
          entry ← make_entry canid r;
          load_records rest (<[canid := entry]> stbl)
      end
  end.

(** [load_stbl], from the parsed JSON list on. *)
Definition load_stbl (json_list : list record) : outcome (gmap Z schema) :=
  load_records json_list ∅.

(** ** [analyze_data] *)

(** A Python value stored in a decoded field. *)
Inductive pyval : Set :=
  | PNone
  | PInt (z : Z)
  | PFloat (f : float).

(** The dictionaries appended to [fields]; the ["unit"] key is absent
    when [f_unit] is [None]. *)
Record decoded_field : Set := DecodedField {
  f_name : string;
  f_bits : pyval;
  f_value : pyval;
  f_unit : option string;
  f_desc : string
}.

(** [float(n)] for an integer: rounded to the nearest binary64 value,
    ties to even; [OverflowError] beyond the largest finite float. *)
Definition float_of_int (n : Z) : outcome float :=
  match binary_normalize prec emax n 0 false with
  | S754_infinity _ => Raise OverflowError
  | sf => Ok (SF2Prim sf)
  end.

(** The operand conversion of mixed float/int arithmetic. *)
Definition as_float (n : num) : outcome float :=
  match n with
  | NInt z => float_of_int z
  | NFloat f => Ok f
  end.

(** [d[key]] for an optional key. *)
Definition py_key {A : Type} (o : option A) : outcome A :=
  match o with
  | Some a => Ok a
  | None => Raise KeyError
  end.

(** Lines 112-114. *)
Definition field_value (d : field_def) (bits : Z) : outcome pyval :=
  if String.eqb (d_type d) "float" then
    f ← float_of_int bits;
    r ← py_key (d_resolution d);
    r ← as_float r;
    let scaled := (f * r)%float in
    m ← py_key (d_minimum d);
    m ← as_float m;
    Ok (PFloat (scaled + m)%float)
  else Ok (PInt bits).

(** The loop over [bits_list] (lines 108-124). *)
Fixpoint convert (ds : list field_def) (bits_list : list Z) (i : nat)
    (fields : list decoded_field) : outcome (list decoded_field) :=
  match bits_list with
  | [] => Ok fields
  | bits :: rest =>
      d ← py_getitem ds (Z.of_nat i);
      value ← field_value d bits;
      convert ds rest (S i)
        (fields ++ [DecodedField (d_name d) (PInt bits) value
                                 (Some (d_unit d)) (d_desc d)])
  end.

(** The result of [extract_bits] as a Python value. *)
Definition pyval_of_mode (mode : option Z) : pyval :=
  match mode with
  | Some m => PInt m
  | None => PNone
  end.

(** [stbl["mode_dependent_values"][mode]]; the keys of the dictionary
    are integers, so [None] is never one of them. *)
Definition mode_lookup (mode_dependent_values : gmap Z (list field_def))
    (mode : option Z) : outcome (list field_def) :=
  match mode with
  | Some m => py_key (mode_dependent_values !! m)
  | None => Raise KeyError
  end.

(** Lines 80-95: the fields emitted so far and the value definitions
    to decode. *)
Definition select_values (bs : list byte) (stbl : schema)
    : outcome (list decoded_field * list field_def) :=
  match stbl with
  | MultiMode _ _ mode_def mode_dependent_values =>
      mode ← extract_bits bs (d_start mode_def) (d_length mode_def);
      let fields :=
        [DecodedField (d_name mode_def) (pyval_of_mode mode)
                      (pyval_of_mode mode) None (d_desc mode_def)] in
      ds ← mode_lookup mode_dependent_values mode;
      Ok (fields, ds)
  | Simple _ _ values => Ok ([], values)
  end.

(** Lines 97-127. *)
Definition decode_values (bs : list byte) (ds : list field_def)
    (fields : list decoded_field) : outcome (list decoded_field) :=
  let ss := map d_start ds in
  bits_list ← split_bits bs ss (-1);
  convert ds bits_list 0 fields.

Definition analyze_data (bs : list byte) (stbl : schema)
    : outcome (list decoded_field) :=
  '(fields, ds) ← select_values bs stbl;
  decode_values bs ds fields.

End Canaly.

Import Bits Canaly.

(** ** Reference definitions

    What the bit ranges of a buffer denote, stated independently of the
    extraction loops. *)

(** The bit at position [p]: bit 0 is the most significant bit of byte
    0, bit 8 the most significant bit of byte 1, and so on. *)
Definition bit_at (bs : list byte) (p : Z) : Z :=
  match bs !! Z.to_nat (p / 8) with
  | Some b => Z.b2z (Z.testbit (byte_val b) (7 - p mod 8))
  | None => 0
  end.

(** The [n] bits from position [start] on, concatenated most
    significant bit first. *)
Fixpoint msb_first (bs : list byte) (start : Z) (n : nat) : Z :=
  match n with
  | O => 0
  | S k => 2 * msb_first bs start k + bit_at bs (start + Z.of_nat k)
  end.

(** The unsigned value of the bit range [[start, stop)]. *)
Definition range_value (bs : list byte) (start stop : Z) : Z :=
  msb_first bs start (Z.to_nat (stop - start)).

(** The same for [n] bits of a single byte value, from bit [o] of the
    byte (counted from its most significant bit). *)
Fixpoint byte_bits (b : Z) (o : Z) (n : nat) : Z :=
  match n with
  | O => 0
  | S k => 2 * byte_bits b o k + Z.b2z (Z.testbit b (7 - (o + Z.of_nat k)))
  end.

(** The masking and shifting of lines 38-40 on byte value [b], for a
    range of [n] bits from bit [o] of the byte. *)
Definition mask_shift (b : Z) (o n : nat) : Z :=
  Z.shiftr (Z.land b (Z.shiftr 255 (Z.of_nat o)))
           (8 - Z.of_nat o - Z.of_nat n).

(** Exhaustive comparison of [mask_shift] with [byte_bits] on one
    byte. *)
Definition mask_shift_check (b : byte) : bool :=
  forallb (fun o =>
    forallb (fun n =>
      if (o + n <=? 8)%nat
      then mask_shift (byte_val b) o n =? byte_bits (byte_val b) (Z.of_nat o) n
      else true) (seq 0 9)) (seq 0 9).

(** The cursor position after one round of the inner loop started at
    [p] with the chunk ending at [next_pos]: the end of the chunk or the
    end of the current byte, whichever comes first. *)
Definition step_target (p next_pos : Z) : Z := Z.min next_pos (8 * (p / 8 + 1)).

(** The values [split_bits] is expected to return for ascending offsets
    [ss] and end position [end_pos]: one per offset below [end_pos],
    each running to the next offset, or to [end_pos] when that comes
    first. *)
Fixpoint chunk_values (bs : list byte) (ss : list Z) (end_pos : Z) : list Z :=
  match ss with
  | [] => []
  | s :: rest =>
      if s <? end_pos
      then range_value bs s (Z.min end_pos (hd end_pos rest))
             :: chunk_values bs rest end_pos
      else []
  end.

(** A hexadecimal string: every character is one of [0-9a-fA-F]. *)
Fixpoint all_hex (s : string) : bool :=
  match s with
  | EmptyString => true
  | String c r =>
      match digit_value c with
      | Some _ => all_hex r
      | None => false
      end
  end.

(** Left-padding to even length with one ['0']. *)
Definition pad_even (s : string) : string :=
  if Nat.even (String.length s) then s else String "0" s.

(** Re-encoding of bytes to hexadecimal, two lower-case digits per
    byte (what Python's [bytes.hex()] prints). *)
Definition hex_char (n : Z) : ascii :=
  ascii_of_N (Z.to_N (if n <? 10 then 48 + n else 87 + n)).

Fixpoint hex_encode (bs : list byte) : string :=
  match bs with
  | [] => EmptyString
  | b :: rest =>
      String (hex_char (byte_val b / 16))
        (String (hex_char (byte_val b mod 16)) (hex_encode rest))
  end.

(** ASCII lower-casing. *)
Definition lower_char (c : ascii) : ascii :=
  let n := Z.of_N (N_of_ascii c) in
  if (65 <=? n) && (n <=? 90) then ascii_of_N (Z.to_N (n + 32)) else c.

Fixpoint lower (s : string) : string :=
  match s with
  | EmptyString => EmptyString
  | String c r => String (lower_char c) (lower r)
  end.

(** The byte two hexadecimal digits denote. *)
Definition pair_byte (a b : ascii) : option byte :=
  match digit_value a, digit_value b with
  | Some x, Some y => Byte.of_N (Z.to_N (16 * x + y))
  | _, _ => None
  end.

(** The bytes an even-length hexadecimal string denotes. *)
Fixpoint hex_bytes (s : string) : list byte :=
  match s with
  | String a (String b r) =>
      match pair_byte a b with
      | Some x => x :: hex_bytes r
      | None => []
      end
  | _ => []
  end.

(** Exhaustive check of one slice of two hexadecimal digits: [int]
    parses it to the byte it denotes, and that byte prints back as the
    two digits in lower case. *)
Definition hex_pair_check (a b : ascii) : bool :=
  match digit_value a, digit_value b with
  | Some x, Some y =>
      match int16 (String a (String b EmptyString)), pair_byte a b with
      | Ok v, Some byte =>
          (v =? 16 * x + y) && (v =? byte_val byte) && (0 <=? v) && (v <? 256)
          && String.eqb (hex_encode [byte])
               (String (lower_char a) (String (lower_char b) EmptyString))
      | _, _ => false
      end
  | _, _ => true
  end.

Definition all_ascii : list ascii := map ascii_of_nat (seq 0 256).

Definition hex_pair_check_all : bool :=
  forallb (fun a =>
    match digit_value a with
    | Some _ => forallb (hex_pair_check a) all_ascii
    | None => true
    end) all_ascii.

(** Whether a record's identifier parses to [c]. *)
Definition has_id (c : Z) (r : record) : bool :=
  match int16 (r_id r) with
  | Ok c' => c' =? c
  | _ => false
  end.

(** The decoded field the conversion loop builds from a definition, a
    raw integer and the materialised value. *)
Definition field_of (d : field_def) (raw : Z) (value : pyval) : decoded_field :=
  DecodedField (d_name d) (PInt raw) value (Some (d_unit d)) (d_desc d).

(** The integer a binary64 number stands for, when it is an integer:
    mantissa [m] and exponent [e] stand for [m * 2 ^ e]. *)
Definition float_integer (x : float) : option Z :=
  match Prim2SF x with
  | S754_zero _ => Some 0
  | S754_finite s m e =>
      if 0 <=? e then Some (cond_Zopp s (Zpos m * 2 ^ e))
      else if Zpos m mod 2 ^ (- e) =? 0
           then Some (cond_Zopp s (Zpos m / 2 ^ (- e)))
           else None
  | _ => None
  end.

(** [x] is the binary64 number of the integer [n]: [n] rounded to
    nearest, ties to even, as IEEE 754 specifies it; it stands for an
    integer [v] with [|v - n| <= |n| / 2 ^ 52], and for [n] itself
    when [|n| < 2 ^ 53]. *)
Definition binary64_of (n : Z) (x : float) : Prop :=
  Prim2SF x = binary_normalize prec emax n 0 false ∧
  ∃ v : Z, float_integer x = Some v ∧
    2 ^ 52 * Z.abs (v - n) <= Z.abs n ∧
    (Z.abs n < 2 ^ 53 → v = n).

(** [r] is the float operand a JSON number stands for in float
    arithmetic: the number itself, or the binary64 number of an
    integer. *)
Definition operand_of (v : num) (r : float) : Prop :=
  match v with
  | NInt n => binary64_of n r
  | NFloat f => r = f
  end.

(** The exceptions raised when a value does not materialise: a missing
    scale attribute, or an integer too large for a float. *)
Definition scaling_error (e : exn) : Prop := e = KeyError ∨ e = OverflowError.

(** Sample schema entries for the worked examples. *)
Definition raw_field (name : string) (start len : Z) : field_def :=
  FieldDef name start len "raw" None None EmptyString EmptyString 0
           EmptyString.

Definition mode_field : field_def :=
  FieldDef "mode" 0 4 "float" (Some (NFloat 0.5)) (Some (NInt 1))
           "u" "selector" 1 EmptyString.

Definition scaled_field : field_def :=
  FieldDef "temp" 0 8 "float" (Some (NFloat 0.5)) (Some (NInt (-10)))
           "degC" "temperature" 0 EmptyString.

(** ** Further reference definitions *)

(** The big-endian integer a byte sequence denotes (Python's
    [int.from_bytes(bs, "big")]). *)
Definition be_int (bs : list byte) : Z :=
  fold_left (fun acc b => acc * 256 + byte_val b) bs 0.

(** The characters of the class [[A-Za-z0-9]]. *)
Definition is_alnum (c : ascii) : bool :=
  let n := Z.of_N (N_of_ascii c) in
  ((48 <=? n) && (n <=? 57)) || ((65 <=? n) && (n <=? 90))
  || ((97 <=? n) && (n <=? 122)).

Fixpoint all_alnum (s : string) : bool :=
  match s with
  | EmptyString => true
  | String c r => is_alnum c && all_alnum r
  end.

(** Exhaustive check of the slices of two alphanumeric characters that
    are not two hexadecimal digits: [int] rejects them. *)
Definition alnum_pair_check (a b : ascii) : bool :=
  if is_alnum a && is_alnum b then
    match digit_value a, digit_value b with
    | Some _, Some _ => true
    | _, _ =>
        match int16 (String a (String b EmptyString)) with
        | Raise ValueError => true
        | _ => false
        end
    end
  else true.

Definition alnum_pair_check_all : bool :=
  forallb (fun a =>
    if is_alnum a then forallb (alnum_pair_check a) all_ascii else true)
    all_ascii.

(** Whether [load_stbl] files value [v] under key [k] of
    [mode_dependent_values]. *)
Definition filed_under (k : Z) (v : field_def) : bool :=
  negb (String.eqb (d_mode_dependent v) EmptyString)
  && match int16 (d_mode_dependent v) with
     | Ok k' => k' =? k
     | _ => false
     end.

(** Whether value [v] is flagged as the mode signal. *)
Definition is_mode_signal (v : field_def) : bool := d_mode_signal v =? 1.

(** The ["id"] and ["name"] entries of a table entry. *)
Definition schema_id (e : schema) : Z :=
  match e with
  | Simple id _ _ => id
  | MultiMode id _ _ _ => id
  end.

Definition schema_name (e : schema) : string :=
  match e with
  | Simple _ name _ => name
  | MultiMode _ name _ _ => name
  end.

(** A value definition with its ["length"] attribute replaced. *)
Definition with_length (g : field_def → Z) (d : field_def) : field_def :=
  FieldDef (d_name d) (d_start d) (g d) (d_type d) (d_resolution d)
           (d_minimum d) (d_unit d) (d_desc d) (d_mode_signal d)
           (d_mode_dependent d).

(** ** [canaly.py]: log lines and reporting

    [analyze], [find_field], [find_fields], the two formatters and the
    body of the loop of [main].  What the standard library does with
    time stamps and with the printing of floats and dictionaries is not
    modelled: [float(...)] on the time stamp text with
    [datetime.fromtimestamp] and [strftime] is the parameter
    [parse_time], [str] on a float is [float_repr], and [print] of the
    whole signal dictionary is [signal_repr], which may raise.  The
    interpreter's limit on the decimal digits of an integer turned into
    text ([sys.get_int_max_str_digits()], 4300 by default from CPython
    3.11 on, 0 where there is none) is the parameter
    [int_max_str_digits]. *)
Module Report.

Import Bits Canaly.

(** *** The two line patterns *)

(** The class [[A-Za-z0-9.]] of the [datetime] group. *)
Definition is_stamp (c : ascii) : bool := is_alnum c || Ascii.eqb c ".".

(** The class [[0-9]]. *)
Definition is_digit (c : ascii) : bool :=
  let n := Z.of_N (N_of_ascii c) in (48 <=? n) && (n <=? 57).

(** The longest prefix of [s] in the class [p], and the rest. *)
Fixpoint span (p : ascii → bool) (s : string) : string * string :=
  match s with
  | String c r =>
      if p c then let '(w, t) := span p r in (String c w, t)
      else (EmptyString, s)
  | EmptyString => (EmptyString, EmptyString)
  end.

(** A group [[class]+].  In both patterns such a group is followed by
    a character outside its class or ends the pattern, so the only
    possible match is the longest run. *)
Definition word (p : ascii → bool) (s : string) : option (string * string) :=
  match span p s with
  | (EmptyString, _) => None
  | (w, t) => Some (w, t)
  end.

(** One literal character of a pattern. *)
Definition lit (c : ascii) (s : string) : option string :=
  match s with
  | String c' r => if Ascii.eqb c c' then Some r else None
  | EmptyString => None
  end.

(** One character of the class [p]. *)
Definition one (p : ascii → bool) (s : string) : option string :=
  match s with
  | String c r => if p c then Some r else None
  | EmptyString => None
  end.

(** The part shared by [PAT_CLASSIC] and [PAT_FD]: from the start of
    the text to the end of the [id] group. *)
Definition match_head (text : string) : option (string * string * string * string) :=
  s ← lit "(" text;
  '(datetime, s) ← word is_stamp s;
  s ← lit ")" s;
  s ← lit " " s;
  '(interface, s) ← word is_alnum s;
  s ← lit " " s;
  '(id, s) ← word is_alnum s;
  Some (datetime, interface, id, s).

(** [re.search(PAT_CLASSIC, text)]: the groups [datetime],
    [interface], [id] and [data]. *)
Definition match_classic (text : string)
    : option (string * string * string * string) :=
  '(datetime, interface, id, s) ← match_head text;
  s ← lit "#" s;
  '(data, _) ← word is_alnum s;
  Some (datetime, interface, id, data).

(** [re.search(PAT_FD, text)]. *)
Definition match_fd (text : string)
    : option (string * string * string * string) :=
  '(datetime, interface, id, s) ← match_head text;
  s ← lit "#" s;
  s ← lit "#" s;
  s ← one is_digit s;
  '(data, _) ← word is_alnum s;
  Some (datetime, interface, id, data).

(** *** [analyze] *)

Section Analyze.

Context {timeinfo : Type} (parse_time : string → outcome timeinfo).

(** The dictionary [signal]: ["text"] always; ["timestamp"], ["dt"],
    ["if"] and ["id"] once a pattern has matched; ["fields"] once the
    identifier is found in the table. *)
Record signal : Type := Signal {
  s_text : string;
  s_head : option (timeinfo * string * Z);
  s_fields : option (list decoded_field)
}.

Definition analyze (text : string) (stbl : gmap Z schema)
    : outcome (bool * signal) :=
  let found :=
    match match_classic text with
    | Some m => Some m
    | None => match_fd text
    end in
  match found with
  | None => Ok (false, Signal text None None)
  | Some (datetime, interface, id, data) =>
      t ← parse_time datetime;
      canid ← int16 id;
      match stbl !! canid with
      | Some entry =>
          bs ← hexstr_to_bytes data;
          fields ← analyze_data bs entry;
          Ok (true, Signal text (Some (t, interface, canid)) (Some fields))
      | None => Ok (false, Signal text (Some (t, interface, canid)) None)
      end
  end.

End Analyze.

Arguments signal : clear implicits.
Arguments Signal {timeinfo}.
Arguments s_text {timeinfo}.
Arguments s_head {timeinfo}.
Arguments s_fields {timeinfo}.

(** *** [find_field] and [find_fields] *)

Fixpoint find_field (name : string) (fields : list decoded_field)
    : option decoded_field :=
  match fields with
  | [] => None
  | f :: rest =>
      if String.eqb name (f_name f) then Some f else find_field name rest
  end.

(** [d[k] = v] on a dictionary, kept as its items in insertion order:
    an existing key keeps its place. *)
Fixpoint dict_set {V : Type} (k : string) (v : V) (d : list (string * V))
    : list (string * V) :=
  match d with
  | [] => [(k, v)]
  | (k', v') :: rest =>
      if String.eqb k k' then (k', v) :: rest else (k', v') :: dict_set k v rest
  end.

(** The loop of [find_fields]; a field dictionary is never empty, so
    [if f:] tests for [None]. *)
Fixpoint find_fields_from (names : list string) (fields : list decoded_field)
    (fs : list (string * decoded_field)) : list (string * decoded_field) :=
  match names with
  | [] => fs
  | name :: rest =>
      match find_field name fields with
      | Some f => find_fields_from rest fields (dict_set name f fs)
      | None => find_fields_from rest fields fs
      end
  end.

Definition find_fields (names : list string) (fields : list decoded_field)
    : list (string * decoded_field) :=
  find_fields_from names fields [].

(** *** The formatters *)

(** The exceptions of the reporting code: those of the decoding code,
    and [TypeError]. *)
Inductive failure : Set :=
  | Core (e : exn)
  | TypeError.

Inductive attempt (A : Type) : Type :=
  | Done (a : A)
  | Fail (e : failure).

Arguments Done {A} a.
Arguments Fail {A} e.

#[global] Instance attempt_ret : MRet attempt := fun A a => Done a.

#[global] Instance attempt_bind : MBind attempt := fun A B f m =>
  match m with
  | Done a => f a
  | Fail e => Fail e
  end.

(** The upper-case digit of [n < 16]. *)
Definition upper_hex_char (n : Z) : ascii :=
  ascii_of_N (Z.to_N (if n <? 10 then 48 + n else 55 + n)).

(** The hexadecimal digits of [n >= 0] in front of [acc]; [fuel + 1]
    digits at most. *)
Fixpoint hex_digits (fuel : nat) (n : Z) (acc : string) : string :=
  let acc' := String (upper_hex_char (n mod 16)) acc in
  match fuel with
  | O => acc'
  | S fuel' => if n <? 16 then acc' else hex_digits fuel' (n / 16) acc'
  end.

(** ['%X' % n]; a number below [2 ^ (k + 1)] has at most [k + 1]
    hexadecimal digits. *)
Definition py_hex_upper (n : Z) : string :=
  if n <? 0 then String "-" (hex_digits (Z.to_nat (Z.log2 (- n))) (- n) EmptyString)
  else hex_digits (Z.to_nat (Z.log2 n)) n EmptyString.

(** ["%s=0x%X" % (item[0], item[1]['bits'])]; [%X] of anything but an
    integer is a [TypeError]. *)
Definition format_name_and_bits (item : string * decoded_field)
    : attempt string :=
  match f_bits (snd item) with
  | PInt n => Done (fst item +:+ "=0x" +:+ py_hex_upper n)
  | _ => Fail TypeError
  end.

Section Render.

Context {timeinfo : Type} (int_max_str_digits : Z)
        (float_repr : float → string)
        (signal_repr : signal timeinfo → attempt string).

(** Whether the decimal text of [v] is refused: [v] is an integer of
    more than [int_max_str_digits] digits, and that limit is positive. *)
Definition int_str_fails (v : pyval) : bool :=
  match v with
  | PInt n => (0 <? int_max_str_digits) && (10 ^ int_max_str_digits <=? Z.abs n)
  | _ => false
  end.

(** [str(v)] inside an f-string; an integer beyond the digit limit is a
    [ValueError]. *)
Definition py_str (v : pyval) : attempt string :=
  if int_str_fails v then Fail (Core ValueError)
  else Done match v with
            | PNone => "None"
            | PInt n => pretty n
            | PFloat f => float_repr f
            end.

(** [f"{item[0]}={item[1]['value']}"] *)
Definition format_name_and_value (item : string * decoded_field)
    : attempt string :=
  value ← py_str (f_value (snd item));
  Done (fst item +:+ "=" +:+ value).

(** [f"{x} ({item['unit']} | {item['desc']})"] *)
Definition verbose_item (x : string) (item : decoded_field) : attempt string :=
  match f_unit item with
  | Some unit => Done (x +:+ " (" +:+ unit +:+ " | " +:+ f_desc item +:+ ")")
  | None => Fail (Core KeyError)
  end.

(** [list(map(f, items))] for an [f] that may raise. *)
Fixpoint try_map {A B : Type} (f : A → attempt B) (l : list A)
    : attempt (list B) :=
  match l with
  | [] => Done []
  | x :: rest => y ← f x; ys ← try_map f rest; Done (y :: ys)
  end.

(** [list(map(f, xs, items))]; it stops with the shorter list. *)
Fixpoint try_map2 {A B C : Type} (f : A → B → attempt C) (l : list A)
    (k : list B) : attempt (list C) :=
  match l, k with
  | x :: l', y :: k' => z ← f x y; zs ← try_map2 f l' k'; Done (z :: zs)
  | _, _ => Done []
  end.

(** [", ".join(items)] *)
Fixpoint join (items : list string) : string :=
  match items with
  | [] => EmptyString
  | [x] => x
  | x :: rest => x +:+ ", " +:+ join rest
  end.

(** The arguments of the command line that the loop uses. *)
Record args : Set := Args {
  a_all : bool;
  a_bits : bool;
  a_verbosity : Z;
  a_fields : list string
}.

(** The body of the loop of [main] after the call of [analyze] (lines
    238-270): the line printed for the result [(res, signal)]. *)
Definition print_line (a : args) (res : bool) (sg : signal timeinfo)
    : attempt string :=
  if negb res then Done (s_text sg)
  else
    fields ← match s_fields sg with
             | Some fields => Done fields
             | None => Fail (Core KeyError)
             end;
    let field_names := if a_all a then map f_name fields else a_fields a in
    let fs := find_fields field_names fields in
    remark_items ← try_map (if a_bits a then format_name_and_bits
                            else format_name_and_value) fs;
    remark_items ← (if 1 <=? a_verbosity a
                    then try_map2 verbose_item remark_items (map snd fs)
                    else Done remark_items);
    if 3 <=? a_verbosity a then signal_repr sg
    else
      let ex := join remark_items in
      if (0 <? String.length ex)%nat
      then Done (s_text sg +:+ " : " +:+ ex)
      else Done (s_text sg).

End Render.

End Report.

Import Report.

(** ** Reference definitions for log lines *)

(** Every character of [s] is in the class [p]. *)
Fixpoint all_chars (p : ascii → bool) (s : string) : bool :=
  match s with
  | EmptyString => true
  | String c r => p c && all_chars p r
  end.

(** [s] is empty or starts outside the class [p]. *)
Definition stops (p : ascii → bool) (s : string) : bool :=
  match s with
  | EmptyString => true
  | String c _ => negb (p c)
  end.

(** A line of the classic format, and one of the FD format with flag
    character [flag]. *)
Definition classic_line (datetime interface id data rest : string) : string :=
  "(" +:+ datetime +:+ ") " +:+ interface +:+ " " +:+ id +:+ "#" +:+ data
  +:+ rest.

Definition fd_line (datetime interface id : string) (flag : ascii)
    (data rest : string) : string :=
  "(" +:+ datetime +:+ ") " +:+ interface +:+ " " +:+ id +:+ "##"
  +:+ String flag (data +:+ rest).

(** The result of [analyze] without the ["text"] entry. *)
Definition without_text {timeinfo : Type}
    (r : outcome (bool * signal timeinfo))
    : outcome (bool * option (timeinfo * string * Z)
               * option (list decoded_field)) :=
  '(res, sg) ← r; Ok (res, s_head sg, s_fields sg).

(** ** Proof automation *)

(** Run the binds of [outcome] once their first computation is known. *)
Tactic Notation "run_bind" := cbn [mbind outcome_bind].
Tactic Notation "run_bind" "in" hyp(H) := cbn [mbind outcome_bind] in H.

(** Write the powers of two around the binary64 mantissa as numerals. *)
Ltac pow_numerals :=
  change (2 ^ 52) with 4503599627370496 in *;
  change (2 ^ 53) with 9007199254740992 in *;
  change (2 ^ 54) with 18014398509481984 in *.

(** ** Worked examples *)

Example split_two_bytes :
  split_bits [xab; xcd] [0; 4; 12] (-1) = Ok [10; 188; 13].
Proof. reflexivity. Qed.

Example hexstr_single_digit : hexstr_to_bytes "F" = Ok [x0f].
Proof. reflexivity. Qed.

Example hexstr_not_hex : hexstr_to_bytes "0g" = Raise ValueError.
Proof. reflexivity. Qed.

Example scaled_value : field_value scaled_field 20 = Ok (PFloat 0).
Proof. vm_compute. reflexivity. Qed.

(** ** Properties of the bit arithmetic *)

Lemma mask_shift_check_all (b : byte) : mask_shift_check b = true.
Proof. destruct b; vm_compute; reflexivity. Qed.

Lemma mask_shift_byte_bits (b : byte) (o n : nat) :
  (o + n <= 8)%nat →
  mask_shift (byte_val b) o n = byte_bits (byte_val b) (Z.of_nat o) n.
Proof.
  intros Hon.
  pose proof (mask_shift_check_all b) as Hc.
  unfold mask_shift_check in Hc.
  rewrite forallb_forall in Hc.
  specialize (Hc o).
  rewrite forallb_forall in Hc.
  assert (Ho : In o (seq 0 9)) by (apply in_seq; lia).
  assert (Hn : In n (seq 0 9)) by (apply in_seq; lia).
  specialize (Hc Ho n Hn).
  destruct (Nat.leb_spec (o + n) 8) as [_|]; [|lia].
  by apply Z.eqb_eq.
Qed.

Lemma bit_at_in_byte (bs : list byte) (q : nat) (b : byte) (r : Z) :
  bs !! q = Some b → 0 <= r < 8 →
  bit_at bs (8 * Z.of_nat q + r) = Z.b2z (Z.testbit (byte_val b) (7 - r)).
Proof.
  intros Hb Hr. unfold bit_at.
  assert (Hq : (8 * Z.of_nat q + r) / 8 = Z.of_nat q)
    by (symmetry; apply (Z.div_unique _ 8 _ r); lia).
  assert (Hm : (8 * Z.of_nat q + r) mod 8 = r)
    by (symmetry; apply (Z.mod_unique _ 8 (Z.of_nat q) r); lia).
  rewrite Hq, Hm, Nat2Z.id, Hb. reflexivity.
Qed.

Lemma msb_first_in_byte (bs : list byte) (q : nat) (b : byte) (o : Z) (n : nat) :
  bs !! q = Some b → 0 <= o → o + Z.of_nat n <= 8 →
  msb_first bs (8 * Z.of_nat q + o) n = byte_bits (byte_val b) o n.
Proof.
  intros Hb Ho. induction n as [|n IH]; intros Hn; [reflexivity|].
  cbn [msb_first byte_bits].
  rewrite IH by lia.
  rewrite <- Z.add_assoc, (bit_at_in_byte bs q b) by (done || lia).
  reflexivity.
Qed.

Lemma msb_first_app (bs : list byte) (a : Z) (n m : nat) :
  msb_first bs a (n + m) =
  msb_first bs a n * 2 ^ Z.of_nat m + msb_first bs (a + Z.of_nat n) m.
Proof.
  induction m as [|m IH].
  - rewrite Nat.add_0_r. cbn. lia.
  - rewrite Nat.add_succ_r. cbn [msb_first]. rewrite IH.
    rewrite Nat2Z.inj_succ, Z.pow_succ_r by lia.
    rewrite Nat2Z.inj_add. replace (a + Z.of_nat n + Z.of_nat m)
      with (a + (Z.of_nat n + Z.of_nat m)) by lia. ring.
Qed.

Lemma range_value_split (bs : list byte) (a b c : Z) :
  a <= b <= c →
  range_value bs a c = range_value bs a b * 2 ^ (c - b) + range_value bs b c.
Proof.
  intros H. unfold range_value.
  replace (Z.to_nat (c - a)) with (Z.to_nat (b - a) + Z.to_nat (c - b))%nat by lia.
  rewrite msb_first_app. rewrite !Z2Nat.id by lia.
  replace (a + (b - a)) with b by lia. reflexivity.
Qed.

Lemma range_value_empty (bs : list byte) (a : Z) : range_value bs a a = 0.
Proof. unfold range_value. by rewrite Z.sub_diag. Qed.

(** ** The inner loop *)

Lemma py_getitem_in {A : Type} (l : list A) (i : Z) (x : A) :
  0 <= i → l !! Z.to_nat i = Some x → py_getitem l i = Ok x.
Proof.
  intros Hi Hx. unfold py_getitem.
  apply lookup_lt_Some in Hx as Hlt.
  destruct (Z.ltb_spec i 0); [lia|].
  destruct (Z.ltb_spec i 0); [lia|].
  destruct (Z.leb_spec (Z.of_nat (length l)) i); [lia|].
  cbn. by rewrite Hx.
Qed.

Lemma py_getitem_past {A : Type} (l : list A) (i : Z) :
  Z.of_nat (length l) <= i → py_getitem l i = Raise IndexError.
Proof.
  intros Hi. unfold py_getitem.
  destruct (Z.ltb_spec i 0); [lia|].
  destruct (Z.ltb_spec i 0); [lia|].
  destruct (Z.leb_spec (Z.of_nat (length l)) i); [|lia].
  reflexivity.
Qed.

Lemma py_getitem_total {A : Type} (l : list A) (i : Z) :
  (∃ x, py_getitem l i = Ok x) ∨ py_getitem l i = Raise IndexError.
Proof.
  unfold py_getitem.
  destruct (_ || _); [by right|].
  destruct (l !! _); eauto.
Qed.

Lemma step_target_bounds (p next_pos : Z) :
  p < next_pos →
  p < step_target p next_pos <= next_pos ∧
  step_target p next_pos <= 8 * (p / 8 + 1) ∧
  8 * (p / 8) <= p.
Proof.
  intros H. unfold step_target.
  pose proof (Z.div_mod p 8 ltac:(lia)).
  pose proof (Z.mod_pos_bound p 8 ltac:(lia)). lia.
Qed.

Lemma step_target_div (p next_pos : Z) :
  p < next_pos →
  step_target p next_pos / 8 =
    if 8 * (p / 8 + 1) <=? step_target p next_pos then p / 8 + 1 else p / 8.
Proof.
  intros H. pose proof (step_target_bounds p next_pos H) as (? & ? & ?).
  destruct (Z.leb_spec (8 * (p / 8 + 1)) (step_target p next_pos)).
  - replace (step_target p next_pos) with ((p / 8 + 1) * 8) by lia.
    apply Z.div_mul; lia.
  - symmetry. apply (Z.div_unique _ 8 _ (step_target p next_pos - 8 * (p / 8))); lia.
Qed.

(** What one round computes whenever the byte can be read. *)
Lemma byte_step_read (bs : list byte) (next_pos p acc : Z) (b : byte) :
  p < next_pos →
  py_getitem bs (p / 8) = Ok b →
  byte_step bs (Cursor p (next_pos - p) (p / 8) acc) =
    let p' := step_target p next_pos in
    Ok (Cursor p' (next_pos - p') (p' / 8)
          (acc * 2 ^ (p' - p)
           + mask_shift (byte_val b) (Z.to_nat (p mod 8)) (Z.to_nat (p' - p)))).
Proof.
  intros Hlt Hb.
  pose proof (step_target_bounds p next_pos Hlt) as (Hp' & Hmax & Hq).
  pose proof (Z.div_mod p 8 ltac:(lia)) as Hdm.
  pose proof (Z.mod_pos_bound p 8 ltac:(lia)) as Hmod.
  unfold byte_step. cbn [b_index pos rem_len bits]. rewrite Hb. run_bind.
  rewrite Z.shiftl_mul_pow2 by lia.
  change (2 ^ 3) with 8.
  replace (p + (next_pos - p)) with next_pos by lia.
  replace (Z.min next_pos ((p / 8 + 1) * 8)) with (step_target p next_pos)
    by (unfold step_target; f_equal; lia).
  unfold py_lshift.
  destruct (Z.ltb_spec (step_target p next_pos - p) 0); [lia|].
  run_bind.
  rewrite Z.shiftl_mul_pow2 by lia.
  replace (p + (step_target p next_pos - p)) with (step_target p next_pos) by lia.
  replace ((p / 8 + 1) * 8) with (8 * (p / 8 + 1)) by lia.
  rewrite <- (step_target_div p next_pos Hlt).
  cbv zeta. unfold mask_shift.
  rewrite !Z2Nat.id by lia.
  f_equal. f_equal; [lia|]. do 2 f_equal. lia.
Qed.

Lemma mask_shift_range (bs : list byte) (p p' : Z) (b : byte) :
  0 <= p → p <= p' <= 8 * (p / 8 + 1) →
  bs !! Z.to_nat (p / 8) = Some b →
  mask_shift (byte_val b) (Z.to_nat (p mod 8)) (Z.to_nat (p' - p)) =
  range_value bs p p'.
Proof.
  intros Hp Hp' Hb.
  pose proof (Z.div_mod p 8 ltac:(lia)) as Hdm.
  pose proof (Z.mod_pos_bound p 8 ltac:(lia)) as Hmod.
  assert (0 <= p / 8) by (apply Z.div_pos; lia).
  rewrite mask_shift_byte_bits by lia.
  unfold range_value.
  rewrite Z2Nat.id by lia.
  rewrite <- (msb_first_in_byte bs (Z.to_nat (p / 8)) b) by (done || lia).
  rewrite Z2Nat.id by lia. f_equal. lia.
Qed.

Lemma inner_loop_done (fuel : nat) (bs : list byte) (next_pos : Z) (c : cursor) :
  next_pos <= pos c → inner_loop fuel bs next_pos c = Ok c.
Proof.
  intros H. destruct fuel; cbn; by destruct (Z.ltb_spec (pos c) next_pos); try lia.
Qed.

Lemma inner_loop_step (fuel : nat) (bs : list byte) (next_pos : Z) (c : cursor) :
  pos c < next_pos →
  inner_loop (S fuel) bs next_pos c =
    c' ← byte_step bs c; inner_loop fuel bs next_pos c'.
Proof.
  intros H. cbn. by destruct (Z.ltb_spec (pos c) next_pos); try lia.
Qed.

Lemma lookup_byte (bs : list byte) (p : Z) :
  0 <= p < 8 * Z.of_nat (length bs) →
  ∃ b, bs !! Z.to_nat (p / 8) = Some b ∧ py_getitem bs (p / 8) = Ok b.
Proof.
  intros Hp.
  assert (0 <= p / 8 < Z.of_nat (length bs))
    by (split; [apply Z.div_pos | apply Z.div_lt_upper_bound]; lia).
  destruct (lookup_lt_is_Some_2 bs (Z.to_nat (p / 8))) as [b Hb]; [lia|].
  exists b. split; [done|]. apply py_getitem_in; [lia|done].
Qed.

(** Inside the buffer the inner loop reads exactly the bits of the
    range and appends them to the accumulator. *)
Lemma inner_loop_value (fuel : nat) (bs : list byte) (next_pos p acc : Z) :
  (Z.to_nat (next_pos - p) <= fuel)%nat →
  0 <= p <= next_pos → next_pos <= 8 * Z.of_nat (length bs) →
  inner_loop fuel bs next_pos (Cursor p (next_pos - p) (p / 8) acc) =
    Ok (Cursor next_pos 0 (next_pos / 8)
          (acc * 2 ^ (next_pos - p) + range_value bs p next_pos)).
Proof.
  revert p acc. induction fuel as [|fuel IH]; intros p acc Hfuel Hp Hlen.
  - assert (p = next_pos) as -> by lia.
    rewrite inner_loop_done by (cbn; lia).
    rewrite Z.sub_diag, range_value_empty. f_equal. f_equal. cbn. lia.
  - destruct (Z.eq_dec p next_pos) as [->|Hne].
    + rewrite inner_loop_done by (cbn; lia).
      rewrite Z.sub_diag, range_value_empty. f_equal. f_equal. cbn. lia.
    + assert (Hlt : p < next_pos) by lia.
      rewrite inner_loop_step by (cbn; lia).
      destruct (lookup_byte bs p) as (b & Hb & Hget); [lia|].
      rewrite (byte_step_read bs next_pos p acc b Hlt Hget).
      cbv zeta. run_bind.
      pose proof (step_target_bounds p next_pos Hlt) as (Hp' & Hmax & Hq).
      rewrite IH by lia.
      rewrite (mask_shift_range bs p _ b) by (done || lia).
      f_equal. f_equal.
      rewrite (range_value_split bs p (step_target p next_pos) next_pos) by lia.
      rewrite Z.mul_add_distr_r, <- Z.mul_assoc, <- Z.pow_add_r by lia.
      replace (step_target p next_pos - p + (next_pos - step_target p next_pos))
        with (next_pos - p) by lia.
      ring.
Qed.

(** A chunk that extends past the buffer makes the inner loop raise
    [IndexError]. *)
Lemma inner_loop_past (fuel : nat) (bs : list byte) (next_pos p acc : Z) :
  (Z.to_nat (next_pos - p) <= fuel)%nat →
  0 <= p < next_pos → 8 * Z.of_nat (length bs) < next_pos →
  inner_loop fuel bs next_pos (Cursor p (next_pos - p) (p / 8) acc) =
    Raise IndexError.
Proof.
  revert p acc. induction fuel as [|fuel IH]; intros p acc Hfuel Hp Hlen; [lia|].
  rewrite inner_loop_step by (cbn; lia).
  destruct (Z.lt_ge_cases p (8 * Z.of_nat (length bs))) as [Hin|Hout].
  - destruct (lookup_byte bs p) as (b & Hb & Hget); [lia|].
    rewrite (byte_step_read bs next_pos p acc b) by (lia || done).
    cbv zeta. run_bind.
    pose proof (step_target_bounds p next_pos ltac:(lia)) as (Hp' & Hmax & Hq).
    assert (p / 8 < Z.of_nat (length bs)) by (apply Z.div_lt_upper_bound; lia).
    apply IH; lia.
  - unfold byte_step. cbn [b_index].
    rewrite py_getitem_past; [reflexivity|].
    apply Z.div_le_lower_bound; lia.
Qed.

(** For any cursor position, negative ones included, the inner loop
    stops within its budget: it either reaches [next_pos] or raises
    [IndexError]. *)
Lemma inner_loop_total (fuel : nat) (bs : list byte) (next_pos p acc : Z) :
  (Z.to_nat (next_pos - p) <= fuel)%nat →
  (∃ acc', inner_loop fuel bs next_pos (Cursor p (next_pos - p) (p / 8) acc) =
     Ok (Cursor (Z.max p next_pos) (next_pos - Z.max p next_pos)
           (Z.max p next_pos / 8) acc'))
  ∨ inner_loop fuel bs next_pos (Cursor p (next_pos - p) (p / 8) acc) =
      Raise IndexError.
Proof.
  revert p acc. induction fuel as [|fuel IH]; intros p acc Hfuel.
  - left. exists acc. rewrite inner_loop_done by (cbn; lia).
    by rewrite Z.max_l by lia.
  - destruct (Z.le_gt_cases next_pos p) as [Hge|Hlt].
    + left. exists acc. rewrite inner_loop_done by (cbn; lia).
      by rewrite Z.max_l by lia.
    + rewrite inner_loop_step by (cbn; lia).
      destruct (py_getitem_total bs (p / 8)) as [[b Hget]|Herr].
      * rewrite (byte_step_read bs next_pos p acc b Hlt Hget).
        cbv zeta. run_bind.
        pose proof (step_target_bounds p next_pos Hlt) as (Hp' & Hmax & Hq).
        destruct (IH (step_target p next_pos)
                    (acc * 2 ^ (step_target p next_pos - p)
                     + mask_shift (byte_val b) (Z.to_nat (p mod 8))
                         (Z.to_nat (step_target p next_pos - p))))
          as [[acc' Hok]|Hraise]; [lia| |by right].
        left. exists acc'. rewrite Hok.
        by rewrite !Z.max_r by lia.
      * right. unfold byte_step. cbn [b_index]. by rewrite Herr.
Qed.

(** ** The outer loop *)

Lemma drop_cons_inv {A : Type} (l r : list A) (x : A) (k : nat) :
  drop k l = x :: r → drop (S k) l = r.
Proof.
  intros H. replace (S k) with (k + 1)%nat by lia.
  by rewrite <- drop_drop, H.
Qed.

Lemma next_boundary_drop (ss : list Z) (k : nat) (end_pos : Z) :
  next_boundary ss k end_pos = Z.min end_pos (hd end_pos (drop (S k) ss)).
Proof.
  unfold next_boundary.
  replace (ss !! S k) with (drop (S k) ss !! 0%nat)
    by (by rewrite lookup_drop, Nat.add_0_r).
  destruct (drop (S k) ss); cbn; [lia|done].
Qed.

Lemma outer_loop_done (fuel : nat) (bs : list byte) (ss : list Z)
    (end_pos p q : Z) (k : nat) (next_pos : Z) (acc : list Z) :
  end_pos <= p → outer_loop fuel bs ss end_pos p q k next_pos acc = Ok acc.
Proof.
  intros H. destruct fuel; cbn; by destruct (Z.ltb_spec p end_pos); try lia.
Qed.

Lemma outer_loop_step (fuel : nat) (bs : list byte) (ss : list Z)
    (end_pos p q : Z) (k : nat) (next_pos : Z) (acc : list Z) :
  p < end_pos →
  outer_loop (S fuel) bs ss end_pos p q k next_pos acc =
    c ← inner_loop (Z.to_nat (next_pos - p)) bs next_pos
          (Cursor p (next_pos - p) q 0);
    outer_loop fuel bs ss end_pos (pos c) (b_index c) (S k)
      (next_boundary ss (S k) end_pos) (acc ++ [bits c]).
Proof.
  intros H. cbn. by destruct (Z.ltb_spec p end_pos); try lia.
Qed.

(** Ascending offsets inside the buffer: the loop appends one range
    value per remaining offset below [end_pos]. *)
Lemma outer_loop_chunks (bs : list byte) (ss : list Z) (end_pos : Z) :
  end_pos <= 8 * Z.of_nat (length bs) →
  ∀ (rest : list Z) (s : Z) (k fuel : nat) (p : Z) (acc : list Z),
    drop k ss = s :: rest →
    Sorted Z.le (s :: rest) →
    0 <= p → p = s ∨ (end_pos <= p ∧ end_pos <= s) →
    (length (s :: rest) <= fuel)%nat →
    outer_loop fuel bs ss end_pos p (p / 8) k (next_boundary ss k end_pos) acc =
      Ok (acc ++ chunk_values bs (s :: rest) end_pos).
Proof.
  intros Hend. induction rest as [|r rest IH];
    intros s k fuel p acc Hdrop Hsorted Hp Hps Hfuel;
    (destruct (Z.le_gt_cases end_pos p) as [Hge|Hlt];
     [ rewrite outer_loop_done by done; cbn [chunk_values];
       destruct (Z.ltb_spec s end_pos); [lia|]; by rewrite app_nil_r | ]);
    (destruct Hps as [->|]; [|lia]);
    (destruct fuel as [|fuel]; [cbn in Hfuel; lia|]);
    rewrite outer_loop_step by done;
    rewrite (next_boundary_drop ss k), (drop_cons_inv _ _ _ _ Hdrop);
    cbn [hd chunk_values]; (destruct (Z.ltb_spec s end_pos); [|lia]).
  - rewrite Z.min_id, inner_loop_value by lia.
    cbn [mbind outcome_bind pos b_index bits].
    rewrite outer_loop_done by lia.
    by rewrite Z.mul_0_l, Z.add_0_l.
  - apply Sorted_inv in Hsorted as [Hsorted Hhd].
    apply HdRel_inv in Hhd.
    rewrite inner_loop_value by lia.
    cbn [mbind outcome_bind pos b_index bits].
    rewrite Z.mul_0_l, Z.add_0_l.
    rewrite (IH r (S k) fuel); [by rewrite <- app_assoc | | done | lia | lia | cbn in *; lia].
    by apply (drop_cons_inv _ _ s).
Qed.

Lemma split_bits_chunks (bs : list byte) (ss : list Z) (end_ : Z) :
  let end_pos := if end_ <? 0 then 8 * Z.of_nat (length bs) else end_ in
  ss ≠ [] → Sorted Z.le ss → 0 <= hd 0 ss →
  end_pos <= 8 * Z.of_nat (length bs) →
  split_bits bs ss end_ = Ok (chunk_values bs ss end_pos).
Proof.
  intros end_pos Hne Hsorted Hhd Hend.
  destruct ss as [|s rest]; [done|]. cbn [hd] in Hhd.
  unfold split_bits.
  rewrite (py_getitem_in (s :: rest) 0 s) by (lia || done).
  run_bind.
  rewrite Z.shiftl_mul_pow2, Z.shiftr_div_pow2 by lia.
  change (2 ^ 3) with 8.
  replace (Z.of_nat (length bs) * 8) with (8 * Z.of_nat (length bs)) by lia.
  fold end_pos.
  by rewrite (outer_loop_chunks bs (s :: rest) end_pos Hend rest s 0)
    by (done || lia || (left; done) || (cbn; lia)).
Qed.

Lemma next_boundary_le (ss : list Z) (k : nat) (end_pos : Z) :
  next_boundary ss k end_pos <= end_pos.
Proof. unfold next_boundary. destruct (ss !! S k); lia. Qed.

Lemma next_boundary_last (ss : list Z) (k : nat) (end_pos : Z) :
  (length ss <= S k)%nat → next_boundary ss k end_pos = end_pos.
Proof.
  intros H. unfold next_boundary. by rewrite lookup_ge_None_2.
Qed.

(** With one round per remaining offset the outer loop stops, for any
    offsets: it returns a list or raises [IndexError]. *)
Lemma outer_loop_total (bs : list byte) (ss : list Z) (end_pos : Z) :
  ∀ (fuel k : nat) (p : Z) (acc : list Z),
    (1 + (length ss - S k) <= fuel)%nat →
    (∃ l, outer_loop fuel bs ss end_pos p (p / 8) k
            (next_boundary ss k end_pos) acc = Ok l)
    ∨ outer_loop fuel bs ss end_pos p (p / 8) k
        (next_boundary ss k end_pos) acc = Raise IndexError.
Proof.
  induction fuel as [|fuel IH]; intros k p acc Hfuel; [lia|].
  destruct (Z.le_gt_cases end_pos p) as [Hge|Hlt].
  { left. exists acc. by apply outer_loop_done. }
  rewrite outer_loop_step by done.
  pose proof (next_boundary_le ss k end_pos) as Hnb.
  destruct (inner_loop_total (Z.to_nat (next_boundary ss k end_pos - p)) bs
              (next_boundary ss k end_pos) p 0) as [[b Hok]|Hraise];
    [lia| |right; by rewrite Hraise].
  rewrite Hok. cbn [mbind outcome_bind pos b_index bits].
  destruct (Nat.le_gt_cases (length ss) (S k)) as [Hlast|Hmore].
  - left. eexists. apply outer_loop_done.
    rewrite (next_boundary_last ss k) by done. lia.
  - apply IH. lia.
Qed.

(** An end position past the buffer with at least one bit to read
    before it: the walk towards [end_pos] raises [IndexError]. *)
Lemma outer_loop_past (bs : list byte) (ss : list Z) (end_pos : Z) :
  8 * Z.of_nat (length bs) < end_pos →
  ∀ (fuel k : nat) (p : Z) (acc : list Z),
    (1 + (length ss - S k) <= fuel)%nat →
    0 <= p < end_pos →
    outer_loop fuel bs ss end_pos p (p / 8) k
      (next_boundary ss k end_pos) acc = Raise IndexError.
Proof.
  intros Hend. induction fuel as [|fuel IH]; intros k p acc Hfuel Hp; [lia|].
  rewrite outer_loop_step by lia.
  pose proof (next_boundary_le ss k end_pos) as Hnb.
  destruct (Nat.le_gt_cases (length ss) (S k)) as [Hlast|Hmore].
  - rewrite (next_boundary_last ss k) by done.
    by rewrite inner_loop_past by lia.
  - destruct (inner_loop_total (Z.to_nat (next_boundary ss k end_pos - p)) bs
                (next_boundary ss k end_pos) p 0) as [[b Hok]|Hraise];
      [lia| |by rewrite Hraise].
    destruct (Z.le_gt_cases end_pos (next_boundary ss k end_pos)) as [Hfull|Hpart].
    + assert (Hnb' : next_boundary ss k end_pos = end_pos) by lia.
      rewrite Hnb'. by rewrite inner_loop_past by lia.
    + rewrite Hok. cbn [mbind outcome_bind pos b_index bits].
      apply IH; lia.
Qed.

Lemma split_bits_unfold (bs : list byte) (s : Z) (rest : list Z) (end_ : Z) :
  split_bits bs (s :: rest) end_ =
    let end_pos := if end_ <? 0 then 8 * Z.of_nat (length bs) else end_ in
    outer_loop (S (length (s :: rest))) bs (s :: rest) end_pos s (s / 8) 0
      (next_boundary (s :: rest) 0 end_pos) [].
Proof.
  unfold split_bits.
  rewrite (py_getitem_in (s :: rest) 0 s) by (lia || done).
  run_bind.
  rewrite Z.shiftl_mul_pow2, Z.shiftr_div_pow2 by lia.
  change (2 ^ 3) with 8.
  by replace (Z.of_nat (length bs) * 8) with (8 * Z.of_nat (length bs)) by lia.
Qed.

Lemma split_bits_empty (bs : list byte) (end_ : Z) :
  split_bits bs [] end_ = Raise IndexError.
Proof. reflexivity. Qed.

(** [split_bits] always stops: it returns a list or raises
    [IndexError]. *)
Lemma split_bits_terminates (bs : list byte) (ss : list Z) (end_ : Z) :
  (∃ l, split_bits bs ss end_ = Ok l) ∨ split_bits bs ss end_ = Raise IndexError.
Proof.
  destruct ss as [|s rest]; [right; apply split_bits_empty|].
  rewrite split_bits_unfold. cbv zeta.
  apply outer_loop_total. cbn. lia.
Qed.

Lemma split_bits_past (bs : list byte) (ss : list Z) (end_ : Z) :
  8 * Z.of_nat (length bs) < end_ → 0 <= hd (-1) ss < end_ →
  split_bits bs ss end_ = Raise IndexError.
Proof.
  intros Hend Hhd. destruct ss as [|s rest]; [done|].
  cbn [hd] in Hhd.
  rewrite split_bits_unfold. cbv zeta.
  destruct (Z.ltb_spec end_ 0); [lia|].
  apply outer_loop_past; cbn; lia.
Qed.

(** ** [extract_bits] *)

Lemma extract_bits_value (bs : list byte) (s l : Z) :
  0 <= s → 0 < l → s + l <= 8 * Z.of_nat (length bs) →
  split_bits bs [s] (s + l) = Ok [range_value bs s (s + l)] ∧
  extract_bits bs s l = Ok (Some (range_value bs s (s + l))).
Proof.
  intros Hs Hl Hlen.
  assert (Hsplit : split_bits bs [s] (s + l) = Ok [range_value bs s (s + l)]).
  { rewrite split_bits_chunks.
    - destruct (Z.ltb_spec (s + l) 0); [lia|]. cbn [chunk_values hd].
      destruct (Z.ltb_spec s (s + l)); [|lia]. by rewrite Z.min_id.
    - done.
    - repeat constructor.
    - done.
    - destruct (Z.ltb_spec (s + l) 0); lia. }
  split; [done|]. unfold extract_bits. by rewrite Hsplit.
Qed.

Lemma extract_bits_past (bs : list byte) (s l : Z) :
  0 <= s → 0 < l → 8 * Z.of_nat (length bs) < s + l →
  split_bits bs [s] (s + l) = Raise IndexError ∧
  extract_bits bs s l = Raise IndexError.
Proof.
  intros Hs Hl Hlen.
  assert (Hsplit : split_bits bs [s] (s + l) = Raise IndexError)
    by (apply split_bits_past; cbn; lia).
  split; [done|]. unfold extract_bits. by rewrite Hsplit.
Qed.

Lemma extract_bits_zero_length (bs : list byte) (s : Z) :
  0 <= s → extract_bits bs s 0 = Ok None.
Proof.
  intros Hs. unfold extract_bits. rewrite split_bits_unfold. cbv zeta.
  rewrite Z.add_0_r. destruct (Z.ltb_spec s 0); [lia|].
  by rewrite outer_loop_done by lia.
Qed.

(** ** The expected chunks *)

Lemma filter_below_nil (l : list Z) (bound : Z) :
  Forall (λ x, bound <= x) l → filter (λ s, s < bound) l = [].
Proof.
  induction 1 as [|x l Hx _ IH]; [done|].
  rewrite filter_cons_False by lia. exact IH.
Qed.

Lemma chunk_values_length (bs : list byte) (ss : list Z) (end_pos : Z) :
  Sorted Z.le ss →
  length (chunk_values bs ss end_pos) =
  length (filter (λ s, s < end_pos) ss).
Proof.
  intros Hsorted. apply Sorted_StronglySorted in Hsorted; [|intros ???; lia].
  induction Hsorted as [|s rest Hrest IH Hall]; [done|].
  cbn [chunk_values]. destruct (Z.ltb_spec s end_pos).
  - rewrite filter_cons_True by done. cbn. by rewrite IH.
  - rewrite filter_cons_False by lia.
    rewrite filter_below_nil; [done|].
    eapply Forall_impl; [exact Hall|]. cbn. lia.
Qed.

Lemma chunk_values_length_le (bs : list byte) (ss : list Z) (end_pos : Z) :
  (length (chunk_values bs ss end_pos) <= length ss)%nat.
Proof.
  induction ss as [|s rest IH]; [done|].
  cbn [chunk_values]. destruct (s <? end_pos); cbn; lia.
Qed.

(** The [k]-th value is the range from the [k]-th offset to the next
    boundary. *)
Lemma chunk_values_lookup (bs : list byte) (ss : list Z) (end_pos : Z)
    (k : nat) (v : Z) :
  chunk_values bs ss end_pos !! k = Some v →
  ∃ start, ss !! k = Some start ∧ start < end_pos ∧
    v = range_value bs start (Z.min end_pos (default end_pos (ss !! S k))).
Proof.
  revert k. induction ss as [|s rest IH]; intros k Hk; [done|].
  cbn [chunk_values] in Hk. destruct (Z.ltb_spec s end_pos); [|done].
  destruct k as [|k].
  - injection Hk as <-. exists s. split; [done|]. split; [done|].
    by destruct rest.
  - cbn in Hk. apply IH in Hk as (start & ? & ? & ?). by exists start.
Qed.

Lemma chunk_values_lookup_lt (bs : list byte) (ss : list Z) (end_pos : Z)
    (k : nat) (start : Z) :
  Sorted Z.le ss → ss !! k = Some start → start < end_pos →
  chunk_values bs ss end_pos !! k =
    Some (range_value bs start (Z.min end_pos (default end_pos (ss !! S k)))).
Proof.
  intros Hsorted. apply Sorted_StronglySorted in Hsorted; [|intros ???; lia].
  revert k. induction Hsorted as [|s rest Hrest IH Hall]; intros k Hk Hlt; [done|].
  cbn [chunk_values]. destruct k as [|k].
  - injection Hk as ->. destruct (Z.ltb_spec start end_pos); [|lia].
    by destruct rest.
  - cbn in Hk. apply list_elem_of_lookup_2 in Hk as Hin.
    rewrite Forall_forall in Hall. specialize (Hall _ Hin).
    destruct (Z.ltb_spec s end_pos); [|lia].
    cbn. by apply IH.
Qed.

(** With every offset at most [end_pos], the boundary after the [k]-th
    offset is the next offset, or [end_pos] after the last one. *)
Lemma chunk_values_lookup_bounded (bs : list byte) (ss : list Z) (end_pos : Z)
    (k : nat) (v : Z) :
  Forall (λ s, 0 <= s <= end_pos) ss →
  chunk_values bs ss end_pos !! k = Some v →
  ∃ start, ss !! k = Some start ∧
    v = range_value bs start (default end_pos (ss !! S k)).
Proof.
  intros Hall Hk.
  apply chunk_values_lookup in Hk as (start & Hstart & _ & ->).
  exists start. split; [done|]. f_equal.
  destruct (ss !! S k) as [x|] eqn:Hx; cbn; [|lia].
  apply list_elem_of_lookup_2 in Hx.
  rewrite Forall_forall in Hall. specialize (Hall _ Hx). lia.
Qed.

(** ** Hexadecimal strings *)

Lemma hex_pair_check_all_true : hex_pair_check_all = true.
Proof. vm_compute. reflexivity. Qed.

Lemma in_all_ascii (a : ascii) : In a all_ascii.
Proof.
  rewrite <- (ascii_nat_embedding a). apply in_map, in_seq.
  pose proof (nat_ascii_bounded a). lia.
Qed.

Lemma hex_pair_checked (a b : ascii) :
  is_Some (digit_value a) → hex_pair_check a b = true.
Proof.
  intros [x Ha].
  pose proof hex_pair_check_all_true as Hc.
  unfold hex_pair_check_all in Hc.
  pose proof (proj1 (forallb_forall _ _) Hc a (in_all_ascii a)) as Hrow.
  cbv beta in Hrow. rewrite Ha in Hrow.
  exact (proj1 (forallb_forall _ _) Hrow b (in_all_ascii b)).
Qed.

Lemma hex_pair (a b : ascii) (x y : Z) :
  digit_value a = Some x → digit_value b = Some y →
  ∃ byte, pair_byte a b = Some byte ∧
    int16 (String a (String b EmptyString)) = Ok (byte_val byte) ∧
    byte_val byte = 16 * x + y ∧
    hex_encode [byte] = String (lower_char a) (String (lower_char b) EmptyString).
Proof.
  intros Ha Hb.
  pose proof (hex_pair_checked a b ltac:(by eexists)) as Hc.
  unfold hex_pair_check in Hc. rewrite Ha, Hb in Hc.
  destruct (int16 _) as [v| |]; [|done..].
  destruct (pair_byte a b) as [byte|]; [|done].
  apply andb_prop in Hc as [Hc Henc]. apply andb_prop in Hc as [Hc _].
  apply andb_prop in Hc as [Hc _]. apply andb_prop in Hc as [Hv Hbyte].
  apply Z.eqb_eq in Hv, Hbyte. apply String.eqb_eq in Henc.
  exists byte. repeat split; congruence.
Qed.

Lemma byte_val_range (b : byte) : 0 <= byte_val b < 256.
Proof.
  unfold byte_val. pose proof (Byte.to_N_bounded b). lia.
Qed.

Lemma py_bytes_byte_val (l : list byte) : py_bytes (map byte_val l) = Ok l.
Proof.
  induction l as [|b l IH]; [done|].
  cbn [map py_bytes]. pose proof (byte_val_range b).
  destruct (Z.leb_spec 0 (byte_val b)); [|lia].
  destruct (Z.ltb_spec (byte_val b) 256); [|lia].
  cbn [andb]. unfold byte_val at 1. rewrite N2Z.id, Byte.of_to_N.
  by rewrite IH.
Qed.

Lemma parity_test (n : nat) : Nat.eqb (n mod 2) 0 = Nat.even n.
Proof.
  destruct (Nat.Even_or_Odd n) as [[k ->]|[k ->]].
  - rewrite Nat.mul_comm, Nat.Div0.mod_mul, Nat.even_mul.
    cbn. by rewrite orb_true_r.
  - rewrite Nat.add_comm, Nat.mul_comm, Nat.Div0.mod_add.
    rewrite Nat.even_add, Nat.even_mul. cbn. by rewrite orb_true_r.
Qed.

Lemma hexstr_to_bytes_pad (s : string) :
  hexstr_to_bytes s =
    int_array ← parse_slices (slices (pad_even s)) []; py_bytes int_array.
Proof. unfold hexstr_to_bytes, pad_even. by rewrite parity_test. Qed.

(** Decoding an even-length hexadecimal string, slice by slice. *)
Lemma parse_slices_hex (n : nat) :
  ∀ (s : string) (acc : list Z),
    String.length s = (2 * n)%nat → all_hex s = true →
    parse_slices (slices s) acc = Ok (acc ++ map byte_val (hex_bytes s)) ∧
    hex_encode (hex_bytes s) = lower s ∧
    length (hex_bytes s) = n.
Proof.
  induction n as [|n IH]; intros s acc Hlen Hhex.
  - destruct s; [|done]. cbn. by rewrite app_nil_r.
  - destruct s as [|a [|b r]]; [done|cbn in Hlen; lia|].
    cbn [all_hex] in Hhex.
    destruct (digit_value a) as [x|] eqn:Ha; [|done].
    destruct (digit_value b) as [y|] eqn:Hb; [|done].
    destruct (hex_pair a b x y Ha Hb) as (byte & Hpair & Hint & _ & Henc).
    destruct (IH r (acc ++ [byte_val byte])) as (Hparse & Hencr & Hlenr);
      [cbn in Hlen; lia|done|].
    cbn [slices parse_slices hex_bytes]. rewrite Hint, Hpair.
    run_bind. rewrite Hparse.
    split; [by rewrite <- app_assoc|].
    split; [|cbn; by rewrite Hlenr].
    cbn [hex_encode lower]. cbn [hex_encode] in Henc.
    injection Henc as -> ->. by rewrite Hencr.
Qed.

Lemma pad_even_length (s : string) :
  ∃ n, String.length (pad_even s) = (2 * n)%nat.
Proof.
  unfold pad_even. destruct (Nat.even (String.length s)) eqn:E.
  - apply Nat.even_spec in E as [k Hk]. by exists k.
  - assert (Ho : Nat.odd (String.length s) = true)
      by (by rewrite <- Nat.negb_even, E).
    apply Nat.odd_spec in Ho as [k Hk]. exists (S k). cbn [String.length]. lia.
Qed.

Lemma pad_even_hex (s : string) : all_hex s = true → all_hex (pad_even s) = true.
Proof. unfold pad_even. by destruct (Nat.even _). Qed.

Lemma hexstr_to_bytes_hex (s : string) :
  all_hex s = true →
  hexstr_to_bytes s = Ok (hex_bytes (pad_even s)) ∧
  hex_encode (hex_bytes (pad_even s)) = lower (pad_even s).
Proof.
  intros Hhex. destruct (pad_even_length s) as [n Hn].
  destruct (parse_slices_hex n (pad_even s) [] Hn (pad_even_hex s Hhex))
    as (Hparse & Henc & _).
  split; [|done].
  rewrite hexstr_to_bytes_pad, Hparse. cbn [mbind outcome_bind app].
  apply py_bytes_byte_val.
Qed.

Lemma pad_even_odd (s : string) :
  Nat.odd (String.length s) = true →
  pad_even s = String "0" s ∧ pad_even (String "0" s) = String "0" s.
Proof.
  intros Ho. unfold pad_even. cbn [String.length].
  rewrite Nat.even_succ, Ho. rewrite <- Nat.negb_odd, Ho. done.
Qed.

(** ** Building the table *)

Lemma load_records_app (l1 l2 : list record) (t : gmap Z schema) :
  load_records (l1 ++ l2) t = (t' ← load_records l1 t; load_records l2 t').
Proof.
  revert t. induction l1 as [|r l1 IH]; intros t; [done|].
  cbn [app load_records].
  destruct (int16 (r_id r)) as [c| |]; [|done..].
  run_bind.
  destruct (t !! c); [apply IH|].
  destruct (make_entry c r); [|done..].
  run_bind. apply IH.
Qed.

(** A record whose identifier is already in the table is skipped. *)
Lemma load_records_skip (r : record) (rest : list record)
    (t : gmap Z schema) (c : Z) :
  int16 (r_id r) = Ok c → is_Some (t !! c) →
  load_records (r :: rest) t = load_records rest t.
Proof.
  intros Hid [e He]. cbn [load_records]. rewrite Hid.
  run_bind. by rewrite He.
Qed.

(** What the finished table holds for identifier [c]: the entry it
    already had, or else the entry of the first record with that
    identifier. *)
Lemma load_records_lookup (l : list record) :
  ∀ (t t' : gmap Z schema), load_records l t = Ok t' →
  ∀ c, match t !! c with
       | Some e => t' !! c = Some e
       | None =>
           match find (has_id c) l with
           | Some r => ∃ e, make_entry c r = Ok e ∧ t' !! c = Some e
           | None => t' !! c = None
           end
       end.
Proof.
  induction l as [|r l IH]; intros t t' Hload c.
  - injection Hload as <-. by destruct (t !! c).
  - cbn [load_records] in Hload. cbn [find]. unfold has_id at 1.
    destruct (int16 (r_id r)) as [canid| |]; [|done..].
    run_bind in Hload.
    destruct (t !! canid) as [e0|] eqn:Hcan.
    + specialize (IH _ _ Hload c).
      destruct (Z.eqb_spec canid c) as [->|Hne]; [by rewrite Hcan in *|done].
    + destruct (make_entry canid r) as [entry| |] eqn:Hentry; [|done..].
      run_bind in Hload.
      specialize (IH _ _ Hload c).
      destruct (Z.eqb_spec canid c) as [->|Hne].
      * rewrite lookup_insert_eq in IH. rewrite Hcan. by exists entry.
      * by rewrite lookup_insert_ne in IH.
Qed.

Lemma find_has_id_app (c : Z) (pre post : list record) (r : record) :
  has_id c r = true → is_Some (find (has_id c) (pre ++ r :: post)).
Proof.
  intros Hr. destruct (find (has_id c) (pre ++ r :: post)) eqn:E; [by eexists|].
  pose proof (find_none _ _ E r ltac:(apply in_elt)). congruence.
Qed.

(** ** Decoding *)

Lemma py_getitem_nat {A : Type} (l : list A) (i : nat) (x : A) :
  py_getitem l (Z.of_nat i) = Ok x ↔ l !! i = Some x.
Proof.
  split.
  - unfold py_getitem. destruct (Z.ltb_spec (Z.of_nat i) 0); [lia|].
    destruct (_ || _); [done|]. rewrite Nat2Z.id.
    by destruct (l !! i) as [y|]; [intros [= ->]|].
  - intros H. apply py_getitem_in; [lia|by rewrite Nat2Z.id].
Qed.

Lemma field_value_raw (d : field_def) (raw : Z) :
  d_type d ≠ "float"%string → field_value d raw = Ok (PInt raw).
Proof.
  intros Hty. unfold field_value.
  by destruct (String.eqb_spec (d_type d) "float").
Qed.

(** ** [float(n)] on integers

    The conversion rounds as IEEE 754 specifies; the lemmas below follow
    the two stages of [binary_round_aux] on an integer mantissa. *)

Lemma digits2_pos_bounds (p : positive) :
  2 ^ (Zpos (digits2_pos p) - 1) <= Zpos p < 2 ^ Zpos (digits2_pos p).
Proof.
  induction p as [p IH|p IH|]; cbn [digits2_pos]; [| |cbn; lia].
  all: rewrite Pos2Z.inj_succ;
    replace (Z.succ (Zpos (digits2_pos p)) - 1)
      with (Z.succ (Zpos (digits2_pos p) - 1)) by lia;
    rewrite !Z.pow_succ_r by lia; lia.
Qed.

Lemma digits2_pos_unique (p : positive) (d : Z) :
  2 ^ (d - 1) <= Zpos p < 2 ^ d → Zpos (digits2_pos p) = d.
Proof.
  intros [Hlo Hhi]. pose proof (digits2_pos_bounds p) as [Hlo' Hhi'].
  assert (0 < d).
  { destruct (Z.lt_ge_cases 0 d) as [|Hd]; [done|].
    destruct (Z.eq_dec d 0) as [->|]; [cbn in Hhi; lia|].
    rewrite Z.pow_neg_r in Hhi by lia. lia. }
  destruct (Z.lt_trichotomy (Zpos (digits2_pos p)) d) as [Hlt|[Heq|Hgt]]; [|done|].
  - assert (2 ^ Zpos (digits2_pos p) <= 2 ^ (d - 1)) by (apply Z.pow_le_mono_r; lia). lia.
  - assert (2 ^ d <= 2 ^ (Zpos (digits2_pos p) - 1)) by (apply Z.pow_le_mono_r; lia). lia.
Qed.

Lemma shr_1_m (mrs : shr_record) :
  0 <= shr_m mrs → shr_m (shr_1 mrs) = shr_m mrs / 2.
Proof.
  destruct mrs as [m r s]. cbn [shr_m]. intros Hm.
  destruct m as [|[p|p|]|p]; cbn [shr_1 shr_m]; [done| | |done|lia].
  - apply Z.div_unique with 1; lia.
  - apply Z.div_unique with 0; lia.
Qed.

Lemma iter_shr_1_m (p : positive) :
  ∀ mrs : shr_record, 0 <= shr_m mrs →
    shr_m (SpecFloat.iter_pos shr_1 p mrs) = shr_m mrs / 2 ^ Zpos p.
Proof.
  induction p as [p IH|p IH|]; intros mrs Hm; cbn [SpecFloat.iter_pos].
  - assert (0 <= shr_m (shr_1 mrs)) by (rewrite shr_1_m by done; apply Z.div_pos; lia).
    assert (0 <= shr_m (SpecFloat.iter_pos shr_1 p (shr_1 mrs)))
      by (rewrite IH by done; apply Z.div_pos; lia).
    rewrite !IH, shr_1_m by done. rewrite !Z.div_div by lia.
    f_equal. replace (Zpos p~1) with (1 + Zpos p + Zpos p) by lia.
    rewrite !Z.pow_add_r by lia. change (2 ^ 1) with 2. lia.
  - assert (0 <= shr_m (SpecFloat.iter_pos shr_1 p mrs))
      by (rewrite IH by done; apply Z.div_pos; lia).
    rewrite !IH by done. rewrite !Z.div_div by lia.
    f_equal. replace (Zpos p~0) with (Zpos p + Zpos p) by lia.
    by rewrite Z.pow_add_r by lia.
  - rewrite shr_1_m by done. by rewrite Z.pow_1_r.
Qed.

Lemma fexp_normal (d e : Z) : -1021 <= d + e → fexp prec emax (d + e) = d + e - 53.
Proof. intros H. unfold fexp, emin, prec, emax. lia. Qed.

(** Second stage of rounding: a mantissa of 53 digits, or [2 ^ 53]. *)
Lemma round_finish (sx : bool) (m : Z) (e : Z) :
  2 ^ 52 <= m <= 2 ^ 53 → -1074 <= e →
  valid_binary
    (let '(mrs, e') := shr_fexp prec emax m e loc_Exact in
     match shr_m mrs with
     | Z0 => S754_zero sx
     | Zpos m' => if e' <=? emax - prec then S754_finite sx m' e'
                  else S754_infinity sx
     | Zneg _ => S754_nan
     end) = true.
Proof.
  intros Hm He. destruct m as [|q|q]; [lia| |lia].
  unfold shr_fexp. cbn [Zdigits2 shr_record_of_loc].
  destruct (Z.eq_dec (Zpos q) (2 ^ 53)) as [Hq|Hq].
  - rewrite (digits2_pos_unique q 54) by (change (54 - 1) with 53; pow_numerals; lia).
    rewrite fexp_normal by lia.
    replace (54 + e - 53 - e) with 1 by lia. cbn [shr SpecFloat.iter_pos].
    set (mrs := {| shr_m := Zpos q; shr_r := false; shr_s := false |}).
    pose proof (shr_1_m mrs ltac:(cbn; lia)) as Hhalf.
    cbn [shr_m mrs] in Hhalf. rewrite Hq in Hhalf.
    change (2 ^ 53 / 2) with (2 ^ 52) in Hhalf.
    destruct (shr_m (shr_1 mrs)) as [|m'|m']; [done| |done].
    destruct (Z.leb_spec (e + 1) (emax - prec)) as [Hle|Hgt]; [|done].
    cbn [valid_binary]. unfold bounded, canonical_mantissa.
    apply andb_true_intro. split; [|by apply Z.leb_le].
    apply Z.eqb_eq.
    rewrite (digits2_pos_unique m' 53) by (change (53 - 1) with 52; pow_numerals; lia).
    rewrite fexp_normal by lia. lia.
  - rewrite (digits2_pos_unique q 53) by (change (53 - 1) with 52; pow_numerals; lia).
    rewrite fexp_normal by lia.
    replace (53 + e - 53 - e) with 0 by lia. cbn [shr shr_m].
    destruct (Z.leb_spec e (emax - prec)) as [Hle|Hgt]; [|done].
    cbn [valid_binary]. unfold bounded, canonical_mantissa.
    apply andb_true_intro. split; [|by apply Z.leb_le].
    apply Z.eqb_eq.
    rewrite (digits2_pos_unique q 53) by (change (53 - 1) with 52; pow_numerals; lia).
    rewrite fexp_normal by lia. lia.
Qed.

(** The second stage leaves a mantissa of 53 digits alone. *)
Lemma round_finish_exact (sx : bool) (q : positive) (e : Z) :
  2 ^ 52 <= Zpos q < 2 ^ 53 → -1074 <= e <= 971 →
  (let '(mrs, e') := shr_fexp prec emax (Zpos q) e loc_Exact in
   match shr_m mrs with
   | Z0 => S754_zero sx
   | Zpos m' => if e' <=? emax - prec then S754_finite sx m' e'
                else S754_infinity sx
   | Zneg _ => S754_nan
   end) = S754_finite sx q e.
Proof.
  intros Hq He. unfold shr_fexp. cbn [Zdigits2 shr_record_of_loc].
  rewrite (digits2_pos_unique q 53) by (change (53 - 1) with 52; pow_numerals; lia).
  rewrite fexp_normal by lia.
  replace (53 + e - 53 - e) with 0 by lia. cbn [shr shr_m].
  destruct (Z.leb_spec e (emax - prec)) as [Hle|Hgt]; [done|].
  unfold emax, prec in Hgt. lia.
Qed.

(** Rounding the integer [p]: the first stage. *)
Lemma binary_round_aux_stage (sx : bool) (mx : Z) (ex : Z) :
  binary_round_aux prec emax sx mx ex loc_Exact =
  let '(mrs, e') := shr_fexp prec emax mx ex loc_Exact in
  let '(mrs2, e2) :=
    shr_fexp prec emax
      (round_nearest_even (shr_m mrs) (loc_of_shr_record mrs)) e' loc_Exact in
  match shr_m mrs2 with
  | Z0 => S754_zero sx
  | Zpos m' => if e2 <=? emax - prec then S754_finite sx m' e2
               else S754_infinity sx
  | Zneg _ => S754_nan
  end.
Proof. reflexivity. Qed.

Lemma round_nearest_even_range (m : Z) (l : location) :
  m <= round_nearest_even m l <= m + 1.
Proof.
  destruct l as [|[| |]]; cbn [round_nearest_even]; [lia| |lia..].
  destruct (Z.even m); lia.
Qed.

Lemma shift_pos_value (k p : positive) :
  Zpos (Pos.iter xO p k) = Zpos p * 2 ^ Zpos k.
Proof.
  change (Pos.iter xO p k) with (shift_pos k p).
  rewrite shift_pos_correct, Z.pow_pos_fold. lia.
Qed.

(** An integer of at most 53 binary digits is represented exactly. *)
Lemma binary_round_small (sx : bool) (p : positive) :
  Zpos p < 2 ^ 53 →
  ∃ (m : positive) (e : Z),
    binary_round prec emax sx p 0 = S754_finite sx m e ∧
    valid_binary (S754_finite sx m e) = true ∧
    e <= 0 ∧ Zpos m = Zpos p * 2 ^ (- e).
Proof.
  intros Hp. pose proof (digits2_pos_bounds p) as Hd.
  set (d := Zpos (digits2_pos p)) in *.
  assert (Hd1 : 1 <= d) by (unfold d; lia).
  assert (Hd53 : d <= 53).
  { destruct (Z.le_gt_cases d 53) as [|Hgt]; [done|].
    assert (2 ^ 53 <= 2 ^ (d - 1)) by (apply Z.pow_le_mono_r; lia). lia. }
  assert (Hvalid : ∀ (m : positive) (e : Z),
             2 ^ 52 <= Zpos m < 2 ^ 53 → -1074 <= e <= 971 →
             valid_binary (S754_finite sx m e) = true).
  { intros m e Hm He. cbn [SpecFloat.valid_binary].
    unfold bounded, canonical_mantissa.
    rewrite (digits2_pos_unique m 53) by (change (53 - 1) with 52; pow_numerals; lia).
    rewrite fexp_normal by lia. apply andb_true_intro. split.
    - apply Z.eqb_eq. lia.
    - apply Z.leb_le. unfold emax, prec. lia. }
  unfold binary_round. fold d. rewrite fexp_normal by lia.
  unfold shl_align.
  destruct (d + 0 - 53 - 0) as [|k|k] eqn:Hk; [|lia|].
  - assert (Hm : 2 ^ 52 <= Zpos p < 2 ^ 53).
    { replace d with 53 in Hd by lia. change (53 - 1) with 52 in Hd. lia. }
    rewrite binary_round_aux_stage. unfold shr_fexp at 1.
    cbn [Zdigits2 shr_record_of_loc]. fold d. rewrite fexp_normal by lia.
    rewrite Hk. cbn [shr shr_m loc_of_shr_record round_nearest_even].
    rewrite round_finish_exact by lia.
    exists p, 0. repeat split; [by apply Hvalid; lia|lia|].
    change (2 ^ (- 0)) with 1. lia.
  - assert (Hm : 2 ^ 52 <= Zpos (Pos.iter xO p k) < 2 ^ 53).
    { rewrite shift_pos_value. replace (Zpos k) with (53 - d) by lia.
      assert (E1 : 2 ^ 52 = 2 ^ (d - 1) * 2 ^ (53 - d))
        by (rewrite <- Z.pow_add_r by lia; f_equal; lia).
      assert (E2 : 2 ^ 53 = 2 ^ d * 2 ^ (53 - d))
        by (rewrite <- Z.pow_add_r by lia; f_equal; lia).
      assert (0 < 2 ^ (53 - d)) by (apply Z.pow_pos_nonneg; lia).
      rewrite E1, E2. split.
      - apply Z.mul_le_mono_nonneg_r; lia.
      - apply Z.mul_lt_mono_pos_r; lia. }
    rewrite binary_round_aux_stage. unfold shr_fexp at 1.
    cbn [Zdigits2 shr_record_of_loc].
    rewrite (digits2_pos_unique (Pos.iter xO p k) 53)
      by (change (53 - 1) with 52; lia).
    rewrite fexp_normal by lia.
    replace (53 + (d + 0 - 53) - 53 - (d + 0 - 53)) with 0 by lia.
    cbn [shr shr_m loc_of_shr_record round_nearest_even].
    rewrite round_finish_exact by lia.
    exists (Pos.iter xO p k), (d + 0 - 53).
    repeat split; [by apply Hvalid; lia|lia|].
    rewrite shift_pos_value. do 2 f_equal. lia.
Qed.

(** Rounding an integer always gives a valid binary64 datum. *)
Lemma binary_round_valid (sx : bool) (p : positive) :
  valid_binary (binary_round prec emax sx p 0) = true.
Proof.
  destruct (Z.lt_ge_cases (Zpos p) (2 ^ 53)) as [Hsmall|Hbig].
  { destruct (binary_round_small sx p Hsmall) as (m & e & -> & Hv & _). exact Hv. }
  pose proof (digits2_pos_bounds p) as Hd.
  set (d := Zpos (digits2_pos p)) in *.
  assert (Hd54 : 54 <= d).
  { destruct (Z.le_gt_cases 54 d) as [|Hlt]; [done|].
    assert (2 ^ d <= 2 ^ 53) by (apply Z.pow_le_mono_r; lia). lia. }
  unfold binary_round. fold d. rewrite fexp_normal by lia.
  unfold shl_align.
  destruct (d + 0 - 53 - 0) as [|k|k] eqn:Hk; [lia| |lia].
  rewrite binary_round_aux_stage. unfold shr_fexp at 1.
  cbn [Zdigits2 shr_record_of_loc]. fold d. rewrite fexp_normal by lia.
  rewrite Hk. cbn [shr].
  set (mrs := SpecFloat.iter_pos shr_1 k _).
  assert (Hm1 : 2 ^ 52 <= shr_m mrs < 2 ^ 53).
  { unfold mrs. rewrite iter_shr_1_m by (cbn; lia). cbn [shr_m].
    assert (E1 : 2 ^ (d - 1) = 2 ^ 52 * 2 ^ Zpos k)
      by (rewrite <- Z.pow_add_r by lia; f_equal; lia).
    assert (E2 : 2 ^ d = 2 ^ 53 * 2 ^ Zpos k)
      by (rewrite <- Z.pow_add_r by lia; f_equal; lia).
    assert (0 < 2 ^ Zpos k) by (apply Z.pow_pos_nonneg; lia).
    split.
    - apply Z.div_le_lower_bound; lia.
    - apply Z.div_lt_upper_bound; lia. }
  pose proof (round_nearest_even_range (shr_m mrs) (loc_of_shr_record mrs)).
  apply round_finish; lia.
Qed.

(** [n] rounded to binary64 is valid. *)
Lemma binary_normalize_valid (n : Z) :
  valid_binary (binary_normalize prec emax n 0 false) = true.
Proof. destruct n; [done|apply binary_round_valid..]. Qed.

(** The second stage keeps the value of a mantissa of 53 digits, or of
    [2 ^ 53], unless the exponent leaves the format. *)
Lemma round_finish_value (sx : bool) (m : Z) (e : Z) :
  2 ^ 52 <= m <= 2 ^ 53 → 0 <= e →
  let res :=
    (let '(mrs, e') := shr_fexp prec emax m e loc_Exact in
     match shr_m mrs with
     | Z0 => S754_zero sx
     | Zpos m' => if e' <=? emax - prec then S754_finite sx m' e'
                  else S754_infinity sx
     | Zneg _ => S754_nan
     end) in
  res = S754_infinity sx ∨
  ∃ (m' : positive) (e' : Z),
    res = S754_finite sx m' e' ∧ 0 <= e' ∧ Zpos m' * 2 ^ e' = m * 2 ^ e.
Proof.
  intros Hm He. destruct m as [|q|q]; [lia| |lia].
  unfold shr_fexp. cbn [Zdigits2 shr_record_of_loc].
  destruct (Z.eq_dec (Zpos q) (2 ^ 53)) as [Hq|Hq].
  - rewrite (digits2_pos_unique q 54) by (change (54 - 1) with 53; pow_numerals; lia).
    rewrite fexp_normal by lia.
    replace (54 + e - 53 - e) with 1 by lia. cbn [shr SpecFloat.iter_pos].
    set (mrs := {| shr_m := Zpos q; shr_r := false; shr_s := false |}).
    pose proof (shr_1_m mrs ltac:(cbn; lia)) as Hhalf.
    cbn [shr_m mrs] in Hhalf. rewrite Hq in Hhalf.
    change (2 ^ 53 / 2) with (2 ^ 52) in Hhalf.
    destruct (shr_m (shr_1 mrs)) as [|m'|m']; [done| |done].
    destruct (Z.leb_spec (e + 1) (emax - prec)) as [Hle|Hgt]; [|by left].
    right. exists m', (e + 1). split; [done|]. split; [lia|].
    rewrite Hhalf, Hq, Z.pow_add_r by lia.
    change (2 ^ 53) with (2 ^ 52 * 2). change (2 ^ 1) with 2. lia.
  - rewrite (digits2_pos_unique q 53) by (change (53 - 1) with 52; pow_numerals; lia).
    rewrite fexp_normal by lia.
    replace (53 + e - 53 - e) with 0 by lia. cbn [shr shr_m].
    destruct (Z.leb_spec e (emax - prec)) as [Hle|Hgt]; [|by left].
    right. by exists q, e.
Qed.

(** An integer of more than 53 binary digits is rounded to a multiple
    of a power of two at most one unit in the last place away, or
    leaves the format. *)
Lemma binary_round_large (sx : bool) (p : positive) :
  2 ^ 53 <= Zpos p →
  binary_round prec emax sx p 0 = S754_infinity sx ∨
  ∃ (m : positive) (e : Z),
    binary_round prec emax sx p 0 = S754_finite sx m e ∧ 0 <= e ∧
    2 ^ 52 * Z.abs (Zpos m * 2 ^ e - Zpos p) <= Zpos p.
Proof.
  intros Hbig. pose proof (digits2_pos_bounds p) as Hd.
  set (d := Zpos (digits2_pos p)) in *.
  assert (Hd54 : 54 <= d).
  { destruct (Z.le_gt_cases 54 d) as [|Hlt]; [done|].
    assert (2 ^ d <= 2 ^ 53) by (apply Z.pow_le_mono_r; lia). lia. }
  set (res := binary_round prec emax sx p 0).
  assert (Hres0 : ∃ k : positive, Zpos k = d - 53 ∧
            res =
            let mrs := SpecFloat.iter_pos shr_1 k
                         {| shr_m := Zpos p; shr_r := false; shr_s := false |} in
            let '(mrs2, e2) :=
              shr_fexp prec emax
                (round_nearest_even (shr_m mrs) (loc_of_shr_record mrs))
                (0 + Zpos k) loc_Exact in
            match shr_m mrs2 with
            | Z0 => S754_zero sx
            | Zpos m' => if e2 <=? emax - prec then S754_finite sx m' e2
                         else S754_infinity sx
            | Zneg _ => S754_nan
            end).
  { unfold res, binary_round. fold d. rewrite fexp_normal by lia.
    unfold shl_align.
    destruct (d + 0 - 53 - 0) as [|k|k] eqn:Hk; [lia| |lia].
    exists k. split; [lia|].
    rewrite binary_round_aux_stage. unfold shr_fexp at 1.
    cbn [Zdigits2 shr_record_of_loc]. fold d. rewrite fexp_normal by lia.
    by rewrite Hk. }
  destruct Hres0 as (k & Hk & ->). cbv zeta.
  set (mrs := SpecFloat.iter_pos shr_1 k _).
  assert (E1 : 2 ^ (d - 1) = 2 ^ 52 * 2 ^ Zpos k)
    by (rewrite <- Z.pow_add_r by lia; f_equal; lia).
  assert (E2 : 2 ^ d = 2 ^ 53 * 2 ^ Zpos k)
    by (rewrite <- Z.pow_add_r by lia; f_equal; lia).
  assert (Hpow : 0 < 2 ^ Zpos k) by (apply Z.pow_pos_nonneg; lia).
  assert (Hm1 : shr_m mrs = Zpos p / 2 ^ Zpos k)
    by (unfold mrs; by rewrite iter_shr_1_m by (cbn; lia)).
  assert (Hrange : 2 ^ 52 <= shr_m mrs < 2 ^ 53).
  { rewrite Hm1. split.
    - apply Z.div_le_lower_bound; lia.
    - apply Z.div_lt_upper_bound; lia. }
  pose proof (round_nearest_even_range (shr_m mrs) (loc_of_shr_record mrs)) as Hr.
  set (m2 := round_nearest_even _ _) in *.
  destruct (round_finish_value sx m2 (0 + Zpos k)) as [Hinf|(m' & e' & Hres & He' & Hval)];
    [lia|lia|by left|].
  right. exists m', e'. split; [exact Hres|]. split; [done|].
  rewrite Hval. replace (0 + Zpos k) with (Zpos k) by lia.
  pose proof (Z.div_mod (Zpos p) (2 ^ Zpos k) ltac:(lia)) as Hdiv.
  pose proof (Z.mod_pos_bound (Zpos p) (2 ^ Zpos k) Hpow) as Hmod.
  rewrite <- Hm1 in Hdiv.
  assert (Z.abs (m2 * 2 ^ Zpos k - Zpos p) <= 2 ^ Zpos k) by nia.
  nia.
Qed.

Lemma finite_integer_small (s : bool) (m : positive) (e : Z) (p : positive) :
  e <= 0 → Zpos m = Zpos p * 2 ^ (- e) →
  (if 0 <=? e then Some (cond_Zopp s (Zpos m * 2 ^ e))
   else if Zpos m mod 2 ^ (- e) =? 0
        then Some (cond_Zopp s (Zpos m / 2 ^ (- e)))
        else None) = Some (cond_Zopp s (Zpos p)).
Proof.
  intros He Hm. destruct (Z.leb_spec 0 e) as [He0|He0].
  - replace e with 0 in * by lia. change (2 ^ (- 0)) with 1 in Hm.
    change (2 ^ 0) with 1. do 2 f_equal. lia.
  - assert (0 < 2 ^ (- e)) by (apply Z.pow_pos_nonneg; lia).
    rewrite Hm, Z.mod_mul, Z.div_mul by lia. done.
Qed.

Lemma float_of_int_spec (n : Z) (x : float) :
  float_of_int n = Ok x → binary64_of n x.
Proof.
  unfold float_of_int. intros Hx.
  pose proof (binary_normalize_valid n) as Hvalid.
  assert (Hsf : Prim2SF x = binary_normalize prec emax n 0 false).
  { assert (Hx' : x = SF2Prim (binary_normalize prec emax n 0 false))
      by (destruct (binary_normalize prec emax n 0 false); congruence).
    rewrite Hx'. by apply Prim2SF_SF2Prim. }
  split; [done|]. unfold float_integer. rewrite Hsf.
  destruct n as [|p|p]; cbn [binary_normalize].
  - exists 0. done.
  - destruct (Z.lt_ge_cases (Zpos p) (2 ^ 53)) as [Hsmall|Hbig].
    + destruct (binary_round_small false p Hsmall) as (m & e & -> & _ & He & Hm).
      exists (Zpos p). rewrite (finite_integer_small false m e p) by done.
      cbn [cond_Zopp]. split; [done|]. split; [lia|done].
    + destruct (binary_round_large false p Hbig) as [Hinf|(m & e & Hres & He & Hm)].
      { cbn [binary_normalize] in Hx. by rewrite Hinf in Hx. }
      rewrite Hres. exists (Zpos m * 2 ^ e).
      destruct (Z.leb_spec 0 e); [|lia]. cbn [cond_Zopp].
      split; [done|]. split; [lia|lia].
  - destruct (Z.lt_ge_cases (Zpos p) (2 ^ 53)) as [Hsmall|Hbig].
    + destruct (binary_round_small true p Hsmall) as (m & e & -> & _ & He & Hm).
      exists (Zneg p). rewrite (finite_integer_small true m e p) by done.
      cbn [cond_Zopp]. split; [done|]. split; [lia|done].
    + destruct (binary_round_large true p Hbig) as [Hinf|(m & e & Hres & He & Hm)].
      { cbn [binary_normalize] in Hx. by rewrite Hinf in Hx. }
      rewrite Hres. exists (- (Zpos m * 2 ^ e)).
      destruct (Z.leb_spec 0 e); [|lia]. cbn [cond_Zopp].
      split; [done|]. split; [lia|lia].
Qed.

Lemma as_float_spec (v : num) (r : float) :
  as_float v = Ok r → operand_of v r.
Proof.
  destruct v as [n|f]; cbn [as_float operand_of].
  - apply float_of_int_spec.
  - by intros [= <-].
Qed.

Lemma field_value_float (d : field_def) (raw : Z) (v : pyval) :
  d_type d = "float"%string → field_value d raw = Ok v →
  ∃ (res min : num) (x r m : float),
    d_resolution d = Some res ∧ d_minimum d = Some min ∧
    binary64_of raw x ∧ operand_of res r ∧ operand_of min m ∧
    v = PFloat (x * r + m)%float.
Proof.
  intros Hty. unfold field_value. rewrite Hty, String.eqb_refl.
  destruct (float_of_int raw) as [x| |] eqn:Hx; [|done..]. run_bind.
  destruct (d_resolution d) as [res|]; [|done]. cbn [py_key mbind outcome_bind].
  destruct (as_float res) as [r| |] eqn:Hr; [|done..]. run_bind.
  destruct (d_minimum d) as [min|]; [|done]. cbn [py_key mbind outcome_bind].
  destruct (as_float min) as [m| |] eqn:Hm; [|done..]. run_bind.
  intros [= <-]. exists res, min, x, r, m.
  split; [done|]. split; [done|].
  split; [by apply float_of_int_spec|].
  split; [by apply as_float_spec|].
  split; [by apply as_float_spec|done].
Qed.

Lemma float_of_int_outcome (n : Z) :
  (∃ x, float_of_int n = Ok x) ∨ float_of_int n = Raise OverflowError.
Proof.
  unfold float_of_int. destruct (binary_normalize _ _ _ _ _); eauto.
Qed.

Lemma as_float_outcome (n : num) :
  (∃ x, as_float n = Ok x) ∨ as_float n = Raise OverflowError.
Proof. destruct n; [apply float_of_int_outcome|left; by eexists]. Qed.

Lemma field_value_outcome (d : field_def) (raw : Z) :
  (∃ v, field_value d raw = Ok v) ∨
  (∃ e, field_value d raw = Raise e ∧ scaling_error e).
Proof.
  unfold field_value, scaling_error.
  destruct (String.eqb _ _); [|left; by eexists].
  destruct (float_of_int_outcome raw) as [[x ->]| ->]; [|right; eauto].
  run_bind.
  destruct (d_resolution d) as [res|]; [|right; eauto]. cbn [py_key]. run_bind.
  destruct (as_float_outcome res) as [[r ->]| ->]; [|right; eauto].
  run_bind.
  destruct (d_minimum d) as [min|]; [|right; eauto]. cbn [py_key]. run_bind.
  destruct (as_float_outcome min) as [[m ->]| ->]; [|right; eauto].
  left. by eexists.
Qed.

(** With a definition for every raw integer, the conversion loop fails
    only when a value does not materialise. *)
Lemma convert_outcome (ds : list field_def) :
  ∀ (bits_list : list Z) (i : nat) (fields : list decoded_field),
    (i + length bits_list <= length ds)%nat →
    (∃ out, convert ds bits_list i fields = Ok out) ∨
    (∃ e, convert ds bits_list i fields = Raise e ∧ scaling_error e).
Proof.
  induction bits_list as [|raw0 rest IH]; intros i fields Hlen.
  - left. by eexists.
  - cbn [convert]. cbn [length] in Hlen.
    destruct (lookup_lt_is_Some_2 ds i) as [d0 Hd0]; [lia|].
    rewrite (proj2 (py_getitem_nat ds i d0) Hd0). run_bind.
    destruct (field_value_outcome d0 raw0) as [[v ->]|(e & -> & He)];
      [|right; eauto].
    run_bind. apply IH. lia.
Qed.

(** A successful run of the conversion loop appends one field per raw
    integer, built from the definition at the same index. *)
Lemma convert_inv (ds : list field_def) :
  ∀ (bits_list : list Z) (i : nat) (fields out : list decoded_field),
    convert ds bits_list i fields = Ok out →
    ∃ new, out = fields ++ new ∧ length new = length bits_list ∧
      ∀ j raw, bits_list !! j = Some raw →
        ∃ d v, ds !! (i + j)%nat = Some d ∧ field_value d raw = Ok v ∧
               new !! j = Some (field_of d raw v).
Proof.
  induction bits_list as [|raw0 rest IH]; intros i fields out Hconv.
  - injection Hconv as <-. exists []. by rewrite app_nil_r.
  - cbn [convert] in Hconv.
    destruct (py_getitem ds (Z.of_nat i)) as [d0| |] eqn:Hd; [|done..].
    apply py_getitem_nat in Hd.
    run_bind in Hconv.
    destruct (field_value d0 raw0) as [v0| |] eqn:Hv; [|done..].
    run_bind in Hconv.
    apply IH in Hconv as (new & -> & Hlen & Hnew).
    exists (field_of d0 raw0 v0 :: new).
    split; [by rewrite <- app_assoc|]. split; [cbn; lia|].
    intros [|j] raw Hraw.
    + injection Hraw as <-. exists d0, v0. by rewrite Nat.add_0_r.
    + cbn in Hraw. destruct (Hnew j raw Hraw) as (d & v & Hd' & Hv' & Hj).
      exists d, v. by rewrite Nat.add_succ_r.
Qed.

(** The loop succeeds when there is a definition for every raw integer
    and every value materialises. *)
Lemma convert_ok (ds : list field_def) :
  ∀ (bits_list : list Z) (i : nat) (fields : list decoded_field),
    (i + length bits_list <= length ds)%nat →
    (∀ j d raw, ds !! (i + j)%nat = Some d → bits_list !! j = Some raw →
       ∃ v, field_value d raw = Ok v) →
    ∃ out, convert ds bits_list i fields = Ok out.
Proof.
  induction bits_list as [|raw0 rest IH]; intros i fields Hlen Hval.
  - by eexists.
  - cbn [convert]. cbn [length] in Hlen.
    destruct (lookup_lt_is_Some_2 ds i) as [d0 Hd0]; [lia|].
    rewrite (proj2 (py_getitem_nat ds i d0) Hd0). run_bind.
    destruct (Hval 0%nat d0 raw0) as [v0 Hv0]; [by rewrite Nat.add_0_r|done|].
    rewrite Hv0. run_bind.
    apply IH; [lia|].
    intros j d raw Hd Hraw. apply (Hval (S j)); [by rewrite Nat.add_succ_r|done].
Qed.

(** ** Properties of [split_bits] and [extract_bits] *)

(** C1. For every byte buffer and every in-bounds bit range, each
    integer produced by [split_bits] (ascending offsets within
    [[0, end]], [end] within the buffer), and the integer produced by
    [extract_bits] for a single non-empty range, is the unsigned value
    of the bits of that range concatenated most significant bit first,
    whatever the alignment of the range; on the bytes [0xAB, 0xCD],
    [extract_bits] at start 4 with length 8 gives 188. *)
Theorem split_bits_msb_first_values :
  (∀ (bs : list byte) (ss : list Z) (end_ : Z),
     ss ≠ [] → Sorted Z.le ss → Forall (λ s, 0 <= s <= end_) ss →
     end_ <= 8 * Z.of_nat (length bs) →
     ∃ l, split_bits bs ss end_ = Ok l ∧
       ∀ k v, l !! k = Some v →
         ∃ start, ss !! k = Some start ∧
           v = range_value bs start (default end_ (ss !! S k)))
  ∧ (∀ (bs : list byte) (start stop : Z),
       0 <= start → start < stop → stop <= 8 * Z.of_nat (length bs) →
       extract_bits bs start (stop - start) =
         Ok (Some (range_value bs start stop)))
  ∧ extract_bits [xab; xcd] 4 8 = Ok (Some 188).
Proof.
  split; [|split].
  - intros bs ss end_ Hne Hsorted Hall Hend.
    assert (0 <= end_).
    { destruct ss as [|s rest]; [done|]. apply Forall_cons in Hall as [? _]. lia. }
    exists (chunk_values bs ss end_). split.
    + rewrite split_bits_chunks; try done.
      * by destruct (Z.ltb_spec end_ 0); [lia|].
      * destruct ss as [|s rest]; [done|]. apply Forall_cons in Hall as [? _].
        cbn. lia.
      * by destruct (Z.ltb_spec end_ 0); [lia|].
    + intros k v Hk. by apply chunk_values_lookup_bounded.
  - intros bs start stop H0 Hlt Hlen.
    destruct (extract_bits_value bs start (stop - start)) as [_ Hex]; [lia..|].
    rewrite Hex. do 3 f_equal. lia.
  - reflexivity.
Qed.

Lemma split_bits_msb_first_values_witness :
  (∃ l, split_bits [xab; xcd] [0; 4; 12] 16 = Ok l ∧
     ∀ k v, l !! k = Some v →
       ∃ start, [0; 4; 12] !! k = Some start ∧
         v = range_value [xab; xcd] start (default 16 ([0; 4; 12] !! S k)))
  ∧ extract_bits [xab; xcd] 4 (12 - 4) = Ok (Some (range_value [xab; xcd] 4 12)).
Proof.
  split.
  - apply (proj1 split_bits_msb_first_values [xab; xcd] [0; 4; 12] 16).
    + discriminate.
    + repeat constructor; lia.
    + repeat constructor; lia.
    + cbn. lia.
  - apply (proj1 (proj2 split_bits_msb_first_values) [xab; xcd] 4 12); cbn; lia.
Defined.

(** C2, as the claim states it, fails: with offsets [[0, 8]] and end 8
    on a one-byte buffer the final chunk starts at the end position, and
    [split_bits] returns one integer, not two. *)
Lemma split_bits_final_empty_chunk_missing :
  [0; 8] ≠ [] ∧ Sorted Z.le [0; 8] ∧ Forall (λ s, 0 <= s <= 8) [0; 8] ∧
  8 <= 8 * Z.of_nat (length [xab]) ∧
  split_bits [xab] [0; 8] 8 = Ok [171] ∧
  ¬ ∃ l, split_bits [xab] [0; 8] 8 = Ok l ∧ length l = length [0; 8].
Proof.
  split; [discriminate|]. split; [repeat constructor; lia|].
  split; [repeat constructor; lia|]. split; [cbn; lia|].
  split; [reflexivity|].
  intros (l & Hl & Hlen). change (Ok [171] = Ok l) in Hl.
  injection Hl as <-. discriminate.
Qed.

Lemma filter_all (l : list Z) (bound : Z) :
  Forall (λ s, s < bound) l → filter (λ s, s < bound) l = l.
Proof.
  induction 1 as [|x l Hx _ IH]; [done|].
  by rewrite filter_cons_True, IH.
Qed.

(** C2, amended.  For non-empty ascending offsets within [[0, end]] and
    [end] within the buffer, [split_bits] returns one integer per offset
    strictly below [end], hence exactly [len(offsets)] integers when the
    last offset is below [end]; the [k]-th integer is the value of the
    range from the [k]-th offset to the next one, or to [end] after the
    last offset; two equal consecutive offsets below [end] give a chunk
    of value 0; an offset equal to [end] gives no chunk. *)
Theorem split_bits_chunk_count (bs : list byte) (ss : list Z) (end_ : Z) :
  ss ≠ [] → Sorted Z.le ss → Forall (λ s, 0 <= s <= end_) ss →
  end_ <= 8 * Z.of_nat (length bs) →
  ∃ l, split_bits bs ss end_ = Ok l ∧
    length l = length (filter (λ s, s < end_) ss) ∧
    (Forall (λ s, s < end_) ss → length l = length ss) ∧
    (∀ k v, l !! k = Some v →
       ∃ start, ss !! k = Some start ∧
         v = range_value bs start (default end_ (ss !! S k))) ∧
    (∀ k s, ss !! k = Some s → ss !! S k = Some s → s < end_ →
       l !! k = Some 0) ∧
    (∀ k, ss !! k = Some end_ → l !! k = None).
Proof.
  intros Hne Hsorted Hall Hend.
  assert (Hhd : 0 <= hd 0 ss <= end_).
  { destruct ss as [|s rest]; [done|]. by apply Forall_cons in Hall as [? _]. }
  exists (chunk_values bs ss end_). split; [|split; [|split; [|split; [|split]]]].
  - rewrite split_bits_chunks; try done; try lia;
      by destruct (Z.ltb_spec end_ 0); [lia|].
  - by apply chunk_values_length.
  - intros Hlt. by rewrite chunk_values_length, filter_all.
  - intros k v Hk. by apply chunk_values_lookup_bounded.
  - intros k s Hk HSk Hlt.
    rewrite (chunk_values_lookup_lt bs ss end_ k s) by done.
    rewrite HSk. cbn. rewrite Z.min_r by lia.
    by rewrite range_value_empty.
  - intros k Hk. destruct (chunk_values bs ss end_ !! k) as [v|] eqn:Hv; [|done].
    apply chunk_values_lookup in Hv as (start & Hstart & ? & _).
    rewrite Hk in Hstart. injection Hstart as <-. lia.
Qed.

Lemma split_bits_chunk_count_witness :
  ∃ l, split_bits [xab; xcd] [0; 4; 4; 16] 16 = Ok l ∧
    length l = length (filter (λ s, s < 16) [0; 4; 4; 16]) ∧
    (Forall (λ s, s < 16) [0; 4; 4; 16] → length l = length [0; 4; 4; 16]) ∧
    (∀ k v, l !! k = Some v →
       ∃ start, [0; 4; 4; 16] !! k = Some start ∧
         v = range_value [xab; xcd] start (default 16 ([0; 4; 4; 16] !! S k))) ∧
    (∀ k s, [0; 4; 4; 16] !! k = Some s → [0; 4; 4; 16] !! S k = Some s →
       s < 16 → l !! k = Some 0) ∧
    (∀ k, [0; 4; 4; 16] !! k = Some 16 → l !! k = None).
Proof.
  apply (split_bits_chunk_count [xab; xcd] [0; 4; 4; 16] 16).
  - discriminate.
  - repeat constructor; lia.
  - repeat constructor; lia.
  - cbn. lia.
Defined.

(** C3, as the claim states it, fails: an offset past the end of the
    buffer is clipped, and a first offset at or past the end position
    gives an empty result, without any error. *)
Lemma split_bits_offset_past_buffer_returns :
  8 * Z.of_nat (length [xab]) < 16 ∧
  split_bits [xab] [0; 8; 16] (-1) = Ok [171] ∧
  split_bits [xab] [16] 16 = Ok [] ∧
  8 * Z.of_nat (length (@nil byte)) < 8 ∧
  split_bits [] [8] (-1) = Ok [] ∧
  extract_bits [] 8 0 = Ok None.
Proof. repeat split; (reflexivity || (cbn; lia)). Qed.

(** C3, amended.  For every buffer, the empty one included: a call to
    [split_bits] with an explicit end position past the buffer and a
    first offset in [[0, end)], and a call to [extract_bits] with a
    non-negative start and a positive length ending past the buffer,
    raise [IndexError]; a call whose first offset is at or past the end
    position returns the empty list. *)
Theorem read_past_buffer_raises (bs : list byte) :
  (∀ (s : Z) (rest : list Z) (end_ : Z),
     8 * Z.of_nat (length bs) < end_ → 0 <= s < end_ →
     split_bits bs (s :: rest) end_ = Raise IndexError)
  ∧ (∀ (s l : Z),
       0 <= s → 0 < l → 8 * Z.of_nat (length bs) < s + l →
       extract_bits bs s l = Raise IndexError)
  ∧ (∀ (s : Z) (rest : list Z) (end_ : Z),
       (if end_ <? 0 then 8 * Z.of_nat (length bs) else end_) <= s →
       split_bits bs (s :: rest) end_ = Ok []).
Proof.
  split; [|split].
  - intros s rest end_ Hend Hs. by apply split_bits_past.
  - intros s l Hs Hl Hend. by apply extract_bits_past.
  - intros s rest end_ Hs. rewrite split_bits_unfold. cbv zeta.
    by apply outer_loop_done.
Qed.

Lemma read_past_buffer_raises_witness :
  split_bits [] [0; 4] 8 = Raise IndexError ∧
  extract_bits [xab] 4 8 = Raise IndexError ∧
  split_bits [xab] [8; 16] (-1) = Ok [].
Proof.
  split; [|split].
  - apply (proj1 (read_past_buffer_raises [])); cbn; lia.
  - apply (proj1 (proj2 (read_past_buffer_raises [xab]))); cbn; lia.
  - apply (proj2 (proj2 (read_past_buffer_raises [xab]))); cbn; lia.
Defined.

(** C5, as the claim states it, fails: for a range of length 0 the split
    is empty and [extract_bits] returns [None], although the offsets
    list [[start]] is not empty. *)
Lemma extract_bits_zero_length_is_none :
  split_bits [xab] [0] (0 + 0) = Ok [] ∧ extract_bits [xab] 0 0 = Ok None.
Proof. split; reflexivity. Qed.

(** C5, amended.  For every start >= 0 and length > 0,
    [extract_bits(B, start, length)] returns the one integer of
    [split_bits(B, [start], start + length)], or both raise
    [IndexError]; it then never returns [None].  [None] is returned for
    length 0. *)
Theorem extract_bits_first_of_split (bs : list byte) (s l : Z) :
  0 <= s → 0 <= l →
  (0 < l →
     (∃ v, split_bits bs [s] (s + l) = Ok [v] ∧
           extract_bits bs s l = Ok (Some v))
     ∨ (split_bits bs [s] (s + l) = Raise IndexError ∧
        extract_bits bs s l = Raise IndexError))
  ∧ (l = 0 → extract_bits bs s l = Ok None).
Proof.
  intros Hs Hl. split.
  - intros Hpos.
    destruct (Z.le_gt_cases (s + l) (8 * Z.of_nat (length bs))).
    + left. eexists. by apply extract_bits_value.
    + right. apply extract_bits_past; lia.
  - intros ->. by apply extract_bits_zero_length.
Qed.

Lemma extract_bits_first_of_split_witness :
  (0 < 8 →
     (∃ v, split_bits [xab; xcd] [4] (4 + 8) = Ok [v] ∧
           extract_bits [xab; xcd] 4 8 = Ok (Some v))
     ∨ (split_bits [xab; xcd] [4] (4 + 8) = Raise IndexError ∧
        extract_bits [xab; xcd] 4 8 = Raise IndexError))
  ∧ (8 = 0 → extract_bits [xab; xcd] 4 8 = Ok None).
Proof.
  apply (extract_bits_first_of_split [xab; xcd] 4 8); lia.
Defined.

(** ** Properties of [analyze_data] *)

Lemma analyze_data_selected (bs : list byte) (stbl : schema)
    (fields0 : list decoded_field) (ds : list field_def) :
  select_values bs stbl = Ok (fields0, ds) →
  analyze_data bs stbl = decode_values bs ds fields0.
Proof. intros H. unfold analyze_data. by rewrite H. Qed.

Lemma decode_values_inv (bs : list byte) (ds : list field_def)
    (fields out : list decoded_field) :
  decode_values bs ds fields = Ok out →
  ∃ bits_list new,
    split_bits bs (map d_start ds) (-1) = Ok bits_list ∧
    out = fields ++ new ∧ length new = length bits_list ∧
    ∀ j raw, bits_list !! j = Some raw →
      ∃ d v, ds !! j = Some d ∧ field_value d raw = Ok v ∧
             new !! j = Some (field_of d raw v).
Proof.
  unfold decode_values. cbv zeta.
  destruct (split_bits bs (map d_start ds) (-1)) as [bits_list| |]; [|done..].
  run_bind. intros Hconv.
  apply convert_inv in Hconv as (new & -> & Hlen & Hnew).
  by exists bits_list, new.
Qed.

(** C4 (the code departs from the claim on [unit]).  When decoding a
    variant schema succeeds, the first output field is the
    discriminator: its name and description are those of the
    discriminator's definition and [bits] and [value] are both the raw
    extracted integer, unscaled whatever the declared type; the field
    carries no [unit] entry. *)
Theorem discriminator_field_first (bs : list byte) (id : Z) (name : string)
    (mode_def : field_def) (mdv : gmap Z (list field_def))
    (out : list decoded_field) :
  analyze_data bs (MultiMode id name mode_def mdv) = Ok out →
  ∃ m rest,
    extract_bits bs (d_start mode_def) (d_length mode_def) = Ok (Some m) ∧
    out = DecodedField (d_name mode_def) (PInt m) (PInt m) None
                       (d_desc mode_def) :: rest.
Proof.
  unfold analyze_data, select_values.
  destruct (extract_bits bs (d_start mode_def) (d_length mode_def))
    as [[m|]| |]; [|done..].
  cbn [mbind outcome_bind mode_lookup pyval_of_mode].
  destruct (mdv !! m) as [ds|]; [|done].
  cbn [py_key mbind outcome_bind]. intros Hdec.
  apply decode_values_inv in Hdec as (bits_list & new & _ & -> & _).
  by exists m, new.
Qed.

Lemma discriminator_field_first_witness :
  ∃ m rest,
    extract_bits [x1a] (d_start mode_field) (d_length mode_field) = Ok (Some m) ∧
    [DecodedField "mode" (PInt 1) (PInt 1) None "selector";
     DecodedField "a" (PInt 10) (PInt 10) (Some EmptyString) EmptyString] =
    DecodedField (d_name mode_field) (PInt m) (PInt m) None
                 (d_desc mode_field) :: rest.
Proof.
  apply (discriminator_field_first [x1a] 256 "msg" mode_field
           {[1 := [raw_field "a" 4 4]]}).
  vm_compute. reflexivity.
Defined.

(** C6. For a variant schema, when the discriminator's raw integer has
    no entry in [mode_dependent_values], [analyze_data] raises
    [KeyError]: the outcome is the exception alone, with no field
    list. *)
Theorem unknown_mode_raises (bs : list byte) (id : Z) (name : string)
    (mode_def : field_def) (mdv : gmap Z (list field_def)) (m : Z) :
  extract_bits bs (d_start mode_def) (d_length mode_def) = Ok (Some m) →
  mdv !! m = None →
  analyze_data bs (MultiMode id name mode_def mdv) = Raise KeyError.
Proof.
  intros Hmode Hkey. unfold analyze_data, select_values.
  rewrite Hmode. cbn [mbind outcome_bind mode_lookup]. by rewrite Hkey.
Qed.

Lemma unknown_mode_raises_witness :
  analyze_data [x2a] (MultiMode 256 "msg" mode_field
                        {[0 := [raw_field "a" 4 4]; 1 := [raw_field "b" 4 4]]})
    = Raise KeyError.
Proof.
  apply (unknown_mode_raises _ _ _ _ _ 2); vm_compute; reflexivity.
Defined.

(** C7. When the active field sequence (ascending starts, the first
    non-negative) is longer than the payload supports, [analyze_data]
    returns exactly the leading fields whose start lies inside the
    payload, in declaration order, each built from its definition and
    its chunk, and leaves the remaining definitions out without an
    error: the only way it can fail is a value of one of the leading
    fields that does not materialise.  Three fields at starts 0, 8 and
    16 on a one-byte payload give exactly the first field. *)
Theorem short_payload_leading_fields :
  (∀ (bs : list byte) (stbl : schema) (fields0 : list decoded_field)
     (ds : list field_def),
     let ss := map d_start ds in
     let chunks := chunk_values bs ss (8 * Z.of_nat (length bs)) in
     select_values bs stbl = Ok (fields0, ds) →
     ds ≠ [] → Sorted Z.le ss → 0 <= hd 0 ss →
     ((∃ out, analyze_data bs stbl = Ok out) ∨
      (∃ e, analyze_data bs stbl = Raise e ∧ scaling_error e))
     ∧ ((∀ j d raw, ds !! j = Some d → chunks !! j = Some raw →
           ∃ v, field_value d raw = Ok v) →
        ∃ new, analyze_data bs stbl = Ok (fields0 ++ new) ∧
          length new = length (filter (λ s, s < 8 * Z.of_nat (length bs)) ss) ∧
          (length new <= length ds)%nat ∧
          ∀ j f, new !! j = Some f →
            ∃ d raw v, ds !! j = Some d ∧ chunks !! j = Some raw ∧
              field_value d raw = Ok v ∧ f = field_of d raw v))
  ∧ analyze_data [xab]
      (Simple 256 "msg" [raw_field "a" 0 8; raw_field "b" 8 8; raw_field "c" 16 8])
    = Ok [field_of (raw_field "a" 0 8) 171 (PInt 171)].
Proof.
  split; [|reflexivity].
  intros bs stbl fields0 ds ss chunks Hsel Hne Hsorted Hhd.
  assert (Hsplit : split_bits bs ss (-1) = Ok chunks).
  { rewrite split_bits_chunks; try done.
    unfold ss. by destruct ds. }
  assert (Hle : (length chunks <= length ds)%nat).
  { etrans; [apply chunk_values_length_le|]. unfold ss. by rewrite length_map. }
  assert (Hrun : analyze_data bs stbl = convert ds chunks 0 fields0).
  { rewrite (analyze_data_selected _ _ _ _ Hsel).
    unfold decode_values. cbv zeta. fold ss. by rewrite Hsplit. }
  split; [rewrite Hrun; apply convert_outcome; lia|].
  intros Hval.
  destruct (convert_ok ds chunks 0 fields0) as [out Hout]; [lia|done|].
  assert (Hdec : decode_values bs ds fields0 = Ok out).
  { unfold decode_values. cbv zeta. fold ss. by rewrite Hsplit. }
  apply convert_inv in Hout as (new & -> & Hlen & Hnew).
  exists new. rewrite (analyze_data_selected _ _ _ _ Hsel).
  split; [done|]. split; [by rewrite Hlen; apply chunk_values_length|].
  split; [lia|].
  intros j f Hf.
  destruct (lookup_lt_is_Some_2 chunks j) as [raw Hraw];
    [rewrite <- Hlen; by eapply lookup_lt_Some|].
  destruct (Hnew j raw Hraw) as (d & v & Hd & Hv & Hj).
  exists d, raw, v. repeat split; try done. congruence.
Qed.

Lemma short_payload_leading_fields_witness :
  ∃ new,
    analyze_data [xab]
      (Simple 256 "msg" [raw_field "a" 0 4; raw_field "b" 4 4; raw_field "c" 8 8])
      = Ok ([] ++ new) ∧ length new = 2%nat.
Proof.
  destruct (proj1 short_payload_leading_fields [xab]
              (Simple 256 "msg"
                 [raw_field "a" 0 4; raw_field "b" 4 4; raw_field "c" 8 8])
              [] [raw_field "a" 0 4; raw_field "b" 4 4; raw_field "c" 8 8])
    as [_ Hfields].
  - reflexivity.
  - discriminate.
  - repeat constructor; cbn; lia.
  - cbn. lia.
  - destruct Hfields as (new & Hnew & Hlen & _).
    + intros [|[|[|j]]] d raw Hd Hraw; try discriminate;
        injection Hd as <-; eexists; reflexivity.
    + exists new. split; [exact Hnew|exact Hlen].
Defined.

(** C8. In a successful decode every raw integer returned by the split
    is paired with the definition at the same index; the decoded field
    has [bits] equal to the raw integer, and [value] equal to the raw
    integer when the definition's type is not ["float"].  For type
    ["float"] the value is [x * r + m] in binary64 arithmetic, where
    [x] is the binary64 number of the raw integer (the raw integer
    itself below [2 ^ 53], the IEEE 754 rounding of it in general) and
    [r], [m] are the resolution and the minimum, converted in the same
    way when they are integers.  A float field with resolution 0.5 and
    minimum -10 has value 0.0 on raw bits 20 and 117.5 on raw bits
    255. *)
Theorem decoded_field_value :
  (∀ (bs : list byte) (stbl : schema) (fields0 out : list decoded_field)
     (ds : list field_def),
     select_values bs stbl = Ok (fields0, ds) →
     analyze_data bs stbl = Ok out →
     ∃ bits_list,
       split_bits bs (map d_start ds) (-1) = Ok bits_list ∧
       ∀ j raw, bits_list !! j = Some raw →
         ∃ d f, ds !! j = Some d ∧
           out !! (length fields0 + j)%nat = Some f ∧
           f_bits f = PInt raw ∧
           (d_type d ≠ "float"%string → f_value f = PInt raw) ∧
           (d_type d = "float"%string →
              ∃ (res min : num) (x r m : float),
                d_resolution d = Some res ∧ d_minimum d = Some min ∧
                binary64_of raw x ∧ operand_of res r ∧ operand_of min m ∧
                f_value f = PFloat (x * r + m)%float))
  ∧ field_value scaled_field 20 = Ok (PFloat 0)
  ∧ field_value scaled_field 255 = Ok (PFloat 117.5)
  ∧ analyze_data [x14] (Simple 256 "msg" [scaled_field])
    = Ok [DecodedField "temp" (PInt 20) (PFloat 0) (Some "degC") "temperature"]
  ∧ analyze_data [xff] (Simple 256 "msg" [scaled_field])
    = Ok [DecodedField "temp" (PInt 255) (PFloat 117.5) (Some "degC")
            "temperature"].
Proof.
  split; [|repeat split; vm_compute; reflexivity].
  intros bs stbl fields0 out ds Hsel Hout.
  rewrite (analyze_data_selected _ _ _ _ Hsel) in Hout.
  apply decode_values_inv in Hout as (bits_list & new & Hsplit & -> & Hlen & Hnew).
  exists bits_list. split; [done|].
  intros j raw Hraw.
  destruct (Hnew j raw Hraw) as (d & v & Hd & Hv & Hj).
  exists d, (field_of d raw v). split; [done|].
  split; [by rewrite lookup_app_r, Nat.add_comm, Nat.add_sub by lia|].
  split; [done|]. split.
  - intros Hty. rewrite field_value_raw in Hv by done. by injection Hv as <-.
  - intros Hty. by apply field_value_float.
Qed.

Lemma decoded_field_value_witness :
  let ds := [scaled_field; raw_field "b" 8 8] in
  let out := [DecodedField "temp" (PInt 255) (PFloat 117.5) (Some "degC")
                "temperature";
              DecodedField "b" (PInt 3) (PInt 3) (Some EmptyString) EmptyString] in
  ∃ bits_list,
    split_bits [xff; x03] (map d_start ds) (-1) = Ok bits_list ∧
    ∀ j raw, bits_list !! j = Some raw →
      ∃ d f, ds !! j = Some d ∧
        out !! (length (@nil decoded_field) + j)%nat = Some f ∧
        f_bits f = PInt raw ∧
        (d_type d ≠ "float"%string → f_value f = PInt raw) ∧
        (d_type d = "float"%string →
           ∃ (res min : num) (x r m : float),
             d_resolution d = Some res ∧ d_minimum d = Some min ∧
             binary64_of raw x ∧ operand_of res r ∧ operand_of min m ∧
             f_value f = PFloat (x * r + m)%float).
Proof.
  intros ds out.
  apply (proj1 decoded_field_value [xff; x03] (Simple 256 "msg" ds) [] out ds).
  - reflexivity.
  - vm_compute. reflexivity.
Defined.

(** ** Properties of [hexstr_to_bytes] *)

(** C9, as the claim states it, fails: ["F"] and ["f"] decode to the
    same byte, so no re-encoding of the bytes gives back every original
    string, even up to the leading zero. *)
Lemma hex_round_trip_forgets_case :
  ¬ ∃ encode : list byte → string,
      ∀ s, all_hex s = true → Nat.odd (String.length s) = true →
        ∃ bs, hexstr_to_bytes s = Ok bs ∧ encode bs = String "0" s.
Proof.
  intros (encode & H).
  destruct (H "F"%string eq_refl eq_refl) as (bs1 & H1 & E1).
  destruct (H "f"%string eq_refl eq_refl) as (bs2 & H2 & E2).
  change (Ok [x0f] = Ok bs1) in H1. change (Ok [x0f] = Ok bs2) in H2.
  injection H1 as <-. injection H2 as <-. congruence.
Qed.

(** C9, amended.  A string of odd length is decoded exactly as the same
    string with one ['0'] in front; for a hexadecimal string of odd
    length decoding succeeds, and re-encoding the bytes in lower case
    gives the padded string up to letter case.  ["F"] and ["0F"] decode
    to the same bytes. *)
Theorem hexstr_to_bytes_odd_length :
  (∀ s, Nat.odd (String.length s) = true →
     hexstr_to_bytes s = hexstr_to_bytes (String "0" s))
  ∧ (∀ s, all_hex s = true → Nat.odd (String.length s) = true →
       ∃ bs, hexstr_to_bytes s = Ok bs ∧
             hex_encode bs = lower (String "0" s))
  ∧ hexstr_to_bytes "F" = hexstr_to_bytes "0F".
Proof.
  split; [|split; [|reflexivity]].
  - intros s Hodd. destruct (pad_even_odd s Hodd) as [Hp Hp0].
    by rewrite !hexstr_to_bytes_pad, Hp, Hp0.
  - intros s Hhex Hodd. destruct (pad_even_odd s Hodd) as [Hp _].
    destruct (hexstr_to_bytes_hex s Hhex) as [Hdec Henc].
    rewrite Hp in Hdec, Henc. by eexists.
Qed.

Lemma hexstr_to_bytes_odd_length_witness :
  hexstr_to_bytes "1aB" = hexstr_to_bytes "01aB" ∧
  ∃ bs, hexstr_to_bytes "1aB" = Ok bs ∧ hex_encode bs = lower "01aB".
Proof.
  split.
  - apply (proj1 hexstr_to_bytes_odd_length "1aB"%string). reflexivity.
  - apply (proj1 (proj2 hexstr_to_bytes_odd_length) "1aB"%string); reflexivity.
Defined.

(** ** Properties of [load_stbl] *)

Lemma has_id_true (c : Z) (r : record) :
  int16 (r_id r) = Ok c → has_id c r = true.
Proof. intros H. unfold has_id. rewrite H. apply Z.eqb_refl. Qed.

(** C10. For every sequence of raw records, the table built by
    [load_stbl] holds, for each identifier, the entry made from the
    first record with that identifier; a later record whose identifier
    is already present is skipped: the table is the same as if it were
    not in the sequence. *)
Theorem load_stbl_first_wins :
  (∀ (rs : list record) (tbl : gmap Z schema),
     load_stbl rs = Ok tbl →
     ∀ c e, tbl !! c = Some e ↔
       ∃ r, find (has_id c) rs = Some r ∧ make_entry c r = Ok e)
  ∧ (∀ (pre mid post : list record) (r0 r : record) (c : Z),
       int16 (r_id r0) = Ok c → int16 (r_id r) = Ok c →
       load_stbl (pre ++ r0 :: mid ++ r :: post) =
       load_stbl (pre ++ r0 :: mid ++ post)).
Proof.
  split.
  - intros rs tbl Hload c e.
    pose proof (load_records_lookup rs ∅ tbl Hload c) as Hc.
    rewrite lookup_empty in Hc.
    destruct (find (has_id c) rs) as [r|].
    + destruct Hc as (e' & He' & Hlook). split.
      * intros He. exists r. split; [done|]. congruence.
      * intros (r' & [= <-] & He). congruence.
    + split; [congruence|]. by intros (r' & ? & _).
  - intros pre mid post r0 r c Hr0 Hr. unfold load_stbl.
    replace (pre ++ r0 :: mid ++ r :: post)
      with ((pre ++ r0 :: mid) ++ r :: post) by (by rewrite <- app_assoc).
    replace (pre ++ r0 :: mid ++ post)
      with ((pre ++ r0 :: mid) ++ post) by (by rewrite <- app_assoc).
    rewrite !(load_records_app (pre ++ r0 :: mid)).
    destruct (load_records (pre ++ r0 :: mid) ∅) as [t| |] eqn:Hpre; [|done..].
    run_bind.
    apply (load_records_skip r post t c Hr).
    pose proof (load_records_lookup _ _ _ Hpre c) as Hc.
    rewrite lookup_empty in Hc.
    destruct (find_has_id_app c pre mid r0 (has_id_true c r0 Hr0)) as [r' Hfind].
    rewrite Hfind in Hc. destruct Hc as (e & _ & He). by exists e.
Qed.

Lemma load_stbl_first_wins_witness :
  let first := Record_ "1A" "classic" [raw_field "a" 0 8] in
  let later := Record_ "0x1a" "fd" [raw_field "a" 0 8; raw_field "b" 8 8] in
  (∀ c e,
     ({[26 := Simple 26 "classic" [raw_field "a" 0 8]]} : gmap Z schema) !! c
       = Some e ↔
     ∃ r, find (has_id c) [first; later] = Some r ∧ make_entry c r = Ok e)
  ∧ load_stbl ([] ++ first :: [] ++ later :: []) =
    load_stbl ([] ++ first :: [] ++ []).
Proof.
  intros first later. split.
  - apply (proj1 load_stbl_first_wins [first; later]).
    vm_compute. reflexivity.
  - apply (proj2 load_stbl_first_wins [] [] [] first later 26); reflexivity.
Defined.

(** * Further properties of the code *)

(** ** [split_bits] on arbitrary offsets *)

(** However the offsets are ordered, a completed run of the outer loop
    has appended at most one integer per offset not yet passed. *)
Lemma outer_loop_length (bs : list byte) (ss : list Z) (end_pos : Z) :
  ∀ (fuel k : nat) (p : Z) (acc l : list Z),
    ((length ss <= k)%nat → end_pos <= p) →
    outer_loop fuel bs ss end_pos p (p / 8) k
      (next_boundary ss k end_pos) acc = Ok l →
    (length l <= length acc + (length ss - k))%nat.
Proof.
  induction fuel as [|fuel IH]; intros k p acc l Hk Hrun.
  - destruct (Z.le_gt_cases end_pos p) as [Hge|Hlt].
    + rewrite outer_loop_done in Hrun by done. injection Hrun as <-. lia.
    + cbn in Hrun. by destruct (Z.ltb_spec p end_pos); [|lia].
  - destruct (Z.le_gt_cases end_pos p) as [Hge|Hlt].
    { rewrite outer_loop_done in Hrun by done. injection Hrun as <-. lia. }
    assert (Hlt_k : (k < length ss)%nat).
    { destruct (Nat.le_gt_cases (length ss) k) as [Hle|]; [|done].
      specialize (Hk Hle). lia. }
    rewrite outer_loop_step in Hrun by done.
    pose proof (next_boundary_le ss k end_pos) as Hnb.
    destruct (inner_loop_total (Z.to_nat (next_boundary ss k end_pos - p)) bs
                (next_boundary ss k end_pos) p 0) as [[b Hok]|Hraise];
      [lia| |by rewrite Hraise in Hrun].
    rewrite Hok in Hrun. cbn [mbind outcome_bind pos b_index bits] in Hrun.
    apply IH in Hrun.
    + rewrite length_app in Hrun. cbn in Hrun. lia.
    + intros Hlast. rewrite (next_boundary_last ss k) by lia. lia.
Qed.

(** A returned list never has more integers than there are offsets. *)
Lemma split_bits_length (bs : list byte) (ss : list Z) (end_ : Z) (l : list Z) :
  split_bits bs ss end_ = Ok l → (length l <= length ss)%nat.
Proof.
  destruct ss as [|s rest]; [by intros [= <-]|].
  rewrite split_bits_unfold. cbv zeta. intros Hl.
  apply outer_loop_length in Hl; [cbn in *; lia|cbn; lia].
Qed.

(** X1. For every buffer, every offsets list (in any order, negative
    offsets included) and every end position, [split_bits] stops and
    either returns a list with at most one integer per offset or raises
    [IndexError]; no other exception is possible. *)
Theorem split_bits_total_bounded (bs : list byte) (ss : list Z) (end_ : Z) :
  (∃ l, split_bits bs ss end_ = Ok l ∧ (length l <= length ss)%nat)
  ∨ split_bits bs ss end_ = Raise IndexError.
Proof.
  destruct ss as [|s rest]; [by right|].
  rewrite split_bits_unfold. cbv zeta.
  set (end_pos := if end_ <? 0 then 8 * Z.of_nat (length bs) else end_).
  destruct (outer_loop_total bs (s :: rest) end_pos (S (length (s :: rest))) 0 s [])
    as [[l Hl]|Hraise]; [cbn; lia| |by right].
  left. exists l. split; [done|].
  apply outer_loop_length in Hl; [cbn in *; lia|cbn; lia].
Qed.

(** With the end position inside the buffer and the cursor
    non-negative, no round of the outer loop reads past the buffer,
    whatever the order of the offsets. *)
Lemma outer_loop_in_bounds (bs : list byte) (ss : list Z) (end_pos : Z) :
  end_pos <= 8 * Z.of_nat (length bs) →
  ∀ (fuel k : nat) (p : Z) (acc : list Z),
    (1 + (length ss - S k) <= fuel)%nat → 0 <= p →
    ∃ l, outer_loop fuel bs ss end_pos p (p / 8) k
           (next_boundary ss k end_pos) acc = Ok l.
Proof.
  intros Hend. induction fuel as [|fuel IH]; intros k p acc Hfuel Hp; [lia|].
  destruct (Z.le_gt_cases end_pos p) as [Hge|Hlt].
  { exists acc. by apply outer_loop_done. }
  rewrite outer_loop_step by done.
  pose proof (next_boundary_le ss k end_pos) as Hnb.
  set (next := next_boundary ss k end_pos) in *.
  assert (Hinner : ∃ c, inner_loop (Z.to_nat (next - p)) bs next
                          (Cursor p (next - p) (p / 8) 0) = Ok c
                        ∧ pos c = Z.max p next ∧ b_index c = Z.max p next / 8).
  { destruct (Z.le_gt_cases next p).
    - eexists. rewrite inner_loop_done by (cbn; lia).
      split; [done|]. cbn. by rewrite Z.max_l by lia.
    - eexists. rewrite inner_loop_value by lia.
      split; [done|]. cbn. by rewrite Z.max_r by lia. }
  destruct Hinner as (c & -> & Hpos & Hidx). run_bind. rewrite Hpos, Hidx.
  destruct (Nat.le_gt_cases (length ss) (S k)) as [Hlast|Hmore].
  - eexists. apply outer_loop_done. unfold next.
    rewrite (next_boundary_last ss k) by done. lia.
  - apply IH; lia.
Qed.

(** X2. With a non-empty offsets list whose first offset is not
    negative and an end position inside the buffer (in particular the
    default one), [split_bits] never raises, even when the offsets are
    not ascending or lie past the end of the buffer. *)
Theorem split_bits_in_bounds_returns (bs : list byte) (ss : list Z) (end_ : Z) :
  ss ≠ [] → 0 <= hd 0 ss →
  (if end_ <? 0 then 8 * Z.of_nat (length bs) else end_)
    <= 8 * Z.of_nat (length bs) →
  ∃ l, split_bits bs ss end_ = Ok l.
Proof.
  intros Hne Hhd Hend. destruct ss as [|s rest]; [done|]. cbn [hd] in Hhd.
  rewrite split_bits_unfold. cbv zeta.
  apply outer_loop_in_bounds; [done|cbn; lia|done].
Qed.

Lemma split_bits_in_bounds_returns_witness :
  ∃ l, split_bits [xab; xcd] [12; 4; 40; 0] (-1) = Ok l.
Proof.
  apply (split_bits_in_bounds_returns [xab; xcd] [12; 4; 40; 0] (-1)).
  - discriminate.
  - cbn. lia.
  - cbn. lia.
Defined.

(** ** The size of the extracted integers *)

Lemma bit_at_range (bs : list byte) (p : Z) : 0 <= bit_at bs p <= 1.
Proof.
  unfold bit_at. destruct (bs !! _); [|lia].
  by destruct (Z.testbit _ _).
Qed.

Lemma msb_first_range (bs : list byte) (start : Z) (n : nat) :
  0 <= msb_first bs start n < 2 ^ Z.of_nat n.
Proof.
  induction n as [|n IH]; [cbn; lia|].
  cbn [msb_first]. rewrite Nat2Z.inj_succ, Z.pow_succ_r by lia.
  pose proof (bit_at_range bs (start + Z.of_nat n)). lia.
Qed.

Lemma range_value_range (bs : list byte) (a b : Z) :
  a <= b → 0 <= range_value bs a b < 2 ^ (b - a).
Proof.
  intros H. unfold range_value.
  pose proof (msb_first_range bs a (Z.to_nat (b - a))) as Hr.
  by rewrite Z2Nat.id in Hr by lia.
Qed.

(** X3. An integer returned by [extract_bits] for a range of [l] bits
    ([s >= 0], [l > 0]) is non-negative and below [2 ^ l]. *)
Theorem extract_bits_fits_width (bs : list byte) (s l v : Z) :
  0 <= s → 0 < l → extract_bits bs s l = Ok (Some v) → 0 <= v < 2 ^ l.
Proof.
  intros Hs Hl Hex.
  destruct (Z.le_gt_cases (s + l) (8 * Z.of_nat (length bs))) as [Hin|Hout].
  - destruct (extract_bits_value bs s l Hs Hl Hin) as [_ Hv].
    rewrite Hv in Hex. injection Hex as <-.
    pose proof (range_value_range bs s (s + l) ltac:(lia)) as Hr.
    by replace (s + l - s) with l in Hr by lia.
  - destruct (extract_bits_past bs s l Hs Hl Hout) as [_ Hv]. congruence.
Qed.

Lemma extract_bits_fits_width_witness : 0 <= 188 < 2 ^ 8.
Proof.
  apply (extract_bits_fits_width [xab; xcd] 4 8 188); [lia|lia|reflexivity].
Defined.

(** ** How extractions compose *)

(** X4. Batch splitting agrees with independent extraction: for
    ascending offsets within [[0, end]] and [end] inside the buffer,
    every integer of [split_bits(B, O, end)] whose chunk is not empty is
    what [extract_bits] returns for that chunk alone, and the integer of
    an empty chunk is 0. *)
Theorem split_bits_chunkwise_extract (bs : list byte) (ss : list Z)
    (end_ : Z) (l : list Z) :
  ss ≠ [] → Sorted Z.le ss → Forall (λ s, 0 <= s <= end_) ss →
  end_ <= 8 * Z.of_nat (length bs) →
  split_bits bs ss end_ = Ok l →
  ∀ k v start, l !! k = Some v → ss !! k = Some start →
    let stop := default end_ (ss !! S k) in
    (start < stop → extract_bits bs start (stop - start) = Ok (Some v)) ∧
    (start = stop → v = 0).
Proof.
  intros Hne Hsorted Hall Hend Hsplit k v start Hv Hstart stop.
  assert (Hhd : 0 <= hd 0 ss <= end_).
  { destruct ss as [|s rest]; [done|]. by apply Forall_cons in Hall as [? _]. }
  rewrite split_bits_chunks in Hsplit; try done; try lia;
    [|by destruct (Z.ltb_spec end_ 0); [lia|]].
  destruct (Z.ltb_spec end_ 0); [lia|]. injection Hsplit as <-.
  apply chunk_values_lookup_bounded in Hv as (start' & Hstart' & ->); [|done].
  rewrite Hstart in Hstart'. injection Hstart' as <-. fold stop.
  assert (Hs : 0 <= start <= end_).
  { rewrite Forall_forall in Hall. apply Hall.
    by eapply list_elem_of_lookup_2. }
  assert (Hstop : stop <= end_).
  { unfold stop. destruct (ss !! S k) as [x|] eqn:Hx; cbn; [|lia].
    rewrite Forall_forall in Hall.
    apply list_elem_of_lookup_2 in Hx. specialize (Hall _ Hx). lia. }
  split.
  - intros Hlt.
    destruct (extract_bits_value bs start (stop - start)) as [_ Hex]; [lia..|].
    rewrite Hex. do 3 f_equal. lia.
  - intros <-. apply range_value_empty.
Qed.

Lemma split_bits_chunkwise_extract_witness :
  (4 < default 16 ([0; 4; 12] !! 2%nat) →
     extract_bits [xab; xcd] 4 (default 16 ([0; 4; 12] !! 2%nat) - 4)
       = Ok (Some 188)) ∧
  (4 = default 16 ([0; 4; 12] !! 2%nat) → 188 = 0).
Proof.
  apply (split_bits_chunkwise_extract [xab; xcd] [0; 4; 12] 16 [10; 188; 13]
           ltac:(discriminate) ltac:(repeat constructor; lia)
           ltac:(repeat constructor; lia) ltac:(cbn; lia) eq_refl
           1%nat 188 4 eq_refl eq_refl).
Defined.

(** X5. Adjacent ranges concatenate: for [0 <= a < b < c] inside the
    buffer, the integer extracted from [[a, c)] is the integer of
    [[a, b)] shifted left by [c - b] bits plus the integer of
    [[b, c)]. *)
Theorem extract_bits_concat (bs : list byte) (a b c : Z) :
  0 <= a → a < b → b < c → c <= 8 * Z.of_nat (length bs) →
  ∃ x y z,
    extract_bits bs a (b - a) = Ok (Some x) ∧
    extract_bits bs b (c - b) = Ok (Some y) ∧
    extract_bits bs a (c - a) = Ok (Some z) ∧
    z = Z.shiftl x (c - b) + y.
Proof.
  intros Ha Hab Hbc Hc.
  exists (range_value bs a b), (range_value bs b c), (range_value bs a c).
  destruct (extract_bits_value bs a (b - a)) as [_ H1]; [lia..|].
  destruct (extract_bits_value bs b (c - b)) as [_ H2]; [lia..|].
  destruct (extract_bits_value bs a (c - a)) as [_ H3]; [lia..|].
  replace (a + (b - a)) with b in H1 by lia.
  replace (b + (c - b)) with c in H2 by lia.
  replace (a + (c - a)) with c in H3 by lia.
  repeat split; try done.
  rewrite Z.shiftl_mul_pow2 by lia. apply range_value_split. lia.
Qed.

Lemma extract_bits_concat_witness :
  ∃ x y z,
    extract_bits [xab; xcd] 4 (8 - 4) = Ok (Some x) ∧
    extract_bits [xab; xcd] 8 (12 - 8) = Ok (Some y) ∧
    extract_bits [xab; xcd] 4 (12 - 4) = Ok (Some z) ∧
    z = Z.shiftl x (12 - 8) + y.
Proof.
  apply (extract_bits_concat [xab; xcd] 4 8 12); cbn; lia.
Defined.

(** ** The whole buffer as one integer *)

Lemma bit_at_app_l (bs tl : list byte) (p : Z) :
  0 <= p < 8 * Z.of_nat (length bs) → bit_at (bs ++ tl) p = bit_at bs p.
Proof.
  intros Hp. unfold bit_at. rewrite lookup_app_l; [done|].
  assert (0 <= p / 8 < Z.of_nat (length bs))
    by (split; [apply Z.div_pos | apply Z.div_lt_upper_bound]; lia).
  lia.
Qed.

Lemma msb_first_app_l (bs tl : list byte) (start : Z) (n : nat) :
  0 <= start → start + Z.of_nat n <= 8 * Z.of_nat (length bs) →
  msb_first (bs ++ tl) start n = msb_first bs start n.
Proof.
  intros Hstart. induction n as [|n IH]; intros Hn; [done|].
  cbn [msb_first]. rewrite IH, bit_at_app_l by lia. done.
Qed.

Lemma byte_bits_whole (b : byte) : byte_bits (byte_val b) 0 8 = byte_val b.
Proof. destruct b; reflexivity. Qed.

Lemma be_int_snoc (bs : list byte) (b : byte) :
  be_int (bs ++ [b]) = be_int bs * 256 + byte_val b.
Proof. unfold be_int. by rewrite fold_left_app. Qed.

Lemma range_value_whole (bs : list byte) :
  range_value bs 0 (8 * Z.of_nat (length bs)) = be_int bs.
Proof.
  induction bs as [|b bs IH] using rev_ind; [done|].
  rewrite length_app, Nat2Z.inj_add. cbn [length].
  rewrite (range_value_split (bs ++ [b]) 0 (8 * Z.of_nat (length bs))) by lia.
  rewrite be_int_snoc, <- IH. f_equal.
  - f_equal.
    + unfold range_value. apply msb_first_app_l; lia.
    + replace (8 * (Z.of_nat (length bs) + Z.of_nat 1)
               - 8 * Z.of_nat (length bs)) with 8 by lia. done.
  - unfold range_value.
    replace (Z.to_nat (8 * (Z.of_nat (length bs) + Z.of_nat 1)
                       - 8 * Z.of_nat (length bs))) with 8%nat by lia.
    replace (8 * Z.of_nat (length bs)) with (8 * Z.of_nat (length bs) + 0) by lia.
    rewrite (msb_first_in_byte (bs ++ [b]) (length bs) b 0 8); try lia.
    + apply byte_bits_whole.
    + by rewrite lookup_app_r, Nat.sub_diag by lia.
Qed.

(** X6. Extracting all the bits of a non-empty buffer as one range
    gives the big-endian integer of its bytes. *)
Theorem extract_bits_whole_buffer (bs : list byte) :
  bs ≠ [] →
  extract_bits bs 0 (8 * Z.of_nat (length bs)) = Ok (Some (be_int bs)).
Proof.
  intros Hne.
  destruct (extract_bits_value bs 0 (8 * Z.of_nat (length bs))) as [_ Hex];
    [lia|destruct bs; [done|cbn; lia]|lia|].
  rewrite Hex, Z.add_0_l. by rewrite range_value_whole.
Qed.

Lemma extract_bits_whole_buffer_witness :
  extract_bits [xab; xcd] 0 (8 * Z.of_nat (length [xab; xcd]))
    = Ok (Some (be_int [xab; xcd])).
Proof. apply (extract_bits_whole_buffer [xab; xcd]). discriminate. Defined.

(** ** More on [hexstr_to_bytes] *)

Lemma alnum_pair_check_all_true : alnum_pair_check_all = true.
Proof. vm_compute. reflexivity. Qed.

Lemma alnum_pair_rejected (a b : ascii) :
  is_alnum a = true → is_alnum b = true →
  digit_value a = None ∨ digit_value b = None →
  int16 (String a (String b EmptyString)) = Raise ValueError.
Proof.
  intros Ha Hb Hnone.
  pose proof alnum_pair_check_all_true as Hc.
  unfold alnum_pair_check_all in Hc.
  pose proof (proj1 (forallb_forall _ _) Hc a (in_all_ascii a)) as Hrow.
  cbv beta in Hrow. rewrite Ha in Hrow.
  pose proof (proj1 (forallb_forall _ _) Hrow b (in_all_ascii b)) as Hab.
  unfold alnum_pair_check in Hab. rewrite Ha, Hb in Hab. cbn [andb] in Hab.
  clear Hc Hrow.
  destruct (digit_value a) as [x|], (digit_value b) as [y|];
    [destruct Hnone; discriminate| | |];
    (destruct (int16 _) as [v|[]|];
     first [reflexivity | discriminate Hab]).
Qed.

Lemma parse_slices_alnum (n : nat) :
  ∀ (s : string) (acc : list Z),
    String.length s = (2 * n)%nat → all_alnum s = true → all_hex s = false →
    parse_slices (slices s) acc = Raise ValueError.
Proof.
  induction n as [|n IH]; intros s acc Hlen Halnum Hhex.
  - by destruct s.
  - destruct s as [|a [|b r]]; [done|cbn in Hlen; lia|].
    cbn [all_alnum] in Halnum.
    apply andb_prop in Halnum as [Ha Halnum].
    apply andb_prop in Halnum as [Hb Halnum].
    cbn [slices parse_slices]. cbn [all_hex] in Hhex.
    destruct (digit_value a) as [x|] eqn:Hda;
      [|by rewrite alnum_pair_rejected by (done || by left)].
    destruct (digit_value b) as [y|] eqn:Hdb;
      [|by rewrite alnum_pair_rejected by (done || by right)].
    destruct (hex_pair a b x y Hda Hdb) as (byte & _ & -> & _).
    run_bind. apply IH; [cbn in Hlen; lia|done|done].
Qed.

(** X7. On alphanumeric text (what [analyze] hands over), a character
    that is not a hexadecimal digit makes [hexstr_to_bytes] raise
    [ValueError]; no bytes are returned. *)
Theorem hexstr_to_bytes_rejects_non_hex (s : string) :
  all_alnum s = true → all_hex s = false →
  hexstr_to_bytes s = Raise ValueError.
Proof.
  intros Halnum Hhex. rewrite hexstr_to_bytes_pad.
  destruct (pad_even_length s) as [n Hn].
  rewrite (parse_slices_alnum n); [done|done| |];
    unfold pad_even; by destruct (Nat.even _).
Qed.

Lemma hexstr_to_bytes_rejects_non_hex_witness :
  hexstr_to_bytes "1A2G5" = Raise ValueError.
Proof. apply (hexstr_to_bytes_rejects_non_hex "1A2G5"); reflexivity. Defined.

(** X8. A hexadecimal string of [n] digits decodes to [(n + 1) / 2]
    bytes. *)
Theorem hexstr_to_bytes_length (s : string) :
  all_hex s = true →
  ∃ bs, hexstr_to_bytes s = Ok bs ∧
        length bs = ((String.length s + 1) / 2)%nat.
Proof.
  intros Hhex. destruct (hexstr_to_bytes_hex s Hhex) as [Hdec _].
  exists (hex_bytes (pad_even s)). split; [done|].
  destruct (pad_even_length s) as [n Hn].
  destruct (parse_slices_hex n (pad_even s) [] Hn (pad_even_hex s Hhex))
    as (_ & _ & ->).
  unfold pad_even in Hn. destruct (Nat.even (String.length s)).
  - rewrite Hn. apply (Nat.div_unique _ 2 n 1); lia.
  - cbn [String.length] in Hn. replace (String.length s + 1)%nat
      with (2 * n)%nat by lia.
    apply (Nat.div_unique _ 2 n 0); lia.
Qed.

Lemma hexstr_to_bytes_length_witness :
  ∃ bs, hexstr_to_bytes "1aB" = Ok bs ∧
        length bs = ((String.length "1aB" + 1) / 2)%nat.
Proof. apply (hexstr_to_bytes_length "1aB"). reflexivity. Defined.

Lemma hex_encode_byte (b : byte) :
  is_Some (digit_value (hex_char (byte_val b / 16))) ∧
  is_Some (digit_value (hex_char (byte_val b mod 16))) ∧
  pair_byte (hex_char (byte_val b / 16)) (hex_char (byte_val b mod 16)) = Some b.
Proof. destruct b; (split; [by eexists|split; [by eexists|reflexivity]]). Qed.

Lemma hex_encode_decodable (bs : list byte) :
  all_hex (hex_encode bs) = true ∧
  Nat.even (String.length (hex_encode bs)) = true ∧
  hex_bytes (hex_encode bs) = bs.
Proof.
  induction bs as [|b bs (IH1 & IH2 & IH3)]; [done|].
  destruct (hex_encode_byte b) as ([x Hx] & [y Hy] & Hpair).
  cbn [hex_encode all_hex String.length hex_bytes].
  rewrite Hx, Hy, Hpair, IH3. done.
Qed.

(** X9. Decoding the lower-case hexadecimal rendering of any byte
    sequence gives the byte sequence back. *)
Theorem hexstr_to_bytes_of_hex_encode (bs : list byte) :
  hexstr_to_bytes (hex_encode bs) = Ok bs.
Proof.
  destruct (hex_encode_decodable bs) as (Hhex & Heven & Hbytes).
  destruct (hexstr_to_bytes_hex _ Hhex) as [-> _].
  unfold pad_even. by rewrite Heven, Hbytes.
Qed.

(** ** More on [load_stbl] *)

(** What the scan of a record's values accumulates: the last value
    flagged as mode signal, and under every key the values filed under
    it, in declaration order. *)
Lemma scan_values_spec (vs : list field_def) :
  ∀ (mode mode' : option field_def) (mdv mdv' : gmap Z (list field_def)),
    scan_values vs mode mdv = Ok (mode', mdv') →
    mode' = from_option Some mode (last (List.filter is_mode_signal vs)) ∧
    (∀ k, default [] (mdv' !! k) =
          default [] (mdv !! k) ++ List.filter (filed_under k) vs) ∧
    ((∀ k, mdv !! k ≠ Some []) → ∀ k, mdv' !! k ≠ Some []).
Proof.
  induction vs as [|v vs IH]; intros mode mode' mdv mdv' Hscan.
  - injection Hscan as <- <-. split; [done|]. split; [|done].
    intros k. by rewrite app_nil_r.
  - cbn [scan_values] in Hscan. cbn [List.filter]. unfold filed_under at 1.
    unfold is_mode_signal at 1.
    destruct (String.eqb (d_mode_dependent v) EmptyString) eqn:Hempty.
    + apply IH in Hscan as (-> & Hmdv & Hne).
      split; [|split; [|done]].
      * destruct (d_mode_signal v =? 1); [|done].
        rewrite last_cons. by destruct (last _).
      * intros k. by rewrite Hmdv.
    + destruct (int16 (d_mode_dependent v)) as [key| |]; [|done..].
      run_bind in Hscan. apply IH in Hscan as (-> & Hmdv & Hne).
      split; [|split].
      * destruct (d_mode_signal v =? 1); [|done].
        rewrite last_cons. by destruct (last _).
      * intros k. rewrite Hmdv. cbn [negb andb].
        destruct (Z.eqb_spec key k) as [->|Hk].
        -- rewrite lookup_insert_eq. cbn. by rewrite <- app_assoc.
        -- by rewrite lookup_insert_ne.
      * intros Hmdv0. apply Hne. intros k.
        destruct (decide (key = k)) as [->|Hk].
        -- rewrite lookup_insert_eq. intros [= H]. by destruct (default _ _).
        -- rewrite lookup_insert_ne by done. apply Hmdv0.
Qed.

(** An entry made for an identifier carries that identifier. *)
Lemma make_entry_id (c : Z) (r : record) (e : schema) :
  make_entry c r = Ok e → schema_id e = c.
Proof.
  unfold make_entry.
  destruct (scan_values (r_values r) None ∅) as [[mode mdv]| |]; [|done..].
  run_bind. intros [= <-]. by destruct mode.
Qed.

(** X10. The table entry made from a record: when no value is flagged
    [mode_signal = 1] it is the simple entry holding the record's values
    verbatim; otherwise it is a variant entry whose discriminator is the
    last flagged value.  It carries the record's name and the given
    identifier. *)
Theorem make_entry_shape (c : Z) (r : record) (e : schema) :
  make_entry c r = Ok e →
  schema_id e = c ∧ schema_name e = r_name r ∧
  match last (List.filter is_mode_signal (r_values r)) with
  | None => e = Simple c (r_name r) (r_values r)
  | Some m => ∃ mdv, e = MultiMode c (r_name r) m mdv
  end.
Proof.
  unfold make_entry.
  destruct (scan_values (r_values r) None ∅) as [[mode mdv]| |] eqn:Hscan;
    [|done..].
  run_bind. intros [= <-].
  apply scan_values_spec in Hscan as (-> & _ & _).
  destruct (last _) as [m|]; cbn; [|done].
  repeat split; by eexists.
Qed.

Lemma make_entry_shape_witness :
  schema_id (MultiMode 26 "msg" mode_field ∅) = 26 ∧
  schema_name (MultiMode 26 "msg" mode_field ∅) = "msg"%string ∧
  match last (List.filter is_mode_signal
                [raw_field "a" 0 8; mode_field]) with
  | None => MultiMode 26 "msg" mode_field ∅
            = Simple 26 "msg" [raw_field "a" 0 8; mode_field]
  | Some m => ∃ mdv, MultiMode 26 "msg" mode_field ∅
                     = MultiMode 26 "msg" m mdv
  end.
Proof.
  apply (make_entry_shape 26 (Record_ "1A" "msg" [raw_field "a" 0 8; mode_field])).
  vm_compute. reflexivity.
Defined.

(** X11. In a variant entry made from a record, [mode_dependent_values]
    has a key exactly for the integers some value is filed under, and
    the list under a key holds the values filed under it in declaration
    order; no list is empty. *)
Theorem make_entry_mode_dependent_values (c : Z) (r : record) (id : Z)
    (name : string) (m : field_def) (mdv : gmap Z (list field_def)) :
  make_entry c r = Ok (MultiMode id name m mdv) →
  ∀ k l, mdv !! k = Some l ↔
    l ≠ [] ∧ l = List.filter (filed_under k) (r_values r).
Proof.
  unfold make_entry.
  destruct (scan_values (r_values r) None ∅) as [[mode mdv0]| |] eqn:Hscan;
    [|done..].
  run_bind. destruct mode as [m0|]; intros [= <- <- <- <-].
  apply scan_values_spec in Hscan as (_ & Hmdv & Hne).
  intros k l. specialize (Hmdv k). rewrite lookup_empty in Hmdv.
  cbn in Hmdv. specialize (Hne ltac:(intros k'; by rewrite lookup_empty) k).
  destruct (mdv0 !! k) as [l0|] eqn:Hk; cbn in Hmdv.
  - split.
    + intros [= <-]. split; [by intros ->|done].
    + intros [_ ->]. by rewrite Hmdv.
  - split; [done|]. intros [Hl ->]. by rewrite <- Hmdv in Hl.
Qed.

Lemma make_entry_mode_dependent_values_witness :
  let a := FieldDef "a" 4 4 "raw" None None "u" "d" 0 "1" in
  let b := FieldDef "b" 4 4 "raw" None None "u" "d" 0 "2" in
  let c := FieldDef "c" 8 8 "raw" None None "u" "d" 0 "0x1" in
  ({[1 := [a; c]; 2 := [b]]} : gmap Z (list field_def)) !! 1 = Some [a; c] ↔
    [a; c] ≠ [] ∧ [a; c] = List.filter (filed_under 1) [mode_field; a; b; c].
Proof.
  intros a b c.
  apply (make_entry_mode_dependent_values 26
           (Record_ "1A" "msg" [mode_field; a; b; c]) 26 "msg" mode_field).
  vm_compute. reflexivity.
Defined.

(** X12. Building the table aborts at the first record that fails: when
    the records before it load, a record whose identifier does not
    parse, or whose identifier is new and whose values do not scan,
    makes [load_stbl] raise that error whatever follows; no table is
    returned. *)
Theorem load_stbl_aborts (pre post : list record) (r : record)
    (t : gmap Z schema) (e : exn) :
  load_stbl pre = Ok t →
  (int16 (r_id r) = Raise e
   ∨ ∃ c, int16 (r_id r) = Ok c ∧ t !! c = None ∧ make_entry c r = Raise e) →
  load_stbl (pre ++ r :: post) = Raise e.
Proof.
  intros Hpre Hbad. unfold load_stbl in *.
  rewrite load_records_app, Hpre. run_bind. cbn [load_records].
  destruct Hbad as [->|(c & -> & Hc & Hentry)]; [done|].
  run_bind. by rewrite Hc, Hentry.
Qed.

Lemma load_stbl_aborts_witness :
  load_stbl ([Record_ "1A" "first" [raw_field "a" 0 8]]
               ++ Record_ "1G" "bad" [] :: [Record_ "2B" "later" []])
    = Raise ValueError.
Proof.
  apply (load_stbl_aborts _ _ _ {[26 := Simple 26 "first" [raw_field "a" 0 8]]}).
  - vm_compute. reflexivity.
  - left. reflexivity.
Defined.

(** X13. Every entry of a table built by [load_stbl] carries the key it
    is stored under as its identifier, and the keys are exactly the
    identifiers the records parse to. *)
Theorem load_stbl_keys (rs : list record) (tbl : gmap Z schema) :
  load_stbl rs = Ok tbl →
  (∀ c e, tbl !! c = Some e → schema_id e = c) ∧
  (∀ c, is_Some (tbl !! c) ↔ ∃ r, r ∈ rs ∧ int16 (r_id r) = Ok c).
Proof.
  intros Hload. split.
  - intros c e He.
    pose proof (load_records_lookup rs ∅ tbl Hload c) as Hc.
    rewrite lookup_empty in Hc.
    destruct (find (has_id c) rs) as [r|]; [|congruence].
    destruct Hc as (e' & Hentry & He'). rewrite He in He'. injection He' as <-.
    by apply make_entry_id in Hentry.
  - intros c.
    pose proof (load_records_lookup rs ∅ tbl Hload c) as Hc.
    rewrite lookup_empty in Hc.
    destruct (find (has_id c) rs) as [r|] eqn:Hfind.
    + destruct Hc as (e & _ & He). split; [|by eexists].
      intros _. apply find_some in Hfind as [Hin Hid].
      exists r. split; [by apply list_elem_of_In|].
      unfold has_id in Hid. destruct (int16 (r_id r)) as [c'| |]; [|done..].
      apply Z.eqb_eq in Hid. by subst.
    + rewrite Hc. split; [by intros [? ?]|].
      intros (r & Hin & Hid). apply list_elem_of_In in Hin.
      pose proof (find_none _ _ Hfind r Hin) as Hno.
      by rewrite (has_id_true c r Hid) in Hno.
Qed.

Lemma load_stbl_keys_witness :
  let tbl : gmap Z schema := {[26 := Simple 26 "first" [raw_field "a" 0 8]]} in
  let rs := [Record_ "1A" "first" [raw_field "a" 0 8];
             Record_ "0x1a" "again" []] in
  (∀ c e, tbl !! c = Some e → schema_id e = c) ∧
  (∀ c, is_Some (tbl !! c) ↔ ∃ r, r ∈ rs ∧ int16 (r_id r) = Ok c).
Proof.
  intros tbl rs. apply (load_stbl_keys rs tbl). vm_compute. reflexivity.
Defined.

(** ** More on [analyze_data] *)

Lemma lookup_map {A B : Type} (f : A → B) (l : list A) (i : nat) :
  map f l !! i = f <$> l !! i.
Proof.
  revert i. induction l as [|x l IH]; intros [|i]; cbn; try done.
Qed.

Lemma py_getitem_map {A B : Type} (f : A → B) (l : list A) (i : Z) :
  py_getitem (map f l) i = x ← py_getitem l i; Ok (f x).
Proof.
  unfold py_getitem. rewrite length_map, lookup_map.
  destruct (_ || _); [done|]. by destruct (l !! _).
Qed.

Lemma convert_with_length (g : field_def → Z) (ds : list field_def) :
  ∀ (bits_list : list Z) (i : nat) (fields : list decoded_field),
    convert (map (with_length g) ds) bits_list i fields =
    convert ds bits_list i fields.
Proof.
  induction bits_list as [|raw rest IH]; intros i fields; [done|].
  cbn [convert]. rewrite py_getitem_map.
  destruct (py_getitem ds (Z.of_nat i)) as [d| |]; [|done..].
  run_bind. change (field_value (with_length g d) raw) with (field_value d raw).
  destruct (field_value d raw) as [v| |]; [|done..].
  run_bind. apply IH.
Qed.

(** X14. The [length] attribute of the value definitions plays no part
    in decoding: replacing the lengths of the values of a simple entry
    by anything leaves the result of [analyze_data] unchanged (a value
    always runs to the start of the next one, or to the end of the
    payload). *)
Theorem analyze_data_ignores_length (g : field_def → Z) (bs : list byte)
    (id : Z) (name : string) (values : list field_def) :
  analyze_data bs (Simple id name (map (with_length g) values)) =
  analyze_data bs (Simple id name values).
Proof.
  unfold analyze_data, select_values. run_bind.
  unfold decode_values. cbv zeta.
  rewrite map_map. cbn [with_length d_start].
  change (map (λ x, d_start x) values) with (map d_start values).
  destruct (split_bits bs (map d_start values) (-1)) as [bits_list| |]; [|done..].
  run_bind. apply convert_with_length.
Qed.

(** X15. A simple entry with a single raw value starting at bit 0 decodes
    a non-empty payload to one field whose bits are the big-endian
    integer of the whole payload, whatever the declared length. *)
Theorem analyze_data_single_field (bs : list byte) (id : Z) (name : string)
    (d : field_def) :
  bs ≠ [] → d_start d = 0 → d_type d ≠ "float"%string →
  analyze_data bs (Simple id name [d]) =
    Ok [field_of d (be_int bs) (PInt (be_int bs))].
Proof.
  intros Hne Hstart Hty.
  unfold analyze_data, select_values. run_bind.
  unfold decode_values. cbv zeta. cbn [map]. rewrite Hstart.
  rewrite split_bits_chunks;
    [|done|repeat constructor|cbn; lia|cbn; lia].
  change (if -1 <? 0 then 8 * Z.of_nat (length bs) else -1)
    with (8 * Z.of_nat (length bs)).
  cbn [chunk_values hd].
  destruct (Z.ltb_spec 0 (8 * Z.of_nat (length bs)));
    [|destruct bs; [done|cbn in *; lia]].
  rewrite Z.min_id, range_value_whole. run_bind.
  cbn [convert]. rewrite (proj2 (py_getitem_nat [d] 0%nat d)) by done.
  run_bind. rewrite field_value_raw by done. by run_bind.
Qed.

Lemma analyze_data_single_field_witness :
  analyze_data [xab; xcd] (Simple 256 "msg" [raw_field "a" 0 4]) =
    Ok [field_of (raw_field "a" 0 4) (be_int [xab; xcd])
          (PInt (be_int [xab; xcd]))].
Proof.
  apply (analyze_data_single_field [xab; xcd] 256 "msg" (raw_field "a" 0 4));
    [discriminate|reflexivity|discriminate].
Defined.

(** X16. Empty inputs.  An entry with no value definitions makes
    [analyze_data] raise [IndexError] for every payload.  An empty
    payload decodes to no field at all for a simple entry whose first
    value starts at a non-negative bit, and raises [IndexError] for a
    variant entry whose discriminator has a non-negative start and a
    positive length. *)
Theorem analyze_data_empty_inputs :
  (∀ (bs : list byte) (id : Z) (name : string),
     analyze_data bs (Simple id name []) = Raise IndexError)
  ∧ (∀ (id : Z) (name : string) (values : list field_def),
       values ≠ [] → 0 <= hd 0 (map d_start values) →
       analyze_data [] (Simple id name values) = Ok [])
  ∧ (∀ (id : Z) (name : string) (mode_def : field_def)
       (mdv : gmap Z (list field_def)),
       0 <= d_start mode_def → 0 < d_length mode_def →
       analyze_data [] (MultiMode id name mode_def mdv) = Raise IndexError).
Proof.
  split; [done|split].
  - intros id name values Hne Hhd.
    unfold analyze_data, select_values. run_bind.
    unfold decode_values. cbv zeta.
    destruct values as [|d rest]; [done|]. cbn [map hd] in *.
    rewrite split_bits_unfold. cbv zeta. cbn [length Z.of_nat].
    by rewrite outer_loop_done by (cbn; lia).
  - intros id name mode_def mdv Hstart Hlen.
    unfold analyze_data, select_values.
    destruct (extract_bits_past [] (d_start mode_def) (d_length mode_def))
      as [_ ->]; [done|done|cbn; lia|done].
Qed.

Lemma analyze_data_empty_inputs_witness :
  analyze_data [] (Simple 256 "msg" [raw_field "a" 0 8; raw_field "b" 8 8])
    = Ok []
  ∧ analyze_data [] (MultiMode 256 "msg" mode_field ∅) = Raise IndexError.
Proof.
  split.
  - apply (proj1 (proj2 analyze_data_empty_inputs)); [discriminate|cbn; lia].
  - apply (proj2 (proj2 analyze_data_empty_inputs)); cbn; lia.
Defined.

(** X17. A successful decode never yields more fields than there are
    definitions: after the fields emitted by the selection step (the
    discriminator, for a variant entry) come at most as many fields as
    the active sequence has definitions, each with integer bits and a
    unit, whatever the order of the start positions. *)
Theorem analyze_data_fields_bounded (bs : list byte) (stbl : schema)
    (fields0 out : list decoded_field) (ds : list field_def) :
  select_values bs stbl = Ok (fields0, ds) →
  analyze_data bs stbl = Ok out →
  ∃ new, out = fields0 ++ new ∧ (length new <= length ds)%nat ∧
    Forall (λ f, (∃ raw, f_bits f = PInt raw) ∧ is_Some (f_unit f)) new.
Proof.
  intros Hsel Hout.
  rewrite (analyze_data_selected _ _ _ _ Hsel) in Hout.
  apply decode_values_inv in Hout as (bits_list & new & Hsplit & -> & Hlen & Hnew).
  exists new. split; [done|]. split.
  - rewrite Hlen. apply split_bits_length in Hsplit.
    by rewrite length_map in Hsplit.
  - apply Forall_lookup. intros j f Hf.
    destruct (lookup_lt_is_Some_2 bits_list j) as [raw Hraw];
      [rewrite <- Hlen; by eapply lookup_lt_Some|].
    destruct (Hnew j raw Hraw) as (d & v & _ & _ & Hj).
    rewrite Hf in Hj. injection Hj as ->. split; by eexists.
Qed.

Lemma analyze_data_fields_bounded_witness :
  ∃ new,
    [DecodedField "mode" (PInt 1) (PInt 1) None "selector";
     DecodedField "a" (PInt 10) (PInt 10) (Some EmptyString) EmptyString]
      = [DecodedField "mode" (PInt 1) (PInt 1) None "selector"] ++ new ∧
    (length new <= length [raw_field "a" 4 4])%nat ∧
    Forall (λ f, (∃ raw, f_bits f = PInt raw) ∧ is_Some (f_unit f)) new.
Proof.
  apply (analyze_data_fields_bounded [x1a]
           (MultiMode 256 "msg" mode_field {[1 := [raw_field "a" 4 4]]}));
    vm_compute; reflexivity.
Defined.

(** ** [find_field] and [find_fields] *)

(** X18. [find_field] returns the first field with the given name:
    every field before it has another name; it returns [None] exactly
    when no field has the name. *)
Theorem find_field_first (name : string) (fields : list decoded_field) :
  match find_field name fields with
  | Some f =>
      ∃ pre post, fields = pre ++ f :: post ∧ f_name f = name ∧
        Forall (λ g, f_name g ≠ name) pre
  | None => Forall (λ g, f_name g ≠ name) fields
  end.
Proof.
  induction fields as [|g fields IH]; [cbn; constructor|].
  cbn [find_field]. destruct (String.eqb_spec name (f_name g)) as [->|Hne].
  - exists [], fields. repeat split. constructor.
  - destruct (find_field name fields) as [f|].
    + destruct IH as (pre & post & -> & Hname & Hpre).
      exists (g :: pre), post. split; [done|]. split; [done|].
      constructor; [congruence|done].
    + constructor; [congruence|done].
Qed.

Lemma find_field_elem (name : string) (fields : list decoded_field)
    (f : decoded_field) :
  find_field name fields = Some f → f ∈ fields ∧ f_name f = name.
Proof.
  induction fields as [|g fields IH]; [done|].
  cbn [find_field]. destruct (String.eqb_spec name (f_name g)) as [->|Hne].
  - intros [= <-]. split; [by left|done].
  - intros Hf. destruct (IH Hf) as [Hin Hname]. split; [by right|done].
Qed.

Lemma dict_set_present {V : Type} (k : string) (v : V) (d : list (string * V)) :
  k ∈ map fst d → (∀ v', (k, v') ∈ d → v' = v) → dict_set k v d = d.
Proof.
  induction d as [|[k' v'] d IH]; intros Hin Hval.
  - by apply elem_of_nil in Hin.
  - cbn [dict_set]. destruct (String.eqb_spec k k') as [->|Hne].
    + by rewrite (Hval v') by left.
    + f_equal. apply IH.
      * cbn in Hin. apply elem_of_cons in Hin as [?|?]; [done|done].
      * intros v'' Hv. apply Hval. by right.
Qed.

Lemma dict_set_absent {V : Type} (k : string) (v : V) (d : list (string * V)) :
  k ∉ map fst d → dict_set k v d = d ++ [(k, v)].
Proof.
  induction d as [|[k' v'] d IH]; intros Hin; [done|].
  cbn [dict_set]. cbn in Hin. apply not_elem_of_cons in Hin as [Hne Hin].
  destruct (String.eqb_spec k k') as [->|_]; [done|].
  cbn. by rewrite IH.
Qed.

(** The dictionary built by the loop of [find_fields] from a dictionary
    whose values are already what [find_field] returns for their keys. *)
Lemma find_fields_from_spec (fields : list decoded_field) (names : list string) :
  ∀ fs0 : list (string * decoded_field),
    NoDup (map fst fs0) →
    (∀ k f, (k, f) ∈ fs0 → find_field k fields = Some f) →
    NoDup (map fst (find_fields_from names fields fs0)) ∧
    (∀ k f, (k, f) ∈ find_fields_from names fields fs0 ↔
       (k, f) ∈ fs0 ∨ (k ∈ names ∧ find_field k fields = Some f)) ∧
    ∃ tl, find_fields_from names fields fs0 = fs0 ++ tl.
Proof.
  induction names as [|name names IH]; intros fs0 Hnd Hval.
  - cbn. split; [done|]. split; [|exists []; by rewrite app_nil_r].
    intros k f. split; [by left|]. intros [?|[Hin _]]; [done|].
    by apply elem_of_nil in Hin.
  - cbn [find_fields_from].
    destruct (find_field name fields) as [f0|] eqn:Hf0.
    + assert (Hset : ((name, f0) ∈ fs0 ∧ dict_set name f0 fs0 = fs0)
                     ∨ ((name ∉ (map fst fs0))
                        ∧ dict_set name f0 fs0 = fs0 ++ [(name, f0)])).
      { destruct (decide (name ∈ map fst fs0)) as [Hin|Hnin].
        - left. split.
          + apply list_elem_of_fmap in Hin as ([k' f'] & -> & Hkf).
            cbn in *. pose proof (Hval _ _ Hkf). congruence.
          + apply dict_set_present; [done|].
            intros v' Hv'. apply Hval in Hv'. congruence.
        - right. split; [done|]. by apply dict_set_absent. }
      destruct Hset as [[Hin0 ->]|[Hnin ->]].
      * destruct (IH fs0 Hnd Hval) as (Hnd' & Hmem & Htl).
        split; [done|]. split; [|done].
        intros k f. rewrite Hmem. split.
        -- intros [?|[Hin Hk]]; [by left|]. right. split; [by right|done].
        -- intros [?|[Hin Hk]]; [by left|].
           apply elem_of_cons in Hin as [->|Hin]; [|right; by split].
           left. congruence.
      * destruct (IH (fs0 ++ [(name, f0)])) as (Hnd' & Hmem & (tl & Htl)).
        -- rewrite map_app. apply NoDup_app. split; [done|].
           split; [|apply NoDup_singleton].
           intros k Hk Hk'. cbn in Hk'. apply list_elem_of_singleton in Hk'.
           by subst.
        -- intros k f Hkf. apply elem_of_app in Hkf as [Hkf|Hkf]; [by apply Hval|].
           apply list_elem_of_singleton in Hkf. by injection Hkf as -> ->.
        -- split; [done|]. split.
           ++ intros k f. rewrite Hmem, elem_of_app, list_elem_of_singleton.
              split.
              ** intros [[?|[= -> ->]]|[Hin Hk]].
                 --- by left.
                 --- right. split; [by left|done].
                 --- right. split; [by right|done].
              ** intros [?|[Hin Hk]]; [left; by left|].
                 apply elem_of_cons in Hin as [->|Hin].
                 --- left. right. congruence.
                 --- right. by split.
           ++ exists ((name, f0) :: tl). by rewrite Htl, <- app_assoc.
    + destruct (IH fs0 Hnd Hval) as (Hnd' & Hmem & Htl).
      split; [done|]. split; [|done].
      intros k f. rewrite Hmem. split.
      * intros [?|[Hin Hk]]; [by left|]. right. split; [by right|done].
      * intros [?|[Hin Hk]]; [by left|].
        apply elem_of_cons in Hin as [->|Hin]; [congruence|right; by split].
Qed.

(** X19. The dictionary returned by [find_fields] has one item per
    requested name that some field carries, whatever the repetitions in
    [names]: its keys are distinct, and [(k, f)] is an item exactly when
    [k] is a requested name and [f] is the first field named [k].  Names
    that no field carries are left out. *)
Theorem find_fields_items (names : list string) (fields : list decoded_field) :
  NoDup (map fst (find_fields names fields)) ∧
  ∀ k f, (k, f) ∈ find_fields names fields ↔
    k ∈ names ∧ find_field k fields = Some f.
Proof.
  destruct (find_fields_from_spec fields names [])
    as (Hnd & Hmem & _); [constructor|by intros k f ?%elem_of_nil|].
  split; [done|]. intros k f. unfold find_fields. rewrite Hmem.
  split; [by intros [?%elem_of_nil|?]|by right].
Qed.

Lemma find_fields_from_fresh (fields : list decoded_field) (names : list string) :
  ∀ fs0 : list (string * decoded_field),
    NoDup names → (∀ n, n ∈ names → n ∉ (map fst fs0)) →
    find_fields_from names fields fs0 =
    fs0 ++ omap (λ n, pair n <$> find_field n fields) names.
Proof.
  induction names as [|name names IH]; intros fs0 Hnd Hfresh.
  - cbn. by rewrite app_nil_r.
  - apply NoDup_cons in Hnd as [Hname Hnd].
    cbn [find_fields_from omap list_omap].
    destruct (find_field name fields) as [f|]; cbn.
    + rewrite dict_set_absent by (apply Hfresh; by left).
      rewrite IH; [by rewrite <- app_assoc|done|].
      intros n Hn. rewrite map_app. cbn. intros Hin.
      apply elem_of_app in Hin as [Hin|Hin].
      * by apply (Hfresh n); [right|].
      * apply list_elem_of_singleton in Hin. by subst.
    + apply IH; [done|]. intros n Hn. apply Hfresh. by right.
Qed.

Lemma find_field_unique (fields : list decoded_field) (f : decoded_field) :
  NoDup (map f_name fields) → f ∈ fields →
  find_field (f_name f) fields = Some f.
Proof.
  induction fields as [|g fields IH]; intros Hnd Hin.
  - by apply elem_of_nil in Hin.
  - cbn in Hnd. apply NoDup_cons in Hnd as [Hg Hnd].
    cbn [find_field]. apply elem_of_cons in Hin as [->|Hin].
    + by rewrite String.eqb_refl.
    + destruct (String.eqb_spec (f_name f) (f_name g)) as [Heq|_]; [|by apply IH].
      exfalso. apply Hg. rewrite <- Heq.
      apply list_elem_of_fmap. by exists f.
Qed.

(** X20. When the field names are distinct, asking for all of them (what
    [--all] does) gives every field, in the order of the decode. *)
Theorem find_fields_all_distinct (fields : list decoded_field) :
  NoDup (map f_name fields) →
  find_fields (map f_name fields) fields = map (λ f, (f_name f, f)) fields.
Proof.
  intros Hnd. unfold find_fields.
  rewrite find_fields_from_fresh; [|done|by intros n _ ?%elem_of_nil].
  cbn [app].
  assert (Hsub : ∀ l, (∀ f, f ∈ l → f ∈ fields) →
            omap (λ n, pair n <$> find_field n fields) (map f_name l)
            = map (λ f, (f_name f, f)) l).
  { induction l as [|f l IH]; intros Hl; [done|].
    cbn [map omap list_omap].
    rewrite (find_field_unique fields f Hnd) by (apply Hl; by left).
    cbn. f_equal. apply IH. intros g Hg. apply Hl. by right. }
  by apply Hsub.
Qed.

Lemma find_fields_all_distinct_witness :
  let fields := [DecodedField "a" (PInt 1) (PInt 1) None "x";
                 DecodedField "b" (PInt 2) (PInt 2) (Some "u") "y"] in
  find_fields (map f_name fields) fields = map (λ f, (f_name f, f)) fields.
Proof.
  intros fields. apply (find_fields_all_distinct fields).
  repeat constructor; cbn; intros H;
    repeat (apply elem_of_cons in H as [H|H]; [discriminate|]);
    by apply elem_of_nil in H.
Defined.

(** ** [format_name_and_bits] *)

Lemma upper_hex_char_digit (m : Z) :
  0 <= m < 16 →
  Ascii.eqb (upper_hex_char m) "_" = false ∧
  digit_value (upper_hex_char m) = Some m.
Proof.
  intros Hm.
  assert (Hcases : m = 0 ∨ m = 1 ∨ m = 2 ∨ m = 3 ∨ m = 4 ∨ m = 5 ∨ m = 6
                   ∨ m = 7 ∨ m = 8 ∨ m = 9 ∨ m = 10 ∨ m = 11 ∨ m = 12
                   ∨ m = 13 ∨ m = 14 ∨ m = 15) by lia.
  repeat (destruct Hcases as [->|Hcases]; [by vm_compute|]).
  subst. by vm_compute.
Qed.

Lemma scan_digits_digit (m : Z) (s : string) (a : Z) (d : nat) :
  0 <= m < 16 →
  scan_digits (String (upper_hex_char m) s) false a d =
  scan_digits s false (16 * a + m) (S d).
Proof.
  intros Hm. destruct (upper_hex_char_digit m Hm) as [Hus Hdv].
  cbn [scan_digits]. by rewrite Hus, Hdv.
Qed.

(** Reading back the digits that [hex_digits] writes. *)
Lemma scan_digits_hex_digits (fuel : nat) :
  ∀ (n : Z) (s : string) (a : Z) (d : nat),
    0 <= n < 16 ^ (Z.of_nat fuel + 1) →
    ∃ k : nat,
      scan_digits (hex_digits fuel n s) false a d =
      scan_digits s false (a * 16 ^ Z.of_nat (S k) + n) (d + S k).
Proof.
  induction fuel as [|fuel IH]; intros n s a d Hn.
  - exists 0%nat. cbn [hex_digits]. cbn in Hn.
    rewrite Z.mod_small by lia. rewrite scan_digits_digit by lia.
    f_equal; [cbn; lia|lia].
  - cbn [hex_digits]. destruct (Z.ltb_spec n 16) as [Hsmall|Hbig].
    + exists 0%nat. rewrite Z.mod_small by lia.
      rewrite scan_digits_digit by lia. f_equal; [cbn; lia|lia].
    + pose proof (Z.mod_pos_bound n 16 ltac:(lia)) as Hmod.
      pose proof (Z.div_mod n 16 ltac:(lia)) as Hdm.
      assert (Hdiv : 0 <= n / 16 < 16 ^ (Z.of_nat fuel + 1)).
      { split; [apply Z.div_pos; lia|].
        apply Z.div_lt_upper_bound; [lia|].
        rewrite <- Z.pow_succ_r by lia.
        replace (Z.succ (Z.of_nat fuel + 1)) with (Z.of_nat (S fuel) + 1) by lia.
        lia. }
      destruct (IH (n / 16) (String (upper_hex_char (n mod 16)) s) a d Hdiv)
        as [k Hk].
      exists (S k). rewrite Hk, scan_digits_digit by lia.
      f_equal; [|lia].
      rewrite (Nat2Z.inj_succ (S k)), (Z.pow_succ_r 16 (Z.of_nat (S k))) by lia.
      lia.
Qed.

Lemma hex_digits_head (fuel : nat) :
  ∀ (n : Z) (s : string),
    ∃ c t, hex_digits fuel n s = String c t ∧ Ascii.eqb c "_" = false.
Proof.
  induction fuel as [|fuel IH]; intros n s.
  - eexists _, _. split; [done|].
    apply upper_hex_char_digit, Z.mod_pos_bound. lia.
  - cbn [hex_digits]. destruct (n <? 16); [|apply IH].
    eexists _, _. split; [done|].
    apply upper_hex_char_digit, Z.mod_pos_bound. lia.
Qed.

(** [int(_, 16)] on a [0x] literal whose first digit position does not
    hold an underscore. *)
Lemma int16_prefixed (c : ascii) (t : string) :
  Ascii.eqb c "_" = false →
  int16 (String "0" (String "x" (String c t))) =
    match scan_digits (String c t) false 0 0 with
    | None => Raise ValueError
    | Some (v, digits, rest) =>
        if Nat.eqb digits 0 then Raise ValueError
        else match lstrip rest with
             | EmptyString => Ok v
             | String _ _ => Raise ValueError
             end
    end.
Proof.
  intros Hc.
  destruct c as [[] [] [] [] [] [] [] []]; first [discriminate Hc | reflexivity].
Qed.

Lemma log2_fuel (n : Z) :
  0 <= n → 0 <= n < 16 ^ (Z.of_nat (Z.to_nat (Z.log2 n)) + 1).
Proof.
  intros Hn. split; [done|].
  pose proof (Z.log2_nonneg n) as Hlog.
  rewrite Z2Nat.id by done.
  destruct (Z.eq_dec n 0) as [->|Hne]; [cbn; lia|].
  pose proof (Z.log2_spec n ltac:(lia)) as [_ Hup].
  eapply Z.lt_le_trans; [exact Hup|].
  replace (Z.succ (Z.log2 n)) with (Z.log2 n + 1) by lia.
  change 16 with (2 ^ 4). rewrite <- Z.pow_mul_r by lia.
  apply Z.pow_le_mono_r; lia.
Qed.

Lemma int16_py_hex_upper (n : Z) :
  0 <= n → int16 ("0x" +:+ py_hex_upper n) = Ok n.
Proof.
  intros Hn. unfold py_hex_upper. destruct (Z.ltb_spec n 0); [lia|].
  set (fuel := Z.to_nat (Z.log2 n)).
  destruct (hex_digits_head fuel n EmptyString) as (c & t & Hhead & Hc).
  change ("0x" +:+ hex_digits fuel n EmptyString)
    with (String "0" (String "x" (hex_digits fuel n EmptyString))).
  rewrite Hhead, int16_prefixed by done. rewrite <- Hhead.
  destruct (scan_digits_hex_digits fuel n EmptyString 0 0%nat (log2_fuel n Hn))
    as [k ->].
  cbn [scan_digits Nat.add Nat.eqb lstrip]. by rewrite Z.mul_0_l.
Qed.

(** X21. For a field whose bits are a non-negative integer,
    [format_name_and_bits] prints the name, [=], and a [0x] literal in
    upper-case hexadecimal that [int(_, 16)] reads back as that
    integer; for bits that are not an integer it raises [TypeError]. *)
Theorem format_name_and_bits_reads_back (name : string) (f : decoded_field) :
  match f_bits f with
  | PInt n =>
      0 <= n →
      ∃ literal,
        format_name_and_bits (name, f) = Done (name +:+ "=" +:+ literal) ∧
        int16 literal = Ok n
  | _ => format_name_and_bits (name, f) = Fail TypeError
  end.
Proof.
  unfold format_name_and_bits. cbn [fst snd].
  destruct (f_bits f) as [|n|x]; try done.
  intros Hn. exists ("0x" +:+ py_hex_upper n). split; [done|].
  by apply int16_py_hex_upper.
Qed.

Lemma format_name_and_bits_reads_back_witness :
  ∃ literal,
    format_name_and_bits ("a", DecodedField "a" (PInt 188) (PInt 188) None "d")
      = Done ("a" +:+ "=" +:+ literal) ∧
    int16 literal = Ok 188.
Proof.
  apply (format_name_and_bits_reads_back "a"
           (DecodedField "a" (PInt 188) (PInt 188) None "d")).
  lia.
Defined.

(** ** The line patterns *)

Lemma span_app (p : ascii → bool) (w rest : string) :
  all_chars p w = true → stops p rest = true →
  span p (w +:+ rest) = (w, rest).
Proof.
  intros Hw Hrest. induction w as [|c w IH].
  - change (EmptyString +:+ rest) with rest.
    destruct rest as [|c r]; [done|]. cbn in *.
    by destruct (p c).
  - cbn in Hw. apply andb_prop in Hw as [Hc Hw].
    change (String c w +:+ rest) with (String c (w +:+ rest)).
    cbn [span]. by rewrite Hc, IH.
Qed.

Lemma word_app (p : ascii → bool) (w rest : string) :
  w ≠ EmptyString → all_chars p w = true → stops p rest = true →
  word p (w +:+ rest) = Some (w, rest).
Proof.
  intros Hne Hw Hrest. unfold word. rewrite span_app by done.
  by destruct w.
Qed.

Lemma match_head_line (datetime interface id tail : string) :
  datetime ≠ EmptyString → all_chars is_stamp datetime = true →
  interface ≠ EmptyString → all_chars is_alnum interface = true →
  id ≠ EmptyString → all_chars is_alnum id = true →
  stops is_alnum tail = true →
  match_head ("(" +:+ datetime +:+ ") " +:+ interface +:+ " " +:+ id +:+ tail)
    = Some (datetime, interface, id, tail).
Proof.
  intros Hd1 Hd2 Hi1 Hi2 Hid1 Hid2 Htail. unfold match_head.
  change ("(" +:+ datetime +:+ ") " +:+ interface +:+ " " +:+ id +:+ tail)
    with (String "(" (datetime +:+ String ")" (String " "
            (interface +:+ String " " (id +:+ tail))))).
  cbn [lit Ascii.eqb Bool.eqb mbind option_bind].
  rewrite word_app by done. cbn [mbind option_bind lit Ascii.eqb Bool.eqb].
  rewrite word_app by done. cbn [mbind option_bind lit Ascii.eqb Bool.eqb].
  by rewrite word_app by done.
Qed.

Lemma match_classic_line (datetime interface id data rest : string) :
  datetime ≠ EmptyString → all_chars is_stamp datetime = true →
  interface ≠ EmptyString → all_chars is_alnum interface = true →
  id ≠ EmptyString → all_chars is_alnum id = true →
  data ≠ EmptyString → all_chars is_alnum data = true →
  stops is_alnum rest = true →
  match_classic (classic_line datetime interface id data rest)
    = Some (datetime, interface, id, data).
Proof.
  intros Hd1 Hd2 Hi1 Hi2 Hid1 Hid2 Hda1 Hda2 Hrest.
  unfold match_classic, classic_line.
  rewrite match_head_line by done.
  cbn [mbind option_bind].
  change ("#" +:+ data +:+ rest) with (String "#" (data +:+ rest)).
  cbn [lit Ascii.eqb Bool.eqb mbind option_bind].
  by rewrite word_app by done.
Qed.

Lemma match_fd_line (datetime interface id : string) (flag : ascii)
    (data rest : string) :
  datetime ≠ EmptyString → all_chars is_stamp datetime = true →
  interface ≠ EmptyString → all_chars is_alnum interface = true →
  id ≠ EmptyString → all_chars is_alnum id = true →
  is_digit flag = true →
  data ≠ EmptyString → all_chars is_alnum data = true →
  stops is_alnum rest = true →
  match_classic (fd_line datetime interface id flag data rest) = None ∧
  match_fd (fd_line datetime interface id flag data rest)
    = Some (datetime, interface, id, data).
Proof.
  intros Hd1 Hd2 Hi1 Hi2 Hid1 Hid2 Hflag Hda1 Hda2 Hrest.
  unfold match_classic, match_fd, fd_line.
  rewrite match_head_line by done.
  cbn [mbind option_bind].
  change ("##" +:+ String flag (data +:+ rest))
    with (String "#" (String "#" (String flag (data +:+ rest)))).
  cbn [lit one Ascii.eqb Bool.eqb mbind option_bind word span is_alnum].
  rewrite Hflag. cbn [mbind option_bind]. split; [done|].
  by rewrite word_app by done.
Qed.

(** X22. The patterns read back what a well-formed line holds: on a
    classic line [re.search(PAT_CLASSIC, _)] yields the four groups; on
    an FD line the classic pattern does not match and the FD pattern
    yields the same groups, the character after [##] left out of the
    data.  (Groups are non-empty, in their classes, and the line goes on
    with something outside [[A-Za-z0-9]] or ends.) *)
Theorem line_patterns_read_back (datetime interface id data rest : string) :
  datetime ≠ EmptyString → all_chars is_stamp datetime = true →
  interface ≠ EmptyString → all_chars is_alnum interface = true →
  id ≠ EmptyString → all_chars is_alnum id = true →
  data ≠ EmptyString → all_chars is_alnum data = true →
  stops is_alnum rest = true →
  match_classic (classic_line datetime interface id data rest)
    = Some (datetime, interface, id, data) ∧
  ∀ flag, is_digit flag = true →
    match_classic (fd_line datetime interface id flag data rest) = None ∧
    match_fd (fd_line datetime interface id flag data rest)
      = Some (datetime, interface, id, data).
Proof.
  intros. split; [by apply match_classic_line|].
  intros flag Hflag. by apply match_fd_line.
Qed.

Lemma line_patterns_read_back_witness :
  match_classic (classic_line "1609459200.25" "can0" "1A" "0102AB" " #x")
    = Some ("1609459200.25", "can0", "1A", "0102AB")%string ∧
  ∀ flag, is_digit flag = true →
    match_classic (fd_line "1609459200.25" "can0" "1A" flag "0102AB" " #x")
      = None ∧
    match_fd (fd_line "1609459200.25" "can0" "1A" flag "0102AB" " #x")
      = Some ("1609459200.25", "can0", "1A", "0102AB")%string.
Proof.
  apply (line_patterns_read_back "1609459200.25" "can0" "1A" "0102AB" " #x");
    (discriminate || reflexivity).
Defined.

(** ** [analyze] *)

(** X23. What [analyze] returns keeps these invariants: the signal
    holds the text unchanged; the flag is [True] exactly when the signal
    has fields; a signal with fields also has the time, interface and
    identifier entries, and the identifier is a key of the table; a
    signal without those entries comes from a line that neither pattern
    matches. *)
Theorem analyze_result_invariant {timeinfo : Type}
    (parse_time : string → outcome timeinfo) (text : string)
    (stbl : gmap Z schema) (res : bool) (sg : signal timeinfo) :
  analyze parse_time text stbl = Ok (res, sg) →
  s_text sg = text ∧
  (res = true ↔ is_Some (s_fields sg)) ∧
  (is_Some (s_fields sg) →
     ∃ t interface c, s_head sg = Some (t, interface, c) ∧ is_Some (stbl !! c)) ∧
  (s_head sg = None → match_classic text = None ∧ match_fd text = None).
Proof.
  unfold analyze.
  set (found := match match_classic text with
                | Some m => Some m
                | None => match_fd text
                end).
  assert (Hnone : found = None →
                  match_classic text = None ∧ match_fd text = None).
  { unfold found. destruct (match_classic text); [done|]. by intros ->. }
  destruct found as [[[[dt ifc] id] data]|].
  - destruct (parse_time dt) as [t| |]; [|done..]. run_bind.
    destruct (int16 id) as [c| |]; [|done..]. run_bind.
    destruct (stbl !! c) as [entry|] eqn:Hentry.
    + destruct (hexstr_to_bytes data) as [bs| |]; [|done..]. run_bind.
      destruct (analyze_data bs entry) as [fields| |]; [|done..]. run_bind.
      intros [= <- <-]. cbn. split; [done|].
      split; [split; [by eexists|done]|].
      split; [|done]. intros _. exists t, ifc, c. by rewrite Hentry.
    + intros [= <- <-]. cbn. split; [done|].
      split; [split; [done|by intros [? ?]]|].
      split; [by intros [? ?]|done].
  - intros [= <- <-]. cbn. split; [done|].
    split; [split; [done|by intros [? ?]]|].
    split; [by intros [? ?]|]. intros _. by apply Hnone.
Qed.

Lemma analyze_result_invariant_witness :
  let sg : signal unit := Signal "no frame here" None None in
  s_text sg = "no frame here"%string ∧
  (false = true ↔ is_Some (s_fields sg)) ∧
  (is_Some (s_fields sg) →
     ∃ t interface c, s_head sg = Some (t, interface, c)
                      ∧ is_Some ((∅ : gmap Z schema) !! c)) ∧
  (s_head sg = None → match_classic "no frame here" = None
                      ∧ match_fd "no frame here" = None).
Proof.
  intros sg.
  apply (analyze_result_invariant (λ _, Ok tt) "no frame here" ∅ false sg).
  reflexivity.
Defined.

Lemma all_chars_alnum (s : string) : all_chars is_alnum s = all_alnum s.
Proof. induction s as [|c s IH]; [done|]. cbn. by rewrite IH. Qed.

Lemma hexstr_to_bytes_alnum_error (s : string) :
  all_chars is_alnum s = true → all_hex s = false →
  hexstr_to_bytes s = Raise ValueError.
Proof.
  rewrite all_chars_alnum. intros Halnum Hhex. rewrite hexstr_to_bytes_pad.
  destruct (pad_even_length s) as [n Hn].
  rewrite (parse_slices_alnum n); [done|done| |];
    unfold pad_even; by destruct (Nat.even _).
Qed.

(** X24. On a well-formed classic line whose time stamp is accepted:
    an identifier that [int(_, 16)] rejects makes [analyze] raise that
    error; an identifier that is not in the table gives [False] and a
    signal without fields, the payload not being decoded at all; with an
    identifier of the table, a payload holding a character that is not a
    hexadecimal digit raises [ValueError]. *)
Theorem analyze_identifier_cases {timeinfo : Type}
    (parse_time : string → outcome timeinfo)
    (datetime interface id data rest : string) (stbl : gmap Z schema)
    (t : timeinfo) :
  datetime ≠ EmptyString → all_chars is_stamp datetime = true →
  interface ≠ EmptyString → all_chars is_alnum interface = true →
  id ≠ EmptyString → all_chars is_alnum id = true →
  data ≠ EmptyString → all_chars is_alnum data = true →
  stops is_alnum rest = true →
  parse_time datetime = Ok t →
  let text := classic_line datetime interface id data rest in
  (∀ e, int16 id = Raise e → analyze parse_time text stbl = Raise e) ∧
  (∀ c, int16 id = Ok c → stbl !! c = None →
     analyze parse_time text stbl
       = Ok (false, Signal text (Some (t, interface, c)) None)) ∧
  (∀ c, int16 id = Ok c → is_Some (stbl !! c) → all_hex data = false →
     analyze parse_time text stbl = Raise ValueError).
Proof.
  intros Hd1 Hd2 Hi1 Hi2 Hid1 Hid2 Hda1 Hda2 Hrest Hpt text.
  assert (Hrun : analyze parse_time text stbl =
            canid ← int16 id;
            match stbl !! canid with
            | Some entry =>
                bs ← hexstr_to_bytes data;
                fields ← analyze_data bs entry;
                Ok (true, Signal text (Some (t, interface, canid)) (Some fields))
            | None => Ok (false, Signal text (Some (t, interface, canid)) None)
            end).
  { unfold analyze, text. rewrite match_classic_line by done.
    by rewrite Hpt. }
  rewrite Hrun. split; [|split].
  - by intros e ->.
  - intros c -> Hc. run_bind. by rewrite Hc.
  - intros c -> [entry Hc] Hhex. run_bind. rewrite Hc.
    by rewrite hexstr_to_bytes_alnum_error.
Qed.

Lemma analyze_identifier_cases_witness :
  let text := classic_line "1.5" "can0" "1A" "01XY" EmptyString in
  let pt : string → outcome unit := λ _, Ok tt in
  (∀ e, int16 "1A" = Raise e → analyze pt text ∅ = Raise e) ∧
  (∀ c, int16 "1A" = Ok c → (∅ : gmap Z schema) !! c = None →
     analyze pt text ∅ = Ok (false, Signal text (Some (tt, "can0"%string, c)) None)) ∧
  (∀ c, int16 "1A" = Ok c → is_Some ((∅ : gmap Z schema) !! c) →
     all_hex "01XY" = false → analyze pt text ∅ = Raise ValueError).
Proof.
  intros text pt.
  apply (analyze_identifier_cases pt "1.5" "can0" "1A" "01XY" EmptyString ∅ tt);
    (discriminate || reflexivity).
Defined.

(** X25. The two framings decode alike: an FD line and the classic line
    with the same groups give the same flag, the same time, interface
    and identifier entries and the same fields (or the same error); the
    character after [##] plays no part. *)
Theorem analyze_fd_like_classic {timeinfo : Type}
    (parse_time : string → outcome timeinfo)
    (datetime interface id : string) (flag : ascii) (data rest : string)
    (stbl : gmap Z schema) :
  datetime ≠ EmptyString → all_chars is_stamp datetime = true →
  interface ≠ EmptyString → all_chars is_alnum interface = true →
  id ≠ EmptyString → all_chars is_alnum id = true →
  is_digit flag = true →
  data ≠ EmptyString → all_chars is_alnum data = true →
  stops is_alnum rest = true →
  without_text (analyze parse_time
                  (fd_line datetime interface id flag data rest) stbl) =
  without_text (analyze parse_time
                  (classic_line datetime interface id data rest) stbl).
Proof.
  intros Hd1 Hd2 Hi1 Hi2 Hid1 Hid2 Hflag Hda1 Hda2 Hrest.
  unfold analyze.
  destruct (match_fd_line datetime interface id flag data rest) as [-> ->];
    try done.
  rewrite match_classic_line by done.
  destruct (parse_time datetime) as [t| |]; [|done..]. run_bind.
  destruct (int16 id) as [c| |]; [|done..]. run_bind.
  destruct (stbl !! c) as [entry|]; [|done].
  destruct (hexstr_to_bytes data) as [bs| |]; [|done..]. run_bind.
  by destruct (analyze_data bs entry) as [fields| |].
Qed.

Lemma analyze_fd_like_classic_witness :
  let stbl : gmap Z schema := {[26 := Simple 26 "msg" [raw_field "a" 0 8]]} in
  let pt : string → outcome unit := λ _, Ok tt in
  without_text (analyze pt (fd_line "1.5" "can0" "1A" "1" "AB" EmptyString) stbl) =
  without_text (analyze pt (classic_line "1.5" "can0" "1A" "AB" EmptyString) stbl).
Proof.
  intros stbl pt.
  apply (analyze_fd_like_classic pt "1.5" "can0" "1A" "1" "AB" EmptyString stbl);
    (discriminate || reflexivity).
Defined.

(** ** The loop body of [main] *)

Lemma find_fields_from_none (fields : list decoded_field) (names : list string)
    (fs0 : list (string * decoded_field)) :
  Forall (λ n, find_field n fields = None) names →
  find_fields_from names fields fs0 = fs0.
Proof.
  induction 1 as [|n names Hn _ IH]; [done|].
  cbn [find_fields_from]. by rewrite Hn.
Qed.

(** X26. Below verbosity 3 the line is printed unchanged, without any
    remark, when it was not decoded ([res] is [False]) and when no
    requested name is the name of a decoded field (in particular when no
    name is requested, or when [--all] meets an empty decode). *)
Theorem print_line_echo {timeinfo : Type} (int_max_str_digits : Z)
    (float_repr : float → string)
    (signal_repr : signal timeinfo → attempt string) (a : args) (res : bool)
    (sg : signal timeinfo) :
  a_verbosity a < 3 →
  res = false
  ∨ (∃ fields, s_fields sg = Some fields ∧
       Forall (λ n, find_field n fields = None)
              (if a_all a then map f_name fields else a_fields a)) →
  print_line int_max_str_digits float_repr signal_repr a res sg
    = Done (s_text sg).
Proof.
  intros Hv [->|(fields & Hfields & Hnone)]; [done|].
  unfold print_line. destruct res; [|done]. cbn [negb]. rewrite Hfields.
  run_bind. cbn [mbind attempt_bind].
  unfold find_fields. rewrite find_fields_from_none by done.
  cbn [try_map map mbind attempt_bind].
  destruct (Z.leb_spec 1 (a_verbosity a));
    cbn [try_map2 mbind attempt_bind];
    by destruct (Z.leb_spec 3 (a_verbosity a)); [lia|].
Qed.

Lemma print_line_echo_witness :
  print_line 4300 (λ _, EmptyString) (λ _ : signal unit, Done EmptyString)
    (Args false true 1 ["speed"; "rpm"]) true
    (Signal "(1.5) can0 1A#AB" (Some (tt, "can0"%string, 26))
       (Some [DecodedField "a" (PInt 171) (PInt 171) (Some "u") "d"]))
  = Done "(1.5) can0 1A#AB"%string.
Proof.
  apply (print_line_echo 4300 (λ _, EmptyString)
           (λ _ : signal unit, Done EmptyString)
           (Args false true 1 ["speed"; "rpm"]) true).
  - cbn. lia.
  - right. eexists. split; [reflexivity|]. repeat constructor.
Defined.

Lemma try_map_format_bits (fs : list (string * decoded_field)) :
  Forall (λ kv, ∃ n, f_bits kv.2 = PInt n) fs →
  ∃ items, try_map format_name_and_bits fs = Done items ∧
           length items = length fs.
Proof.
  induction 1 as [|[k f] fs [n Hn] _ (items & Hitems & Hlen)].
  - by exists [].
  - assert (Hfmt : format_name_and_bits (k, f)
                   = Done (k +:+ "=0x" +:+ py_hex_upper n)).
    { unfold format_name_and_bits. cbn [fst snd] in *. by rewrite Hn. }
    cbn [try_map]. rewrite Hfmt. cbn [mbind attempt_bind]. rewrite Hitems.
    eexists. split; [done|]. cbn. by rewrite Hlen.
Qed.

(** The fields of a successful decode of a variant entry: the
    discriminator without [unit], all fields with integer bits. *)
Lemma analyze_data_variant_fields (bs : list byte) (id : Z) (name : string)
    (mode_def : field_def) (mdv : gmap Z (list field_def))
    (out : list decoded_field) :
  analyze_data bs (MultiMode id name mode_def mdv) = Ok out →
  ∃ first rest, out = first :: rest ∧ f_unit first = None ∧
    Forall (λ f, ∃ n, f_bits f = PInt n) out.
Proof.
  unfold analyze_data, select_values.
  destruct (extract_bits bs (d_start mode_def) (d_length mode_def))
    as [[m|]| |]; [|done..].
  cbn [mbind outcome_bind mode_lookup pyval_of_mode].
  destruct (mdv !! m) as [ds|]; [|done].
  cbn [py_key mbind outcome_bind]. intros Hdec.
  apply decode_values_inv in Hdec as (bits_list & new & _ & -> & Hlen & Hnew).
  eexists _, new. split; [done|]. split; [done|].
  constructor; [by eexists|].
  apply Forall_lookup. intros j f Hf.
  destruct (lookup_lt_is_Some_2 bits_list j) as [raw Hraw];
    [rewrite <- Hlen; by eapply lookup_lt_Some|].
  destruct (Hnew j raw Hraw) as (d & v & _ & _ & Hj).
  rewrite Hf in Hj. injection Hj as ->. by eexists.
Qed.

(** Formatting values fails exactly when one of them is an integer
    beyond the digit limit. *)
Lemma try_map_format_value (limit : Z) (float_repr : float → string)
    (fs : list (string * decoded_field)) :
  if existsb (λ kv, int_str_fails limit (f_value kv.2)) fs
  then try_map (format_name_and_value limit float_repr) fs
       = Fail (Core ValueError)
  else ∃ items, try_map (format_name_and_value limit float_repr) fs
                = Done items ∧ length items = length fs.
Proof.
  induction fs as [|[k f] fs IH]; [by exists []|].
  cbn [existsb try_map snd].
  assert (Hhead : format_name_and_value limit float_repr (k, f) =
            if int_str_fails limit (f_value f) then Fail (Core ValueError)
            else Done (k +:+ "=" +:+ match f_value f with
                                     | PNone => "None"
                                     | PInt n => pretty n
                                     | PFloat x => float_repr x
                                     end)).
  { unfold format_name_and_value, py_str. cbn [fst snd].
    by destruct (int_str_fails limit (f_value f)). }
  rewrite Hhead.
  destruct (int_str_fails limit (f_value f)); [done|].
  cbn [orb mbind attempt_bind].
  destruct (existsb _ fs).
  - by rewrite IH.
  - destruct IH as (items & -> & Hlen). cbn [mbind attempt_bind].
    eexists. split; [done|]. cbn. by rewrite Hlen.
Qed.

(** X27. With [--all] and a verbosity of 1 or more, the fields of any
    successfully decoded variant message make the loop body raise, so
    nothing is printed for the line.  The remarks are formatted first:
    without [--bits] an integer value beyond the interpreter's digit
    limit among the shown fields raises [ValueError].  Otherwise the
    units are read and the loop body raises [KeyError]: the
    discriminator comes first and has no ['unit'].  This holds at
    verbosity 3 as well.  In particular the error is [KeyError] with
    [--bits], and whenever no decoded value is beyond the limit. *)
Theorem print_line_verbose_variant_fails {timeinfo : Type}
    (int_max_str_digits : Z) (float_repr : float → string)
    (signal_repr : signal timeinfo → attempt string)
    (a : args) (bs : list byte) (id : Z) (name : string)
    (mode_def : field_def) (mdv : gmap Z (list field_def))
    (out : list decoded_field) (text : string)
    (head : option (timeinfo * string * Z)) :
  analyze_data bs (MultiMode id name mode_def mdv) = Ok out →
  a_all a = true → 1 <= a_verbosity a →
  let shown := map snd (find_fields (map f_name out) out) in
  let result :=
    print_line int_max_str_digits float_repr signal_repr a true
      (Signal text head (Some out)) in
  result =
    Fail (Core (if negb (a_bits a) &&
                   existsb (λ f, int_str_fails int_max_str_digits (f_value f))
                           shown
                then ValueError else KeyError))
  ∧ (a_bits a = true ∨
     Forall (λ f, int_str_fails int_max_str_digits (f_value f) = false) out →
     result = Fail (Core KeyError)).
Proof.
  intros Hout Hall Hv shown result.
  apply analyze_data_variant_fields in Hout as (first & rest & -> & Hunit & Hbits).
  set (fields := first :: rest) in *.
  destruct (find_fields_from_spec fields (map f_name rest)
              [(f_name first, first)]) as (_ & Hmem & (tl & Htl)).
  { repeat constructor. by intros ?%elem_of_nil. }
  { intros k f Hkf. apply list_elem_of_singleton in Hkf.
    injection Hkf as -> ->. unfold fields. cbn. by rewrite String.eqb_refl. }
  cbn [app] in Htl.
  assert (Hfs : find_fields (map f_name fields) fields
                = (f_name first, first) :: tl).
  { unfold find_fields, fields at 1. cbn [map find_fields_from].
    unfold fields at 1. cbn [find_field]. rewrite String.eqb_refl.
    cbn [dict_set]. by rewrite Htl. }
  assert (Hsub : ∀ kv, kv ∈ (f_name first, first) :: tl → kv.2 ∈ fields).
  { intros [k f] Hkf. cbn.
    rewrite <- Htl in Hkf. apply Hmem in Hkf as [Hkf|[_ Hkf]].
    - apply list_elem_of_singleton in Hkf. injection Hkf as -> ->. by left.
    - by apply find_field_elem in Hkf as [? _]. }
  assert (Hall_bits : Forall (λ kv, ∃ n, f_bits kv.2 = PInt n)
                        ((f_name first, first) :: tl)).
  { apply Forall_forall. intros kv Hkv.
    rewrite Forall_forall in Hbits. by apply Hbits, Hsub. }
  set (bad := existsb (λ kv, int_str_fails int_max_str_digits (f_value kv.2))
                      ((f_name first, first) :: tl)).
  assert (Hexists : existsb (λ f, int_str_fails int_max_str_digits (f_value f))
                            shown = bad).
  { unfold shown, bad. rewrite Hfs. generalize ((f_name first, first) :: tl).
    intros l. induction l as [|kv l IH]; [done|]. cbn. by rewrite IH. }
  assert (Hresult : result =
            Fail (Core (if negb (a_bits a) &&
                           existsb (λ f, int_str_fails int_max_str_digits
                                           (f_value f)) shown
                        then ValueError else KeyError))).
  { unfold result, print_line. cbn [negb s_fields mbind attempt_bind].
    rewrite Hall, Hfs, Hexists.
    assert (Hitems :
              if negb (a_bits a) && bad
              then try_map (if a_bits a then format_name_and_bits
                            else format_name_and_value int_max_str_digits
                                   float_repr)
                           ((f_name first, first) :: tl)
                   = Fail (Core ValueError)
              else ∃ x xs,
                  try_map (if a_bits a then format_name_and_bits
                           else format_name_and_value int_max_str_digits
                                  float_repr)
                          ((f_name first, first) :: tl)
                  = Done (x :: xs)).
    { destruct (a_bits a); cbn [negb andb].
      - destruct (try_map_format_bits _ Hall_bits) as ([|x xs] & -> & Hlen);
          [done|by eexists _, _].
      - pose proof (try_map_format_value int_max_str_digits float_repr
                      ((f_name first, first) :: tl)) as Hval.
        fold bad in Hval. destruct bad; [done|].
        destruct Hval as ([|x xs] & -> & Hlen); [done|by eexists _, _]. }
    destruct (negb (a_bits a) && bad).
    - by rewrite Hitems.
    - destruct Hitems as (x & xs & ->). cbn [mbind attempt_bind].
      destruct (Z.leb_spec 1 (a_verbosity a)); [|lia].
      cbn [map snd try_map2].
      assert (Hfirst : verbose_item x first = Fail (Core KeyError))
        by (unfold verbose_item; by rewrite Hunit).
      by rewrite Hfirst. }
  split; [exact Hresult|].
  intros Hcase. rewrite Hresult.
  destruct Hcase as [->|Hshort]; [done|].
  rewrite Hexists.
  assert (Hnone : bad = false).
  { apply not_true_is_false. intros Hex.
    apply existsb_exists in Hex as (kv & Hin & Hkv).
    apply list_elem_of_In, Hsub in Hin.
    rewrite Forall_forall in Hshort. by rewrite (Hshort _ Hin) in Hkv. }
  rewrite Hnone. by destruct (a_bits a).
Qed.

Lemma print_line_verbose_variant_fails_witness :
  let out := [DecodedField "mode" (PInt 1) (PInt 1) None "selector";
              DecodedField "a" (PInt 10) (PInt 10) (Some EmptyString)
                EmptyString] in
  let result :=
    print_line 4300 (λ _, EmptyString) (λ _ : signal unit, Done EmptyString)
      (Args true false 1 []) true
      (Signal "(1.5) can0 100#1A" None (Some out)) in
  result = Fail (Core KeyError)
  ∧ (false = true ∨
     Forall (λ f, int_str_fails 4300 (f_value f) = false) out →
     result = Fail (Core KeyError)).
Proof.
  intros out result.
  apply (print_line_verbose_variant_fails 4300 (λ _, EmptyString)
           (λ _ : signal unit, Done EmptyString) (Args true false 1 []) [x1a]
           256 "msg" mode_field {[1 := [raw_field "a" 4 4]]} out).
  - vm_compute. reflexivity.
  - reflexivity.
  - cbn. lia.
Defined.

(** With the digit limit at 640, the lowest positive value the
    interpreter accepts, a payload of 270 bytes gives the second field
    more decimal digits than that: without [--bits] the formatter
    raises before any unit is read; with [--bits] the hexadecimal text
    has no limit and the missing unit is reached. *)
Example long_value_remark :
  ∃ out,
    analyze_data (x1f :: replicate 269 xff)
      (MultiMode 256 "msg" mode_field {[1 := [raw_field "a" 4 4]]}) = Ok out ∧
    print_line 640 (λ _, EmptyString) (λ _ : signal unit, Done EmptyString)
      (Args true false 1 []) true (Signal "line" None (Some out))
      = Fail (Core ValueError) ∧
    print_line 640 (λ _, EmptyString) (λ _ : signal unit, Done EmptyString)
      (Args true true 1 []) true (Signal "line" None (Some out))
      = Fail (Core KeyError).
Proof.
  eexists. split; [vm_compute; reflexivity|].
  split; vm_compute; reflexivity.
Qed.
